(** * python_utils.log_query.LogQuerier: a shallow embedding

    The boolean log-query engine of [python_utils/log_query/log_querier.py]:
    the tokenizer [_tokenize], the recursive-descent evaluator
    [_evaluate_tokens] (with its three local functions [eval_next],
    [eval_and], [eval_or]) and the facade [query].

    Python strings are modelled as lists of characters ([list ascii], the
    code points 0..255), on which [str.lower] works character by
    character; texts with other characters are not covered.  Python lists
    of strings that the program only reads are Rocq lists; the list
    objects that [query] creates, aliases and reverses in place live in
    an explicit heap.

    After the querier come the retry decorator of
    [python_utils/retry/retry.py] with the backoff of
    [python_utils/retry/exponential_backoff.py], and [get_version_info]
    of [setup.py]. *)

From Stdlib Require Import Ascii String ZArith Lia.
From stdpp Require Import base decidable option list gmap strings.

Abbreviation pystr := (list ascii).
Abbreviation str := list_ascii_of_string.

(** ** Python exceptions and results *)

Inductive exn : Type :=
  | ValueError (msg : pystr)
  | Exception (msg : pystr)
  | RecursionError.

Inductive outcome (A : Type) : Type :=
  | Ok (a : A)
  | Raise (e : exn).
Arguments Ok {A} a.
Arguments Raise {A} e.

Global Instance exn_eq_dec : EqDecision exn.
Proof. solve_decision. Defined.

Global Instance outcome_eq_dec `{EqDecision A} : EqDecision (outcome A).
Proof. solve_decision. Defined.

Definition rbind {A B} (r : outcome A) (f : A → outcome B) : outcome B :=
  match r with
  | Ok a => f a
  | Raise e => Raise e
  end.

(** ** The [str] methods the module calls *)

Module Str.

(** [s.startswith(p)] *)
Fixpoint startswith (p s : pystr) : bool :=
  match p, s with
  | [], _ => true
  | _ :: _, [] => false
  | a :: p', b :: s' => bool_decide (a = b) && startswith p' s'
  end.

(** [needle in hay] *)
Fixpoint contains (needle hay : pystr) : bool :=
  startswith needle hay ||
  match hay with
  | [] => false
  | _ :: hay' => contains needle hay'
  end.

(** [c.isspace()] on the code points 0..255: TAB, LF, VT, FF, CR,
    FS, GS, RS, US, SPACE, NEL and NBSP. *)
Definition isspace (c : ascii) : bool :=
  let n := nat_of_ascii c in
  bool_decide (9 ≤ n ≤ 13) || bool_decide (28 ≤ n ≤ 32)
  || bool_decide (n = 133) || bool_decide (n = 160).

Fixpoint lstrip (s : pystr) : pystr :=
  match s with
  | [] => []
  | c :: s' => if isspace c then lstrip s' else s
  end.

Fixpoint rstrip (s : pystr) : pystr :=
  match s with
  | [] => []
  | c :: s' =>
      match rstrip s' with
      | [] => if isspace c then [] else [c]
      | r => c :: r
      end
  end.

(** [s.strip()] *)
Definition strip (s : pystr) : pystr := rstrip (lstrip s).

(** [c.lower()] on the code points 0..255: A-Z and the Latin-1 capitals
    (0xC0..0xDE except the multiplication sign 0xD7) move up by 32.
    Beyond these code points [str.lower] depends on the neighbours of a
    character (the Greek final sigma), which this map does not embed. *)
Definition lower_char (c : ascii) : ascii :=
  let n := nat_of_ascii c in
  if bool_decide (65 ≤ n ≤ 90)
     || (bool_decide (192 ≤ n ≤ 222) && negb (bool_decide (n = 215)))
  then ascii_of_nat (n + 32) else c.

(** [s.lower()] *)
Definition lower (s : pystr) : pystr := map lower_char s.

(** The left-to-right scan of [s.replace(old, new)] for a non-empty
    [old]; [skip] counts the characters of a match still to be passed. *)
Fixpoint replace_scan (old new s : pystr) (skip : nat) : pystr :=
  match s with
  | [] => []
  | c :: s' =>
      match skip with
      | S k => replace_scan old new s' k
      | O =>
          if startswith old s
          then new ++ replace_scan old new s' (length old - 1)
          else c :: replace_scan old new s' 0
      end
  end.

(** [s.replace(old, new)]; an empty [old] matches between all
    characters and at both ends. *)
Definition replace (old new s : pystr) : pystr :=
  match old with
  | [] => new ++ concat (map (λ c, c :: new) s)
  | _ :: _ => replace_scan old new s 0
  end.

(** The scan of [s.split(sep)] for a non-empty [sep]: the pieces between
    the non-overlapping occurrences of [sep], leftmost first. *)
Fixpoint split_scan (sep s : pystr) (skip : nat) : list pystr :=
  match s with
  | [] => [[]]
  | c :: s' =>
      match skip with
      | S k => split_scan sep s' k
      | O =>
          if startswith sep s
          then [] :: split_scan sep s' (length sep - 1)
          else match split_scan sep s' 0 with
               | piece :: pieces => (c :: piece) :: pieces
               | [] => [[c]]
               end
      end
  end.

(** [s.split(sep)]: [ValueError] on the empty separator. *)
Definition split (sep s : pystr) : outcome (list pystr) :=
  match sep with
  | [] => Raise (ValueError (str "empty separator"))
  | _ :: _ => Ok (split_scan sep s 0)
  end.

(** [sep.join(pieces)] *)
Fixpoint join (sep : pystr) (pieces : list pystr) : pystr :=
  match pieces with
  | [] => []
  | [p] => p
  | p :: rest => p ++ sep ++ join sep rest
  end.

End Str.

Definition backslash : pystr := ["\"%char].

(** ** [re.findall] on an alternation of default_literals

    The pattern of a [LogQuerier] is the alternation of the five entries
    of the raw operator dictionary, each the regex-escaped form of a
    literal.  [re.findall] scans left to right; at each position the
    alternatives are tried in order and the first that matches wins; the
    scan resumes after the match.  An empty match is reported too, after
    which only a non-empty match may start at the same position. *)

Module Re.

(** The literal that an escaped pattern matches: the pattern without
    its backslashes (the default_literals hold no backslash of their own). *)
Definition literal (p : pystr) : pystr := Str.replace backslash [] p.

Definition first_match (lits : list pystr) (s : pystr) : option pystr :=
  find (λ l, Str.startswith l s) lits.

Definition first_nonempty_match (lits : list pystr) (s : pystr)
  : option pystr :=
  find (λ l, negb (bool_decide (l = [])) && Str.startswith l s) lits.

Fixpoint findall_scan (lits : list pystr) (s : pystr) (skip : nat)
  : list pystr :=
  match s with
  | [] =>
      match skip, first_match lits [] with
      | O, Some l => [l]
      | _, _ => []
      end
  | c :: s' =>
      match skip with
      | S k => findall_scan lits s' k
      | O =>
          match first_match lits s with
          | Some [] =>
              [] :: match first_nonempty_match lits s with
                    | Some l => l :: findall_scan lits s' (length l - 1)
                    | None => findall_scan lits s' 0
                    end
          | Some l => l :: findall_scan lits s' (length l - 1)
          | None => findall_scan lits s' 0
          end
      end
  end.

(** [re.findall(pattern, s)] for [pattern] the alternation of the
    escaped default_literals [alts]; see [escaped] below for the patterns
    that it covers. *)
Definition findall (alts : list pystr) (s : pystr) : list pystr :=
  findall_scan (map literal alts) s 0.

(** The characters with a meaning of their own in a pattern. *)
Definition special (c : ascii) : bool :=
  bool_decide (c ∈ str ".^$*+?{}[]\|()").

(** The ASCII letters and digits: after a backslash they make a special
    sequence or an invalid escape. *)
Definition alnum (c : ascii) : bool :=
  let n := nat_of_ascii c in
  bool_decide (48 ≤ n ≤ 57) || bool_decide (65 ≤ n ≤ 90)
  || bool_decide (97 ≤ n ≤ 122).

(** The patterns that [findall] treats as the code does: a sequence of
    characters that are not special and of pairs of a backslash and a
    character that is neither an ASCII letter or digit nor a backslash.
    Such a pattern compiles and matches the text [literal p] and no
    other.  Other patterns (an escaped backslash, a special character or
    sequence, a pattern that [re] refuses) are outside of what [findall]
    embeds. *)
Fixpoint escaped (p : pystr) : bool :=
  match p with
  | [] => true
  | c :: p' =>
      if bool_decide (c = "\"%char) then
        match p' with
        | [] => false
        | d :: p'' =>
            negb (alnum d) && negb (bool_decide (d = "\"%char))
            && escaped p''
        end
      else negb (special c) && escaped p'
  end.

End Re.

(** ** Module constants *)

(** The keys of an [OperationDict]. *)
Inductive operation_key : Type :=
  | KEY_AND
  | KEY_OR
  | KEY_NOT
  | KEY_LEFT_PARENTHESIS
  | KEY_RIGHT_PARENTHESIS.

Global Instance operation_key_eq_dec : EqDecision operation_key.
Proof. solve_decision. Defined.

(** A dictionary with the five keys: the value of each key, and the keys
    in their insertion order. *)
Record OperationDict : Type := {
  AND : pystr;
  OR : pystr;
  NOT : pystr;
  LEFT_PARENTHESIS : pystr;
  RIGHT_PARENTHESIS : pystr;
  keys : list operation_key;
}.

(** The keys in the order in which the class [OperationDict] declares
    them and the module's [OPERATION_DICT] inserts them. *)
Definition declared_keys : list operation_key :=
  [KEY_AND; KEY_OR; KEY_NOT; KEY_LEFT_PARENTHESIS; KEY_RIGHT_PARENTHESIS].

(** [d[key]] *)
Definition item (d : OperationDict) (key : operation_key) : pystr :=
  match key with
  | KEY_AND => AND d
  | KEY_OR => OR d
  | KEY_NOT => NOT d
  | KEY_LEFT_PARENTHESIS => LEFT_PARENTHESIS d
  | KEY_RIGHT_PARENTHESIS => RIGHT_PARENTHESIS d
  end.

(** [d.values()], in the insertion order of the keys. *)
Definition values (d : OperationDict) : list pystr :=
  map (item d) (keys d).

(** The dictionary holds each of the five keys once, in some order. *)
Definition typed (d : OperationDict) : Prop := keys d ≡ₚ declared_keys.

(** A raw dictionary of escaped literals, as [OPERATION_DICT] is. *)
Definition escaped_dict (raw : OperationDict) : Prop :=
  typed raw ∧ Forall (λ p, Re.escaped p = true) (values raw).

Definition OPERATION_DICT : OperationDict := {|
  AND := str "\&\&";
  OR := str "\|\|";
  NOT := str "\!\!";
  LEFT_PARENTHESIS := str "\(\(";
  RIGHT_PARENTHESIS := str "\)\)";
  keys := declared_keys;
|}.

Definition QUOTE_STRING : pystr := ["034"%char; "034"%char].

(** Set of operations that are not valid for direct evaluation in the
    recursive function. *)
Definition INVALID_EVAL_OPERATION_SET : gset pystr :=
  list_to_set
    (map (Str.replace backslash [])
       [AND OPERATION_DICT; OR OPERATION_DICT;
        RIGHT_PARENTHESIS OPERATION_DICT]).

(** ** The class [LogQuerier] *)

(** Locations of list objects. *)
Abbreviation loc := positive.

Record LogQuerier : Type := {
  logs : loc;
  operationo_dict : OperationDict;
  pattern : list pystr;
  quote_string : pystr;
}.

(** [LogQuerier.__init__]; [pattern] keeps the alternatives that the code
    joins with a bar. *)
Definition __init__ (logs : loc) (raw_operation_dict : OperationDict)
    (quote_string : pystr) : LogQuerier := {|
  logs := logs;
  operationo_dict := {|
    AND := Str.replace backslash [] (AND raw_operation_dict);
    OR := Str.replace backslash [] (OR raw_operation_dict);
    NOT := Str.replace backslash [] (NOT raw_operation_dict);
    LEFT_PARENTHESIS :=
      Str.replace backslash [] (LEFT_PARENTHESIS raw_operation_dict);
    RIGHT_PARENTHESIS :=
      Str.replace backslash [] (RIGHT_PARENTHESIS raw_operation_dict);
    keys := keys raw_operation_dict;
  |};
  pattern := values raw_operation_dict;
  quote_string := quote_string;
|}.

(** ** [LogQuerier._tokenize] *)

Definition parse_quoted_token (self : LogQuerier) (token : pystr) : pystr :=
  Str.replace (quote_string self) [] (Str.strip token).

(** [parse_quoted_token(token)] when it is not empty, for the final
    comprehension of [_tokenize]. *)
Definition keep_parsed (self : LogQuerier) (token : pystr) : option pystr :=
  match parse_quoted_token self token with
  | [] => None
  | t => Some t
  end.

(** One round of the loop over [operations]; the state is
    [(tokens, current_query)]. *)
Definition tokenize_step (st : list pystr * pystr) (operation : pystr)
  : outcome (list pystr * pystr) :=
  let '(tokens, current_query) := st in
  rbind (Str.split operation current_query) (λ sub_strings,
    let tokens :=
      match head sub_strings with
      | Some ((_ :: _) as first) => tokens ++ [first]
      | _ => tokens
      end in
    let tokens := tokens ++ [operation] in
    Ok (tokens, Str.join operation (tail sub_strings))).

Fixpoint tokenize_loop (st : list pystr * pystr) (operations : list pystr)
  : outcome (list pystr * pystr) :=
  match operations with
  | [] => Ok st
  | operation :: rest =>
      rbind (tokenize_step st operation) (λ st', tokenize_loop st' rest)
  end.

Definition _tokenize (self : LogQuerier) (query : pystr)
  : outcome (list pystr) :=
  let operations := Re.findall (pattern self) query in
  rbind (tokenize_loop ([], query) operations) (λ '(tokens, current_query),
    let tokens :=
      match current_query with
      | [] => tokens
      | _ :: _ => tokens ++ [current_query]
      end in
    Ok (omap (keep_parsed self) tokens)).

(** ** [LogQuerier._evaluate_tokens] *)

(** A run of the recursive evaluator on a bounded call depth: [None] when
    the depth [fuel] is used up. *)
Definition fbind {A B} (m : option (outcome A)) (f : A → option (outcome B))
  : option (outcome B) :=
  match m with
  | Some (Ok a) => f a
  | Some (Raise e) => Some (Raise e)
  | None => None
  end.

Notation "'call' p := m 'in' k" := (fbind m (λ p, k))
  (at level 10, p pattern, m at level 100, k at level 200,
   format "'call'  p  :=  m  'in'  '/' k").

Section evaluate_tokens.
Variables (self : LogQuerier) (tokens : list pystr) (log : pystr)
          (enable_case_insensitive : bool).

(** [token.lower() in log.lower() if enable_case_insensitive
     else token in log] *)
Definition operand_in_log (token : pystr) : bool :=
  if enable_case_insensitive
  then Str.contains (Str.lower token) (Str.lower log)
  else Str.contains token log.

Definition invalid_operation_token (token : pystr) : exn :=
  Exception (str "Invalid operation token " ++ token
             ++ str " encountered when evaluating query").

(** [eval_next], [eval_and] and [eval_or], with the two [while] loops
    as [and_loop] and [or_loop].  [tokens !! pos] is [Some token]
    exactly when [pos < len(tokens)]. *)
Fixpoint eval_next (fuel pos : nat) : option (outcome (bool * nat)) :=
  match fuel with
  | O => None
  | S fuel =>
      match tokens !! pos with
      | Some token =>
          if bool_decide (token = LEFT_PARENTHESIS (operationo_dict self))
          then
            call (result, next_pos) := eval_or fuel (pos + 1) in
            Some (Ok (result, next_pos + 1))
          else if bool_decide (token = NOT (operationo_dict self))
          then
            call (result, next_pos) := eval_next fuel (pos + 1) in
            Some (Ok (negb result, next_pos))
          else if bool_decide (token ∈ INVALID_EVAL_OPERATION_SET)
          then Some (Raise (invalid_operation_token token))
          else Some (Ok (operand_in_log token, pos + 1))
      | None => Some (Ok (false, pos))
      end
  end
with eval_and (fuel pos : nat) : option (outcome (bool * nat)) :=
  match fuel with
  | O => None
  | S fuel =>
      call (result, next_pos) := eval_next fuel pos in
      and_loop fuel result next_pos
  end
with and_loop (fuel : nat) (result : bool) (next_pos : nat)
  : option (outcome (bool * nat)) :=
  match fuel with
  | O => None
  | S fuel =>
      if bool_decide (tokens !! next_pos = Some (AND (operationo_dict self)))
      then
        call (next_result, next_pos) := eval_next fuel (next_pos + 1) in
        and_loop fuel (result && next_result) next_pos
      else Some (Ok (result, next_pos))
  end
with eval_or (fuel pos : nat) : option (outcome (bool * nat)) :=
  match fuel with
  | O => None
  | S fuel =>
      call (result, next_pos) := eval_and fuel pos in
      or_loop fuel result next_pos
  end
with or_loop (fuel : nat) (result : bool) (next_pos : nat)
  : option (outcome (bool * nat)) :=
  match fuel with
  | O => None
  | S fuel =>
      if bool_decide (tokens !! next_pos = Some (OR (operationo_dict self)))
      then
        call (next_result, next_pos) := eval_and fuel (next_pos + 1) in
        or_loop fuel (result || next_result) next_pos
      else Some (Ok (result, next_pos))
  end.

(** A call depth that the evaluator never exceeds from [pos]. *)
Definition depth (pos : nat) : nat := 3 * (length tokens - pos) + 3.

(** [_evaluate_tokens(tokens, log, pos, enable_case_insensitive)]:
    [eval_or(pos)[0]]. *)
Definition _evaluate_tokens (pos : nat) : outcome bool :=
  match eval_or (depth pos) pos with
  | Some (Ok (result, _)) => Ok result
  | Some (Raise e) => Raise e
  | None => Raise RecursionError
  end.

End evaluate_tokens.

(** ** The heap of list objects

    [self.logs], the list built by the comprehension and the slices are
    list objects; a variable holds a location.  Slicing and the
    comprehension allocate a new object, [list.reverse] updates one in
    place.  [evaluations] counts the calls of [_evaluate_tokens]. *)

Record state : Type := {
  heap : gmap loc (list pystr);
  evaluations : nat;
}.

Definition M (A : Type) : Type := state → outcome A * state.

Definition ret {A} (a : A) : M A := λ st, (Ok a, st).

Definition bind {A B} (m : M A) (f : A → M B) : M B :=
  λ st, match m st with
        | (Ok a, st') => f a st'
        | (Raise e, st') => (Raise e, st')
        end.

Definition lift {A} (r : outcome A) : M A := λ st, (r, st).

Notation "'let*' p := m 'in' k" := (bind m (λ p, k))
  (at level 10, p pattern, m at level 100, k at level 200,
   format "'let*'  p  :=  m  'in'  '/' k").

(** The value of the list object at [l]. *)
Definition load (l : loc) : M (list pystr) :=
  λ st, (Ok (default [] (heap st !! l)), st).

(** A new list object holding [v]. *)
Definition alloc (v : list pystr) : M loc :=
  λ st, let l := fresh (dom (heap st)) in
        (Ok l, {| heap := <[l := v]> (heap st);
                  evaluations := evaluations st |}).

(** [l.reverse()] *)
Definition list_reverse (l : loc) : M unit :=
  λ st, (Ok tt, {| heap := alter reverse l (heap st);
                   evaluations := evaluations st |}).

Definition count_evaluation : M unit :=
  λ st, (Ok tt, {| heap := heap st; evaluations := S (evaluations st) |}).

(** ** Slices *)

(** The position that an index of a slice stands for in a list of
    length [len]. *)
Definition slice_index (i : Z) (len : nat) : nat :=
  Z.to_nat (if (i <? 0)%Z then Z.max 0 (i + Z.of_nat len) else Z.min i (Z.of_nat len)).

(** [l[start:]] *)
Definition slice_from {A} (start : Z) (l : list A) : list A :=
  drop (slice_index start (length l)) l.

(** [l[:stop]] *)
Definition slice_to {A} (stop : Z) (l : list A) : list A :=
  take (slice_index stop (length l)) l.

(** ** [LogQuerier.query] *)

(** [[log for log in corpus if self._evaluate_tokens(tokens, log, 0, ci)]] *)
Fixpoint comprehension (self : LogQuerier) (tokens : list pystr)
    (enable_case_insensitive : bool) (corpus : list pystr)
  : M (list pystr) :=
  match corpus with
  | [] => ret []
  | log :: rest =>
      let* _ := count_evaluation in
      let* keep := lift (_evaluate_tokens self tokens log
                     enable_case_insensitive 0) in
      let* kept := comprehension self tokens enable_case_insensitive rest in
      ret (if keep : bool then log :: kept else kept)
  end.

(** [self._tokenize(query) if query else []] *)
Definition query_tokens (self : LogQuerier) (query : pystr)
  : outcome (list pystr) :=
  match query with
  | _ :: _ => _tokenize self query
  | [] => Ok []
  end.

(** [if limit:] for [limit] either [None] or an integer. *)
Definition truthy (limit : option Z) : option Z :=
  match limit with
  | Some z => if bool_decide (z = 0%Z) then None else Some z
  | None => None
  end.

Definition query (self : LogQuerier) (query : pystr) (limit : option Z)
    (ordering : pystr) (enable_case_insensitive : bool) : M loc :=
  let* tokens := lift (query_tokens self query) in
  let* logs :=
    match tokens with
    | _ :: _ =>
        let* corpus := load (logs self) in
        let* matching :=
          comprehension self tokens enable_case_insensitive corpus in
        alloc matching
    | [] => ret (logs self)
    end in
  match truthy limit with
  | Some limit =>
      if bool_decide (ordering = str "asc")
      then
        let* l := load logs in
        alloc (slice_from (- limit) l)
      else
        let* l := load logs in
        let* logs := alloc (slice_to limit l) in
        let* _ := list_reverse logs in
        ret logs
  | None => ret logs
  end.

(** The defaults of the constructor and of [query]. *)
Definition default_querier (logs : loc) : LogQuerier :=
  __init__ logs OPERATION_DICT QUOTE_STRING.

(** A state whose heap holds just the corpus, at location 1. *)
Definition corpus_state (corpus : list pystr) : state :=
  {| heap := {[ 1%positive := corpus ]}; evaluations := 0 |}.

(** What a call returned: the value of the returned list object. *)
Definition returned (r : outcome loc * state) : outcome (list pystr) :=
  match r with
  | (Ok l, st) => Ok (default [] (heap st !! l))
  | (Raise e, _) => Raise e
  end.

(** ** Vocabulary of the properties *)

(** A run came back (with a value or an exception), at [pos] or later,
    and strictly later when there was a token at [pos]. *)
Definition advances (tokens : list pystr) (pos : nat)
    (m : option (outcome (bool * nat))) : Prop :=
  match m with
  | None => False
  | Some (Raise _) => True
  | Some (Ok (_, next_pos)) =>
      pos ≤ next_pos ∧ (pos < length tokens → pos < next_pos)
  end.

Definition comes_back (pos : nat) (m : option (outcome (bool * nat)))
  : Prop :=
  match m with
  | None => False
  | Some (Raise _) => True
  | Some (Ok (_, next_pos)) => pos ≤ next_pos
  end.

(** Two runs end the same way: both used up the depth, both raised the
    same exception, or both returned the same position. *)
Definition same_shape (m1 m2 : option (outcome (bool * nat))) : Prop :=
  match m1, m2 with
  | None, None => True
  | Some (Raise e1), Some (Raise e2) => e1 = e2
  | Some (Ok (_, p1)), Some (Ok (_, p2)) => p1 = p2
  | _, _ => False
  end.

(** None of [lits] matches at a position inside [u], when [u] is followed
    by [w]. *)
Fixpoint no_match (lits : list pystr) (u w : pystr) : bool :=
  match u with
  | [] => true
  | _ :: u' =>
      match Re.first_match lits (u ++ w) with
      | None => no_match lits u' w
      | Some _ => false
      end
  end.

(** None of [lits] occurs in [s]. *)
Definition free_of (lits : list pystr) (s : pystr) : Prop :=
  ∀ l, l ∈ lits → Str.contains l s = false.

(** [self._evaluate_tokens(self._tokenize(query), log, 0, ci)]: the
    evaluation of a query on one line. *)
Definition evaluate_query (self : LogQuerier) (query log : pystr)
    (ci : bool) : outcome bool :=
  rbind (_tokenize self query) (λ tokens,
    _evaluate_tokens self tokens log ci 0).

(** An operand: a text that is its own token, free of the operators. *)
Definition operand (self : LogQuerier) (s : pystr) : Prop :=
  s ≠ [] ∧ parse_quoted_token self s = s
  ∧ free_of (values (operationo_dict self)) s.

(** The operator literals of the default dictionary. *)
Definition default_literals : list pystr :=
  [str "&&"; str "||"; str "!!"; str "(("; str "))"].

(** The second half of [query]: the limit and the ordering, applied to
    the list object [logs]. *)
Definition limit_logs (limit : option Z) (ordering : pystr) (logs : loc)
  : M loc :=
  match truthy limit with
  | Some limit =>
      if bool_decide (ordering = str "asc")
      then
        let* l := load logs in
        alloc (slice_from (- limit) l)
      else
        let* l := load logs in
        let* logs := alloc (slice_to limit l) in
        let* _ := list_reverse logs in
        ret logs
  | None => ret logs
  end.

(** A line matches: every line when there are no tokens, else the lines
    on which the evaluator returns true. *)
Definition line_matches (self : LogQuerier) (query : pystr) (ci : bool)
    (log : pystr) : bool :=
  match query_tokens self query with
  | Ok [] => true
  | Ok tokens => bool_decide (_evaluate_tokens self tokens log ci 0 = Ok true)
  | Raise _ => false
  end.

Definition matching_lines (self : LogQuerier) (query : pystr) (ci : bool)
    (corpus : list pystr) : list pystr :=
  List.filter (line_matches self query ci) corpus.

(** The state after [n] more evaluations. *)
Definition evaluated (n : nat) (st : state) : state :=
  {| heap := heap st; evaluations := evaluations st + n |}.

(** The state after a new list object holding [v] was made. *)
Definition allocated (v : list pystr) (st : state) : state :=
  {| heap := <[fresh (dom (heap st)) := v]> (heap st);
     evaluations := evaluations st |}.

(** The corpus of the documented scenario. *)
Definition scenario : list pystr :=
  [str "error: disk full"; str "info: ok"; str "warn: disk slow";
   str "error: network down"].

(** Words for AND, OR and NOT, single parentheses. *)
Definition WORD_OPERATION_DICT : OperationDict := {|
  AND := str "and";
  OR := str "or";
  NOT := str "not";
  LEFT_PARENTHESIS := str "\(";
  RIGHT_PARENTHESIS := str "\)";
  keys := declared_keys;
|}.

(** The same literal for AND and for NOT. *)
Definition TILDE_OPERATION_DICT : OperationDict := {|
  AND := str "~";
  OR := str "\|\|";
  NOT := str "~";
  LEFT_PARENTHESIS := str "\(\(";
  RIGHT_PARENTHESIS := str "\)\)";
  keys := declared_keys;
|}.

(** One ampersand for AND and two for OR, AND inserted first. *)
Definition AMPERSAND_OPERATION_DICT : OperationDict := {|
  AND := str "\&";
  OR := str "\&\&";
  NOT := str "\!\!";
  LEFT_PARENTHESIS := str "\(\(";
  RIGHT_PARENTHESIS := str "\)\)";
  keys := declared_keys;
|}.

(** The same dictionary, OR inserted first. *)
Definition OR_FIRST_OPERATION_DICT : OperationDict := {|
  AND := str "\&";
  OR := str "\&\&";
  NOT := str "\!\!";
  LEFT_PARENTHESIS := str "\(\(";
  RIGHT_PARENTHESIS := str "\)\)";
  keys := [KEY_OR; KEY_AND; KEY_NOT; KEY_LEFT_PARENTHESIS;
           KEY_RIGHT_PARENTHESIS];
|}.

(** A single space. *)
Abbreviation space := [" "%char].

(** A blank: nothing, or one space. *)
Definition blank (pre : pystr) : Prop := pre = [] ∨ pre = space.

(** The items of a query written with single spaces: each one an operator
    literal of the default dictionary or an operand, no two operands next
    to each other. *)
Fixpoint well_spaced (self : LogQuerier) (items : list pystr) : Prop :=
  match items with
  | [] => True
  | x :: rest =>
      (x ∈ default_literals
       ∨ (operand self x
          ∧ match rest with
            | [] => True
            | y :: _ => y ∈ default_literals
            end))
      ∧ well_spaced self rest
  end.

(** The operator literals among the items. *)
Definition operators_of (items : list pystr) : list pystr :=
  List.filter (λ x, bool_decide (x ∈ default_literals)) items.

(** A token that [eval_next] tests as an operand and that no loop takes
    for an operator. *)
Definition plain (self : LogQuerier) (token : pystr) : Prop :=
  token ≠ LEFT_PARENTHESIS (operationo_dict self)
  ∧ token ≠ NOT (operationo_dict self)
  ∧ (token ∉ INVALID_EVAL_OPERATION_SET)
  ∧ token ≠ AND (operationo_dict self)
  ∧ token ≠ OR (operationo_dict self).

(** The tokens [AND x1 AND x2 ...] that continue a conjunction. *)
Definition and_tail (self : LogQuerier) (g : list pystr) : list pystr :=
  concat (map (λ x, [AND (operationo_dict self); x]) g).

(** The tokens [x0 AND x1 AND ...] of a conjunction of operands. *)
Definition and_tokens (self : LogQuerier) (g : list pystr) : list pystr :=
  match g with
  | [] => []
  | x :: g' => x :: and_tail self g'
  end.

(** The tokens [OR g1 OR g2 ...] that continue a disjunction. *)
Definition or_tail (self : LogQuerier) (gs : list (list pystr))
  : list pystr :=
  concat (map (λ g, OR (operationo_dict self) :: and_tokens self g) gs).

(** The tokens [g0 OR g1 OR ...] of a disjunction of conjunctions. *)
Definition dnf_tokens (self : LogQuerier) (gs : list (list pystr))
  : list pystr :=
  match gs with
  | [] => []
  | g :: gs' => and_tokens self g ++ or_tail self gs'
  end.

(** The conjunctions are not empty and made of plain tokens. *)
Definition plain_groups (self : LogQuerier) (gs : list (list pystr))
  : Prop :=
  Forall (λ g, g ≠ [] ∧ Forall (plain self) g) gs.

(** The value of a disjunction of conjunctions on a line. *)
Definition dnf_value (log : pystr) (ci : bool) (gs : list (list pystr))
  : bool :=
  existsb (forallb (operand_in_log log ci)) gs.

(** The item that follows an operand, if any, is an operator. *)
Definition next_is_operator (rest : list pystr) : Prop :=
  match rest with
  | [] => True
  | y :: _ => y ∈ default_literals
  end.

(** The conjunctions are not empty and made of operands. *)
Definition operand_groups (self : LogQuerier) (gs : list (list pystr))
  : Prop :=
  Forall (λ g, g ≠ [] ∧ Forall (operand self) g) gs.

(** A token that [eval_next] tests as an operand. *)
Definition plain_token (self : LogQuerier) (token : pystr) : Prop :=
  token ≠ LEFT_PARENTHESIS (operationo_dict self)
  ∧ token ≠ NOT (operationo_dict self)
  ∧ token ∉ INVALID_EVAL_OPERATION_SET.

(** ** [python_utils.retry.retry]: the retry decorator

    [func] is the decorated function with its arguments: [func n] is what
    its call number [n] (from 0) does, an exception (an instance of
    [Exception]) or a result.  Delays are values of a type [D];
    [random.uniform] and [calculate_exponential_backoff] on floats are
    taken as they come: [uniform n a b] is the draw made at attempt [n],
    [exponential n ...] the backoff computed at attempt [n].
    [sleeps d] tells whether [time.sleep(d)] returns: it raises on a
    delay that is negative, too large or not a number, and this
    exception, raised in the [except] block, ends the run.  The callbacks
    are pure.  The trace records the calls of [func] and the calls of
    [time.sleep], also the one that raises; logging is left out. *)

Inductive retry_exn (E : Type) : Type :=
  | FuncError (e : E)
  | RetryTriggeredByResult
  | CustomDelayWithoutCallback
  | InvalidDelayMode (mode : pystr)
  | SleepError.
Arguments FuncError {E} e.
Arguments RetryTriggeredByResult {E}.
Arguments CustomDelayWithoutCallback {E}.
Arguments InvalidDelayMode {E} mode.
Arguments SleepError {E}.

Inductive retry_outcome (E R : Type) : Type :=
  | Returned (r : R)
  | ReturnedNone
  | Raised (e : retry_exn E).
Arguments Returned {E R} r.
Arguments ReturnedNone {E R}.
Arguments Raised {E R} e.

Inductive retry_event (D : Type) : Type :=
  | Called (attempt : nat)
  | Slept (d : D).
Arguments Called {D} attempt.
Arguments Slept {D} d.

Record retry_config (E R D : Type) : Type := {
  should_retry_on_exception : option (retry_exn E → bool);
  should_retry_on_result : option (R → bool);
  max_attempts : Z;
  delay_mode : pystr;
  delay : D;
  random_delay_range : option (D * D);
  backoff_factor : D;
  max_backoff_delay : option D;
  jitter : bool;
  custom_delay_callback : option (Z → D);
}.
Arguments should_retry_on_exception {E R D} _.
Arguments should_retry_on_result {E R D} _.
Arguments max_attempts {E R D} _.
Arguments delay_mode {E R D} _.
Arguments delay {E R D} _.
Arguments random_delay_range {E R D} _.
Arguments backoff_factor {E R D} _.
Arguments max_backoff_delay {E R D} _.
Arguments jitter {E R D} _.
Arguments custom_delay_callback {E R D} _.

Section retry.
Context {E R D : Type}.
Variable uniform : nat → D → D → D.
Variable exponential : nat → D → Z → D → option D → bool → D.
Variable sleeps : D → bool.
Variable cfg : retry_config E R D.
Variable func : nat → E + R.

(** The delay before the next attempt, computed in the [except] block
    after the failed attempt number [attempts]. *)
Definition final_delay (attempts : nat) : retry_exn E + D :=
  let base_delay :=
    match random_delay_range cfg with
    | Some (low, high) => uniform attempts low high
    | None => delay cfg
    end in
  if bool_decide (delay_mode cfg = str "normal") then inr base_delay
  else if bool_decide (delay_mode cfg = str "exponential") then
    inr (exponential attempts base_delay (Z.of_nat attempts)
           (backoff_factor cfg) (max_backoff_delay cfg) (jitter cfg))
  else if bool_decide (delay_mode cfg = str "custom") then
    match custom_delay_callback cfg with
    | Some callback => inr (callback (Z.of_nat attempts))
    | None => inl CustomDelayWithoutCallback
    end
  else inl (InvalidDelayMode (delay_mode cfg)).

(** [should_retry_on_exception and not should_retry_on_exception(e)] *)
Definition gives_up (e : retry_exn E) : bool :=
  match should_retry_on_exception cfg with
  | Some should_retry => negb (should_retry e)
  | None => false
  end.

(** [should_retry_on_result and should_retry_on_result(result)] *)
Definition asks_retry (result : R) : bool :=
  match should_retry_on_result cfg with
  | Some should_retry => should_retry result
  | None => false
  end.

(** The [while] loop of [wrapper]; [fuel] bounds the number of rounds. *)
Fixpoint wrapper_loop (fuel attempts : nat) (trace : list (retry_event D))
  : option (retry_outcome E R * list (retry_event D)) :=
  if bool_decide (Z.of_nat attempts < max_attempts cfg)%Z then
    match fuel with
    | O => None
    | S fuel =>
        let attempts := attempts + 1 in
        let trace := trace ++ [Called attempts] in
        let except (e : retry_exn E) :=
          if gives_up e then Some (Raised e, trace)
          else if bool_decide (Z.of_nat attempts < max_attempts cfg)%Z then
            match final_delay attempts with
            | inl error => Some (Raised error, trace)
            | inr final_delay =>
                let trace := trace ++ [Slept final_delay] in
                if sleeps final_delay
                then wrapper_loop fuel attempts trace
                else Some (Raised SleepError, trace)
            end
          else Some (Raised e, trace) in
        match func (attempts - 1) with
        | inr result =>
            if asks_retry result then except RetryTriggeredByResult
            else Some (Returned result, trace)
        | inl e => except (FuncError e)
        end
    end
  else Some (ReturnedNone, trace).

(** The function [wrapper] that replaces the decorated function. *)
Definition wrapper : option (retry_outcome E R * list (retry_event D)) :=
  wrapper_loop (Z.to_nat (max_attempts cfg)) 0 [].

(** The exception caught at the attempt number [attempt], if any. *)
Definition caught (attempt : nat) : option (retry_exn E) :=
  match func (attempt - 1) with
  | inr result =>
      if asks_retry result then Some RetryTriggeredByResult else None
  | inl e => Some (FuncError e)
  end.

(** The attempt number [attempt] fails, and the wrapper calls
    [time.sleep(d)] to go on. *)
Definition retried (attempt : nat) (d : D) : Prop :=
  ∃ e, caught attempt = Some e ∧ gives_up e = false
       ∧ (Z.of_nat attempt < max_attempts cfg)%Z
       ∧ final_delay attempt = inr d.

(** The trace of the attempts after [first] that were retried with the
    delays [delays]. *)
Fixpoint rounds (first : nat) (delays : list D) : list (retry_event D) :=
  match delays with
  | [] => []
  | d :: delays =>
      Called (first + 1) :: Slept d :: rounds (first + 1) delays
  end.

(** Each of the attempts after [first] was retried, with these delays. *)
Fixpoint all_retried (first : nat) (delays : list D) : Prop :=
  match delays with
  | [] => True
  | d :: delays => retried (first + 1) d ∧ all_retried (first + 1) delays
  end.

End retry.

(** ** [python_utils.retry.exponential_backoff]

    [calculate_exponential_backoff] on Python integers, for attempts
    counted from 1 as the function documents them.  The value returned is
    an integer number of seconds, or, with [jitter], the draw
    [random.uniform(0, delay)], kept as the call it is.  With
    [attempt < 1] the power has a negative exponent and the code computes
    on floats (or raises [ZeroDivisionError] for the factor 0): such a
    call is not embedded, and [None] stands for it. *)

Inductive backoff : Type :=
  | Seconds (delay : Z)
  | Jitter (delay : Z).

Definition calculate_exponential_backoff
    (base_delay attempt backoff_factor : Z) (max_delay : option Z)
    (jitter : bool) : option backoff :=
  if bool_decide (attempt < 1)%Z then None
  else
    let delay := (base_delay * backoff_factor ^ (attempt - 1))%Z in
    let delay :=
      match max_delay with
      | Some max_delay => Z.min delay max_delay
      | None => delay
      end in
    Some (if jitter then Jitter delay else Seconds delay).

(** The delay computed before the draw: the value returned without
    jitter, the second argument of the draw with jitter. *)
Definition longest (b : backoff) : Z :=
  match b with
  | Seconds delay | Jitter delay => delay
  end.

(** The cap of [max_backoff_delay] on a delay. *)
Definition capped (max_delay : option Z) (delay : Z) : Z :=
  match max_delay with
  | Some max_delay => Z.min delay max_delay
  | None => delay
  end.

(** ** A decorated function and configurations for the examples

    [flaky] raises the errors 7 and 8 at its first two calls and returns
    5 from then on; the delays are integers, the draw of a range is its
    lower end and the backoff is the integer one. *)

Definition flaky (n : nat) : nat + nat :=
  match n with
  | 0 => inl 7
  | 1 => inl 8
  | _ => inr 5
  end.

Definition lower_end (n : nat) (low high : Z) : Z := low.

(** [time.sleep] on integers: it raises on a negative delay. *)
Definition not_negative (d : Z) : bool := bool_decide (0 ≤ d)%Z.

Definition integer_backoff (n : nat) (base_delay attempt backoff_factor : Z)
    (max_delay : option Z) (jitter : bool) : Z :=
  match calculate_exponential_backoff base_delay attempt backoff_factor
          max_delay jitter with
  | Some b => longest b
  | None => 0
  end.

Definition sample_config
    (on_exception : option (retry_exn nat → bool)) (attempts : Z)
    (mode : pystr) (factor : Z) (cap : option Z)
  : retry_config nat nat Z :=
  {| should_retry_on_exception := on_exception;
     should_retry_on_result := None;
     max_attempts := attempts;
     delay_mode := mode;
     delay := 1%Z;
     random_delay_range := None;
     backoff_factor := factor;
     max_backoff_delay := cap;
     jitter := false;
     custom_delay_callback := None |}.

(** Retry on the error 7 only. *)
Definition only_seven (e : retry_exn nat) : bool :=
  match e with
  | FuncError 7 => true
  | _ => false
  end.

(** The configuration [cfg] with the delay callback [callback]. *)
Definition with_callback {E R D : Type} (cfg : retry_config E R D)
    (callback : Z → D) : retry_config E R D :=
  {| should_retry_on_exception := should_retry_on_exception cfg;
     should_retry_on_result := should_retry_on_result cfg;
     max_attempts := max_attempts cfg;
     delay_mode := delay_mode cfg;
     delay := delay cfg;
     random_delay_range := random_delay_range cfg;
     backoff_factor := backoff_factor cfg;
     max_backoff_delay := max_backoff_delay cfg;
     jitter := jitter cfg;
     custom_delay_callback := Some callback |}.

(** ** [setup.py]: [get_version_info]

    The file is the list of the lines that the iteration over the open
    file yields, or [None] when it cannot be opened or read.  The
    function returns [None] in three ways: the exception of [open] is
    caught, the [IndexError] of [line.split('=')[1]] is caught, or the
    loop ends without a version line; the messages printed are left
    out. *)

Definition double_quote : ascii := ascii_of_nat 34.
Definition single_quote : ascii := ascii_of_nat 39.

(** [s.lstrip(chars)], [s.rstrip(chars)] and [s.strip(chars)] *)
Fixpoint lstrip_chars (chars s : pystr) : pystr :=
  match s with
  | [] => []
  | c :: s' => if bool_decide (c ∈ chars) then lstrip_chars chars s' else s
  end.

Fixpoint rstrip_chars (chars s : pystr) : pystr :=
  match s with
  | [] => []
  | c :: s' =>
      match rstrip_chars chars s' with
      | [] => if bool_decide (c ∈ chars) then [] else [c]
      | r => c :: r
      end
  end.

Definition strip_chars (chars s : pystr) : pystr :=
  rstrip_chars chars (lstrip_chars chars s).

(** [line.strip().startswith('__version__')] *)
Definition version_line (line : pystr) : bool :=
  Str.startswith (str "__version__") (Str.strip line).

(** The [for] loop over the lines. *)
Fixpoint version_scan (lines : list pystr) : option pystr :=
  match lines with
  | [] => None
  | line :: lines =>
      if version_line line then
        match Str.split (str "=") line with
        | Ok (_ :: piece :: _) =>
            Some (strip_chars [single_quote]
                    (strip_chars [double_quote] (Str.strip piece)))
        | _ => None
        end
      else version_scan lines
  end.

Definition get_version_info (file : option (list pystr)) : option pystr :=
  match file with
  | Some lines => version_scan lines
  | None => None
  end.

(** The text [v] neither starts nor ends with the character [c]. *)
Definition ends_free_of (c : ascii) (v : pystr) : Prop :=
  head v ≠ Some c ∧ last v ≠ Some c.

(** The text is made of whitespace. *)
Definition whitespace (w : pystr) : Prop :=
  Forall (λ c, Str.isspace c = true) w.

Example split_ex :
  Str.split (str "&&") (str "a && b && c")
  = Ok [str "a "; str " b "; str " c"].
Proof. reflexivity. Qed.

Example findall_ex :
  Re.findall [str "\&\&"; str "\|\|"] (str "a && b || c &&& d")
  = [str "&&"; str "||"; str "&&"].
Proof. reflexivity. Qed.

Example tokenize_ex :
  _tokenize (__init__ 1%positive OPERATION_DICT QUOTE_STRING)
    (str "a && ((b || !!c)) ")
  = Ok [str "a"; str "&&"; str "(("; str "b"; str "||"; str "!!"; str "c";
        str "))"].
Proof. vm_compute. reflexivity. Qed.

(** The alternatives of the pattern follow the insertion order of the
    dictionary: the same entries, inserted in two orders, give two token
    lists. *)
Example insertion_order_ex :
  _tokenize (__init__ 1%positive AMPERSAND_OPERATION_DICT QUOTE_STRING)
    (str "a&&b")
  = Ok [str "a"; str "&"; str "&"; str "b"]
  ∧ _tokenize (__init__ 1%positive OR_FIRST_OPERATION_DICT QUOTE_STRING)
      (str "a&&b")
    = Ok [str "a"; str "&&"; str "b"].
Proof. split; vm_compute; reflexivity. Qed.

Example scenario_ex :
  let corpus := [str "error: disk full"; str "info: ok";
                 str "warn: disk slow"; str "error: network down"] in
  returned (query (default_querier 1) (str "error || warn") (Some 2%Z)
              (str "desc") false (corpus_state corpus))
  = Ok [str "warn: disk slow"; str "error: disk full"].
Proof. vm_compute. reflexivity. Qed.

(** * Properties *)

(** ** The evaluator always returns *)

Section evaluator_returns.
Variables (self : LogQuerier) (tokens : list pystr) (log : pystr)
          (ci : bool).

Lemma evaluator_depth (n : nat) :
  (∀ p, 3 * (length tokens - p) + 1 ≤ n →
        advances tokens p (eval_next self tokens log ci n p))
  ∧ (∀ p, 3 * (length tokens - p) + 2 ≤ n →
          advances tokens p (eval_and self tokens log ci n p))
  ∧ (∀ r q, 3 * (length tokens - q) + 1 ≤ n →
            comes_back q (and_loop self tokens log ci n r q))
  ∧ (∀ p, 3 * (length tokens - p) + 3 ≤ n →
          advances tokens p (eval_or self tokens log ci n p))
  ∧ (∀ r q, 3 * (length tokens - q) + 1 ≤ n →
            comes_back q (or_loop self tokens log ci n r q)).
Proof.
  induction n as [|n (IHnext & IHand & IHandl & IHor & IHorl)].
  { repeat split; intros; lia. }
  repeat split.
  - intros p Hn. simpl.
    destruct (tokens !! p) as [token|] eqn:Hp.
    + apply lookup_lt_Some in Hp.
      repeat case_bool_decide; simpl; try (split; lia).
      * specialize (IHor (p + 1) ltac:(lia)).
        destruct (eval_or _ _ _ _ _ _) as [[[b np]|e]|]; simpl in *;
          [lia | done | done].
      * specialize (IHnext (p + 1) ltac:(lia)).
        destruct (eval_next _ _ _ _ _ _) as [[[b np]|e]|]; simpl in *;
          [lia | done | done].
    + apply lookup_ge_None in Hp. simpl. lia.
  - intros p Hn. simpl.
    specialize (IHnext p ltac:(lia)).
    destruct (eval_next _ _ _ _ _ _) as [[[b np]|e]|]; simpl in *;
      [| done | done].
    specialize (IHandl b np ltac:(lia)).
    destruct (and_loop _ _ _ _ _ _ _) as [[[b' np']|e]|]; simpl in *;
      [lia | done | done].
  - intros r q Hn. simpl.
    case_bool_decide as Hq; simpl; [| lia].
    apply lookup_lt_Some in Hq.
    specialize (IHnext (q + 1) ltac:(lia)).
    destruct (eval_next _ _ _ _ _ _) as [[[b np]|e]|]; simpl in *;
      [| done | done].
    specialize (IHandl (r && b) np ltac:(lia)).
    destruct (and_loop _ _ _ _ _ _ _) as [[[b' np']|e]|]; simpl in *;
      [lia | done | done].
  - intros p Hn. simpl.
    specialize (IHand p ltac:(lia)).
    destruct (eval_and _ _ _ _ _ _) as [[[b np]|e]|]; simpl in *;
      [| done | done].
    specialize (IHorl b np ltac:(lia)).
    destruct (or_loop _ _ _ _ _ _ _) as [[[b' np']|e]|]; simpl in *;
      [lia | done | done].
  - intros r q Hn. simpl.
    case_bool_decide as Hq; simpl; [| lia].
    apply lookup_lt_Some in Hq.
    specialize (IHand (q + 1) ltac:(lia)).
    destruct (eval_and _ _ _ _ _ _) as [[[b np]|e]|]; simpl in *;
      [| done | done].
    specialize (IHorl (r || b) np ltac:(lia)).
    destruct (or_loop _ _ _ _ _ _ _) as [[[b' np']|e]|]; simpl in *;
      [lia | done | done].
Qed.

(** The call depth [depth pos] is never used up. *)
Lemma eval_or_depth (pos : nat) :
  eval_or self tokens log ci (depth tokens pos) pos ≠ None.
Proof.
  pose proof (evaluator_depth (depth tokens pos)) as (_ & _ & _ & H & _).
  specialize (H pos ltac:(unfold depth; lia)).
  destruct (eval_or _ _ _ _ _ _); done.
Qed.

(** [_evaluate_tokens] is [eval_or(pos)[0]] of a run that came back. *)
Lemma _evaluate_tokens_eval_or (pos : nat) :
  ∃ r, eval_or self tokens log ci (depth tokens pos) pos = Some r
       ∧ _evaluate_tokens self tokens log ci pos
         = rbind r (λ '(result, _), Ok result).
Proof.
  unfold _evaluate_tokens.
  pose proof (eval_or_depth pos) as H.
  destruct (eval_or _ _ _ _ _ _) as [[[b np]|e]|]; [eauto .. | done].
Qed.

(** More depth does not change what a run returns. *)
Lemma evaluator_depth_mono (n : nat) :
  (∀ p r, eval_next self tokens log ci n p = Some r →
          ∀ m, n ≤ m → eval_next self tokens log ci m p = Some r)
  ∧ (∀ p r, eval_and self tokens log ci n p = Some r →
            ∀ m, n ≤ m → eval_and self tokens log ci m p = Some r)
  ∧ (∀ b q r, and_loop self tokens log ci n b q = Some r →
              ∀ m, n ≤ m → and_loop self tokens log ci m b q = Some r)
  ∧ (∀ p r, eval_or self tokens log ci n p = Some r →
            ∀ m, n ≤ m → eval_or self tokens log ci m p = Some r)
  ∧ (∀ b q r, or_loop self tokens log ci n b q = Some r →
              ∀ m, n ≤ m → or_loop self tokens log ci m b q = Some r).
Proof.
  induction n as [|n (IHnext & IHand & IHandl & IHor & IHorl)].
  { repeat split; intros; discriminate. }
  repeat split.
  - intros p r H [|m] Hm; [lia|]. simpl in *.
    destruct (tokens !! p) as [token|]; [| done].
    repeat case_bool_decide; try done.
    + destruct (eval_or _ _ _ _ n _) as [r'|] eqn:E; [| done].
      by rewrite (IHor _ _ E m ltac:(lia)).
    + destruct (eval_next _ _ _ _ n _) as [r'|] eqn:E; [| done].
      by rewrite (IHnext _ _ E m ltac:(lia)).
  - intros p r H [|m] Hm; [lia|]. simpl in *.
    destruct (eval_next _ _ _ _ n _) as [r'|] eqn:E; [| done].
    rewrite (IHnext _ _ E m ltac:(lia)).
    destruct r' as [[b np]|e]; simpl in *; [| done].
    apply IHandl; [done | lia].
  - intros b q r H [|m] Hm; [lia|]. simpl in *.
    case_bool_decide; [| done].
    destruct (eval_next _ _ _ _ n _) as [r'|] eqn:E; [| done].
    rewrite (IHnext _ _ E m ltac:(lia)).
    destruct r' as [[b' np]|e]; simpl in *; [| done].
    apply IHandl; [done | lia].
  - intros p r H [|m] Hm; [lia|]. simpl in *.
    destruct (eval_and _ _ _ _ n _) as [r'|] eqn:E; [| done].
    rewrite (IHand _ _ E m ltac:(lia)).
    destruct r' as [[b np]|e]; simpl in *; [| done].
    apply IHorl; [done | lia].
  - intros b q r H [|m] Hm; [lia|]. simpl in *.
    case_bool_decide; [| done].
    destruct (eval_and _ _ _ _ n _) as [r'|] eqn:E; [| done].
    rewrite (IHand _ _ E m ltac:(lia)).
    destruct r' as [[b' np]|e]; simpl in *; [| done].
    apply IHorl; [done | lia].
Qed.

(** Any run of [eval_or] that came back gives [_evaluate_tokens]. *)
Lemma _evaluate_tokens_any_depth (n pos : nat) r :
  eval_or self tokens log ci n pos = Some r →
  _evaluate_tokens self tokens log ci pos
  = rbind r (λ '(result, _), Ok result).
Proof.
  intros Hn.
  destruct (_evaluate_tokens_eval_or pos) as (r' & Hd & ->).
  pose proof (evaluator_depth_mono n) as (_ & _ & _ & Hor & _).
  pose proof (evaluator_depth_mono (depth tokens pos))
    as (_ & _ & _ & Hor' & _).
  destruct (Nat.le_ge_cases n (depth tokens pos)) as [Hle|Hle].
  - rewrite (Hor _ _ Hn _ Hle) in Hd. by simplify_eq.
  - rewrite (Hor' _ _ Hd _ Hle) in Hn. by simplify_eq.
Qed.

End evaluator_returns.

(** ** Whether a run raises does not depend on the line *)

Section evaluator_shape.
Variables (self : LogQuerier) (tokens : list pystr).

Lemma evaluator_shape (log1 log2 : pystr) (ci1 ci2 : bool) (n : nat) :
  (∀ p, same_shape (eval_next self tokens log1 ci1 n p)
          (eval_next self tokens log2 ci2 n p))
  ∧ (∀ p, same_shape (eval_and self tokens log1 ci1 n p)
            (eval_and self tokens log2 ci2 n p))
  ∧ (∀ b1 b2 q, same_shape (and_loop self tokens log1 ci1 n b1 q)
                  (and_loop self tokens log2 ci2 n b2 q))
  ∧ (∀ p, same_shape (eval_or self tokens log1 ci1 n p)
            (eval_or self tokens log2 ci2 n p))
  ∧ (∀ b1 b2 q, same_shape (or_loop self tokens log1 ci1 n b1 q)
                  (or_loop self tokens log2 ci2 n b2 q)).
Proof.
  induction n as [|n (IHnext & IHand & IHandl & IHor & IHorl)].
  { done. }
  repeat split.
  - intros p. simpl. destruct (tokens !! p) as [token|]; [| done].
    repeat case_bool_decide; try done.
    + specialize (IHor (p + 1)).
      destruct (eval_or _ _ log1 _ _ _) as [[[b1 p1]|e1]|],
               (eval_or _ _ log2 _ _ _) as [[[b2 p2]|e2]|];
        simpl in *; by simplify_eq.
    + specialize (IHnext (p + 1)).
      destruct (eval_next _ _ log1 _ _ _) as [[[b1 p1]|e1]|],
               (eval_next _ _ log2 _ _ _) as [[[b2 p2]|e2]|];
        simpl in *; by simplify_eq.
  - intros p. simpl. specialize (IHnext p).
    destruct (eval_next _ _ log1 _ _ _) as [[[b1 p1]|e1]|],
             (eval_next _ _ log2 _ _ _) as [[[b2 p2]|e2]|];
      simpl in *; simplify_eq; first [done | apply IHandl].
  - intros b1 b2 q. simpl. case_bool_decide; [| done].
    specialize (IHnext (q + 1)).
    destruct (eval_next _ _ log1 _ _ _) as [[[b1' p1]|e1]|],
             (eval_next _ _ log2 _ _ _) as [[[b2' p2]|e2]|];
      simpl in *; simplify_eq; first [done | apply IHandl].
  - intros p. simpl. specialize (IHand p).
    destruct (eval_and _ _ log1 _ _ _) as [[[b1 p1]|e1]|],
             (eval_and _ _ log2 _ _ _) as [[[b2 p2]|e2]|];
      simpl in *; simplify_eq; first [done | apply IHorl].
  - intros b1 b2 q. simpl. case_bool_decide; [| done].
    specialize (IHand (q + 1)).
    destruct (eval_and _ _ log1 _ _ _) as [[[b1' p1]|e1]|],
             (eval_and _ _ log2 _ _ _) as [[[b2' p2]|e2]|];
      simpl in *; simplify_eq; first [done | apply IHorl].
Qed.

(** If the evaluation of one line raises, the evaluation of every line
    raises, with the same exception. *)
Lemma _evaluate_tokens_raise (log1 log2 : pystr) (ci1 ci2 : bool)
    (pos : nat) (e : exn) :
  _evaluate_tokens self tokens log1 ci1 pos = Raise e →
  _evaluate_tokens self tokens log2 ci2 pos = Raise e.
Proof.
  unfold _evaluate_tokens.
  pose proof (evaluator_shape log1 log2 ci1 ci2 (depth tokens pos))
    as (_ & _ & _ & H & _).
  specialize (H pos).
  destruct (eval_or _ _ log1 _ _ _) as [[[b1 p1]|e1]|],
           (eval_or _ _ log2 _ _ _) as [[[b2 p2]|e2]|];
    simpl in *; intros; by simplify_eq.
Qed.

End evaluator_shape.

(** ** The equations of the evaluator *)

Lemma elem_of_INVALID_EVAL_OPERATION_SET (token : pystr) :
  token ∈ INVALID_EVAL_OPERATION_SET
  ↔ token = str "&&" ∨ token = str "||" ∨ token = str "))".
Proof.
  unfold INVALID_EVAL_OPERATION_SET.
  rewrite elem_of_list_to_set. cbn.
  rewrite !elem_of_cons, elem_of_nil. tauto.
Qed.

Section evaluator_equations.
Variables (self : LogQuerier) (tokens : list pystr) (log : pystr)
          (ci : bool).

Lemma eval_next_exhausted (n pos : nat) :
  length tokens ≤ pos →
  eval_next self tokens log ci (S n) pos = Some (Ok (false, pos)).
Proof. intros H. simpl. by rewrite (lookup_ge_None_2 _ _ H). Qed.

Lemma eval_next_operand (n pos : nat) (token : pystr) :
  tokens !! pos = Some token →
  token ≠ LEFT_PARENTHESIS (operationo_dict self) →
  token ≠ NOT (operationo_dict self) →
  token ∉ INVALID_EVAL_OPERATION_SET →
  eval_next self tokens log ci (S n) pos
  = Some (Ok (operand_in_log log ci token, pos + 1)).
Proof.
  intros Hp H1 H2 H3. simpl. rewrite Hp.
  by rewrite !bool_decide_eq_false_2.
Qed.

Lemma eval_next_invalid (n pos : nat) (token : pystr) :
  tokens !! pos = Some token →
  token ≠ LEFT_PARENTHESIS (operationo_dict self) →
  token ≠ NOT (operationo_dict self) →
  token ∈ INVALID_EVAL_OPERATION_SET →
  eval_next self tokens log ci (S n) pos
  = Some (Raise (invalid_operation_token token)).
Proof.
  intros Hp H1 H2 H3. simpl. rewrite Hp.
  rewrite !bool_decide_eq_false_2 by done.
  by rewrite bool_decide_eq_true_2.
Qed.

Lemma eval_next_not (n pos : nat) :
  tokens !! pos = Some (NOT (operationo_dict self)) →
  NOT (operationo_dict self) ≠ LEFT_PARENTHESIS (operationo_dict self) →
  eval_next self tokens log ci (S n) pos
  = call (result, next_pos) := eval_next self tokens log ci n (pos + 1) in
    Some (Ok (negb result, next_pos)).
Proof.
  intros Hp H1. simpl. rewrite Hp.
  rewrite bool_decide_eq_false_2 by done.
  by rewrite bool_decide_eq_true_2.
Qed.

Lemma eval_next_parenthesis (n pos : nat) :
  tokens !! pos = Some (LEFT_PARENTHESIS (operationo_dict self)) →
  eval_next self tokens log ci (S n) pos
  = call (result, next_pos) := eval_or self tokens log ci n (pos + 1) in
    Some (Ok (result, next_pos + 1)).
Proof. intros Hp. simpl. rewrite Hp. by rewrite bool_decide_eq_true_2. Qed.

Lemma and_loop_continue (n : nat) (result : bool) (next_pos : nat) :
  tokens !! next_pos = Some (AND (operationo_dict self)) →
  and_loop self tokens log ci (S n) result next_pos
  = call (next_result, next_pos) :=
      eval_next self tokens log ci n (next_pos + 1) in
    and_loop self tokens log ci n (result && next_result) next_pos.
Proof. intros Hp. simpl. by rewrite bool_decide_eq_true_2. Qed.

Lemma and_loop_exit (n : nat) (result : bool) (next_pos : nat) :
  tokens !! next_pos ≠ Some (AND (operationo_dict self)) →
  and_loop self tokens log ci (S n) result next_pos
  = Some (Ok (result, next_pos)).
Proof. intros Hp. simpl. by rewrite bool_decide_eq_false_2. Qed.

Lemma or_loop_continue (n : nat) (result : bool) (next_pos : nat) :
  tokens !! next_pos = Some (OR (operationo_dict self)) →
  or_loop self tokens log ci (S n) result next_pos
  = call (next_result, next_pos) :=
      eval_and self tokens log ci n (next_pos + 1) in
    or_loop self tokens log ci n (result || next_result) next_pos.
Proof. intros Hp. simpl. by rewrite bool_decide_eq_true_2. Qed.

Lemma or_loop_exit (n : nat) (result : bool) (next_pos : nat) :
  tokens !! next_pos ≠ Some (OR (operationo_dict self)) →
  or_loop self tokens log ci (S n) result next_pos
  = Some (Ok (result, next_pos)).
Proof. intros Hp. simpl. by rewrite bool_decide_eq_false_2. Qed.

Lemma and_loop_exit_token (n : nat) (result : bool) (next_pos : nat)
    (token : pystr) :
  tokens !! next_pos = Some token → token ≠ AND (operationo_dict self) →
  and_loop self tokens log ci (S n) result next_pos
  = Some (Ok (result, next_pos)).
Proof. intros Hp Hne. apply and_loop_exit. congruence. Qed.

Lemma and_loop_exit_end (n : nat) (result : bool) (next_pos : nat) :
  tokens !! next_pos = None →
  and_loop self tokens log ci (S n) result next_pos
  = Some (Ok (result, next_pos)).
Proof. intros Hp. apply and_loop_exit. congruence. Qed.

Lemma or_loop_exit_token (n : nat) (result : bool) (next_pos : nat)
    (token : pystr) :
  tokens !! next_pos = Some token → token ≠ OR (operationo_dict self) →
  or_loop self tokens log ci (S n) result next_pos
  = Some (Ok (result, next_pos)).
Proof. intros Hp Hne. apply or_loop_exit. congruence. Qed.

Lemma or_loop_exit_end (n : nat) (result : bool) (next_pos : nat) :
  tokens !! next_pos = None →
  or_loop self tokens log ci (S n) result next_pos
  = Some (Ok (result, next_pos)).
Proof. intros Hp. apply or_loop_exit. congruence. Qed.

Lemma eval_and_unfold (n pos : nat) :
  eval_and self tokens log ci (S n) pos
  = call (result, next_pos) := eval_next self tokens log ci n pos in
    and_loop self tokens log ci n result next_pos.
Proof. done. Qed.

Lemma eval_or_unfold (n pos : nat) :
  eval_or self tokens log ci (S n) pos
  = call (result, next_pos) := eval_and self tokens log ci n pos in
    or_loop self tokens log ci n result next_pos.
Proof. done. Qed.

End evaluator_equations.

(** ** Facts about the string methods *)

Module StrFacts.
Import Str.

Lemma startswith_app (l w : pystr) : startswith l (l ++ w) = true.
Proof.
  induction l as [|a l IH]; simpl; [done|].
  by rewrite bool_decide_eq_true_2.
Qed.

Lemma startswith_refl (l : pystr) : startswith l l = true.
Proof. rewrite <-(app_nil_r l) at 2. apply startswith_app. Qed.

(** A literal without the character [c] cannot reach over a [c]. *)
Lemma startswith_app_sep (l x : pystr) (c : ascii) (w : pystr) :
  c ∉ l → startswith l (x ++ c :: w) = startswith l x.
Proof.
  revert x. induction l as [|a l IH]; intros x Hc; [by destruct x|].
  apply not_elem_of_cons in Hc as [Hca Hcl].
  destruct x as [|b x]; simpl.
  - by rewrite bool_decide_eq_false_2.
  - by rewrite IH.
Qed.

Lemma contains_refl (l : pystr) : contains l l = true.
Proof. destruct l; simpl; [done|]. by rewrite bool_decide_eq_true_2,
  startswith_refl. Qed.

Lemma contains_nil (s : pystr) : contains [] s = true.
Proof. by destruct s. Qed.

Lemma contains_false_startswith (l s : pystr) :
  contains l s = false → startswith l s = false.
Proof. destruct s; simpl; intros H; by apply orb_false_iff in H as [? _]. Qed.

Lemma contains_false_cons (l : pystr) (c : ascii) (s : pystr) :
  contains l (c :: s) = false → contains l s = false.
Proof. simpl. intros H. by apply orb_false_iff in H as [_ ?]. Qed.

Lemma contains_false_ne (l s : pystr) : contains l s = false → s ≠ l.
Proof. intros H ->. by rewrite contains_refl in H. Qed.

Lemma rstrip_snoc_space (s : pystr) (c : ascii) :
  isspace c = true → rstrip (s ++ [c]) = rstrip s.
Proof.
  intros Hc. induction s as [|a s IH]; simpl; [by rewrite Hc|].
  by rewrite IH.
Qed.

Lemma strip_cons_space (c : ascii) (s : pystr) :
  isspace c = true → strip (c :: s) = strip s.
Proof. intros Hc. unfold strip. simpl. by rewrite Hc. Qed.

Lemma strip_snoc_space (s : pystr) (c : ascii) :
  isspace c = true → strip (s ++ [c]) = strip s.
Proof.
  intros Hc. unfold strip. induction s as [|a s IH].
  - simpl. by rewrite Hc.
  - cbn [lstrip app]. destruct (isspace a); [done|].
    by apply (rstrip_snoc_space (a :: s)).
Qed.

Lemma split_scan_skip (sep x w : pystr) :
  split_scan sep (x ++ w) (length x) = split_scan sep w 0.
Proof. induction x; simpl; done. Qed.

Lemma split_scan_match (c : ascii) (sep w : pystr) :
  split_scan (c :: sep) ((c :: sep) ++ w) 0
  = [] :: split_scan (c :: sep) w 0.
Proof.
  change (split_scan (c :: sep) ((c :: sep) ++ w) 0)
    with (if startswith (c :: sep) ((c :: sep) ++ w)
          then [] :: split_scan (c :: sep) (sep ++ w)
                       (length (c :: sep) - 1)
          else match split_scan (c :: sep) (sep ++ w) 0 with
               | piece :: pieces => (c :: piece) :: pieces
               | [] => [[c]]
               end).
  rewrite startswith_app. simpl. rewrite Nat.sub_0_r.
  by rewrite split_scan_skip.
Qed.

Lemma split_scan_nil (sep : pystr) : split_scan sep [] 0 = [[]].
Proof. done. Qed.

End StrFacts.

(** ** Scanning a text that holds no operator *)

Module ScanFacts.
Import Str Re StrFacts.

Lemma first_match_None (lits : list pystr) (s : pystr) :
  first_match lits s = None ↔ ∀ l, l ∈ lits → startswith l s = false.
Proof.
  unfold first_match. induction lits as [|a lits IH]; simpl.
  - split; [|done]. intros _ l Hl. by apply elem_of_nil in Hl.
  - destruct (startswith a s) eqn:E.
    + split; [done|]. intros H.
      specialize (H a ltac:(left)). congruence.
    + rewrite IH. split.
      * intros H l [->|Hl]%elem_of_cons; auto.
      * intros H l Hl. apply H. by right.
Qed.

Lemma first_match_here (lits : list pystr) (l : pystr) (s : pystr) :
  startswith l s = true → first_match (l :: lits) s = Some l.
Proof. intros H. unfold first_match. simpl. by rewrite H. Qed.

Lemma no_match_app (lits : list pystr) (u1 u2 w : pystr) :
  no_match lits (u1 ++ u2) w
  = no_match lits u1 (u2 ++ w) && no_match lits u2 w.
Proof.
  induction u1 as [|c u1 IH]; [done|].
  cbn [app no_match]. rewrite <-app_assoc.
  destruct (first_match _ _); [done|]. apply IH.
Qed.

Lemma no_match_sublist (lits lits' : list pystr) (u w : pystr) :
  lits' ⊆ lits → no_match lits u w = true → no_match lits' u w = true.
Proof.
  intros Hsub. induction u as [|c u IH]; [done|]. cbn [no_match].
  destruct (first_match lits _) eqn:E; [done|]. intros H.
  rewrite first_match_None in E.
  assert (first_match lits' ((c :: u) ++ w) = None) as ->; [|auto].
  apply first_match_None. intros l Hl. apply E, Hsub, Hl.
Qed.

(** A text free of the default_literals, followed by a character that is in
    none of them. *)
Lemma no_match_free_sep (lits : list pystr) (u : pystr) (c : ascii)
    (w : pystr) :
  free_of lits u → (∀ l, l ∈ lits → c ∉ l) →
  no_match lits u (c :: w) = true.
Proof.
  intros Hfree Hc. induction u as [|a u IH]; [done|]. cbn [no_match].
  assert (first_match lits ((a :: u) ++ c :: w) = None) as ->.
  { apply first_match_None. intros l Hl.
    rewrite startswith_app_sep by auto.
    by apply contains_false_startswith, Hfree. }
  apply IH. intros l Hl. eapply contains_false_cons, Hfree, Hl.
Qed.

(** A text free of the default_literals, at the end. *)
Lemma no_match_free_end (lits : list pystr) (u : pystr) :
  free_of lits u → no_match lits u [] = true.
Proof.
  intros Hfree. induction u as [|a u IH]; [done|]. cbn [no_match].
  assert (first_match lits ((a :: u) ++ []) = None) as ->.
  { apply first_match_None. intros l Hl. rewrite app_nil_r.
    by apply contains_false_startswith, Hfree. }
  apply IH. intros l Hl. eapply contains_false_cons, Hfree, Hl.
Qed.

Lemma findall_scan_skip (lits : list pystr) (x w : pystr) :
  findall_scan lits (x ++ w) (length x) = findall_scan lits w 0.
Proof. induction x; simpl; done. Qed.

Lemma findall_scan_no_match (lits : list pystr) (u w : pystr) :
  no_match lits u w = true →
  findall_scan lits (u ++ w) 0 = findall_scan lits w 0.
Proof.
  induction u as [|c u IH]; [done|]. cbn [no_match].
  destruct (first_match lits ((c :: u) ++ w)) eqn:E; [done|].
  intros H. cbn [app findall_scan]. cbn [app] in E. rewrite E. auto.
Qed.

Lemma findall_scan_match (lits : list pystr) (l w : pystr) :
  l ≠ [] → first_match lits (l ++ w) = Some l →
  findall_scan lits (l ++ w) 0 = l :: findall_scan lits w 0.
Proof.
  intros Hl E. destruct l as [|c l]; [done|].
  cbn [app findall_scan]. cbn [app] in E. rewrite E.
  cbn [length]. rewrite Nat.sub_succ, Nat.sub_0_r.
  by rewrite findall_scan_skip.
Qed.

Lemma findall_scan_end (lits : list pystr) :
  [] ∉ lits → findall_scan lits [] 0 = [].
Proof.
  intros H. simpl.
  destruct (first_match lits []) as [l|] eqn:E; [|done].
  unfold first_match in E. apply find_some in E as [Hl E].
  destruct l; [|done]. by apply list_elem_of_In in Hl.
Qed.

(** Nothing is found in a text free of the default_literals. *)
Lemma findall_scan_free (lits : list pystr) (s : pystr) :
  [] ∉ lits → free_of lits s → findall_scan lits s 0 = [].
Proof.
  intros Hnil H.
  rewrite <-(app_nil_r s), findall_scan_no_match
    by by apply no_match_free_end.
  by apply findall_scan_end.
Qed.

(** The first piece of a split grows over a text without a match. *)
Lemma split_scan_no_match (sep u w piece : pystr) (pieces : list pystr) :
  no_match [sep] u w = true →
  split_scan sep w 0 = piece :: pieces →
  split_scan sep (u ++ w) 0 = (u ++ piece) :: pieces.
Proof.
  intros Hu Hw. induction u as [|c u IH]; [done|].
  cbn [no_match] in Hu.
  destruct (first_match [sep] ((c :: u) ++ w)) eqn:E; [done|].
  rewrite first_match_None in E.
  specialize (E sep ltac:(left)).
  cbn [app split_scan]. cbn [app] in E. rewrite E.
  by rewrite (IH Hu).
Qed.

(** A text without a match is one piece. *)
Lemma split_scan_free (sep u : pystr) :
  no_match [sep] u [] = true → split_scan sep u 0 = [u].
Proof.
  intros H. rewrite <-(app_nil_r u) at 1.
  erewrite split_scan_no_match; [|done|apply split_scan_nil].
  by rewrite app_nil_r.
Qed.

End ScanFacts.

(** ** The tokenizer on operands and operators *)

Module TokenizeFacts.
Import Str Re StrFacts ScanFacts.

Lemma split_scan_nonempty (sep s : pystr) (k : nat) :
  split_scan sep s k ≠ [].
Proof.
  revert k. induction s as [|c s IH]; intros k; [done|]. simpl.
  destruct k; [|done]. destruct (startswith sep (c :: s)); [done|].
  by destruct (split_scan sep s 0).
Qed.

Lemma join_cons_head (sep : pystr) (c : ascii) (piece : pystr)
    (pieces : list pystr) :
  join sep ((c :: piece) :: pieces) = c :: join sep (piece :: pieces).
Proof. by destruct pieces. Qed.

Lemma startswith_drop (l s : pystr) :
  startswith l s = true → s = l ++ drop (length l) s.
Proof.
  revert s. induction l as [|a l IH]; intros [|b s]; simpl; try done.
  intros [Hab Hl]%andb_true_iff.
  apply bool_decide_eq_true in Hab as ->. f_equal. auto.
Qed.

(** Joining the pieces of a split gives the text back. *)
Lemma join_split_scan (sep s : pystr) (k : nat) :
  sep ≠ [] → join sep (split_scan sep s k) = drop k s.
Proof.
  intros Hsep. revert k. induction s as [|c s IH]; intros k.
  { by destruct k. }
  destruct k as [|k]; [|apply IH]. cbn [split_scan drop].
  destruct (startswith sep (c :: s)) eqn:E.
  - pose proof (split_scan_nonempty sep s (length sep - 1)) as Hne.
    pose proof (IH (length sep - 1)) as IH'.
    destruct (split_scan sep s (length sep - 1)) as [|p ps]; [done|].
    change (join sep ([] :: p :: ps)) with (sep ++ join sep (p :: ps)).
    rewrite IH'. pose proof (startswith_drop _ _ E) as Hd.
    destruct sep as [|a sep]; [done|]. simpl in Hd |- *.
    by rewrite Nat.sub_0_r.
  - pose proof (split_scan_nonempty sep s 0) as Hne.
    pose proof (IH 0) as IH'.
    destruct (split_scan sep s 0) as [|p ps]; [done|].
    rewrite join_cons_head, IH'. done.
Qed.

(** One round of the loop: the text [u] before the first occurrence of
    the operation becomes a token (when not empty), then the operation;
    the text after it is what remains. *)
Lemma tokenize_step_first (tokens : list pystr) (u sep w : pystr) :
  sep ≠ [] → no_match [sep] u (sep ++ w) = true →
  tokenize_step (tokens, u ++ sep ++ w) sep
  = Ok (tokens ++ match u with [] => [] | _ => [u] end ++ [sep], w).
Proof.
  intros Hsep Hu. unfold tokenize_step, split.
  destruct sep as [|c sep]; [done|]. cbn [rbind].
  rewrite (split_scan_no_match _ _ _ [] (split_scan (c :: sep) w 0) Hu)
    by apply split_scan_match.
  rewrite app_nil_r. cbn [head tail].
  rewrite join_split_scan by done. cbn [drop].
  destruct u; by rewrite <-?app_assoc.
Qed.

Lemma tokenize_step_here (tokens : list pystr) (sep w : pystr) :
  sep ≠ [] →
  tokenize_step (tokens, sep ++ w) sep = Ok (tokens ++ [sep], w).
Proof. intros Hsep. by apply (tokenize_step_first tokens [] sep w). Qed.

Lemma tokenize_step_text (tokens : list pystr) (u sep w : pystr) :
  u ≠ [] → sep ≠ [] → no_match [sep] u (sep ++ w) = true →
  tokenize_step (tokens, u ++ sep ++ w) sep = Ok (tokens ++ [u; sep], w).
Proof.
  intros Hu Hsep H. rewrite tokenize_step_first by done. by destruct u.
Qed.

Lemma keep_parsed_operand (self : LogQuerier) (s : pystr) :
  operand self s → keep_parsed self s = Some s.
Proof. intros (Hne & Hp & _). unfold keep_parsed. rewrite Hp. by destruct s. Qed.

Lemma keep_parsed_space_l (self : LogQuerier) (c : ascii) (s : pystr) :
  isspace c = true → keep_parsed self (c :: s) = keep_parsed self s.
Proof.
  intros Hc. unfold keep_parsed, parse_quoted_token.
  by rewrite strip_cons_space.
Qed.

Lemma keep_parsed_space_r (self : LogQuerier) (s : pystr) (c : ascii) :
  isspace c = true → keep_parsed self (s ++ [c]) = keep_parsed self s.
Proof.
  intros Hc. unfold keep_parsed, parse_quoted_token.
  by rewrite strip_snoc_space.
Qed.

End TokenizeFacts.

(** ** The default querier on queries built from operands *)

Module DefaultFacts.
Import Str Re StrFacts ScanFacts TokenizeFacts.

Lemma pattern_literals (l : loc) :
  map literal (pattern (default_querier l)) = default_literals.
Proof. reflexivity. Qed.

Lemma operationo_dict_values (l : loc) :
  values (operationo_dict (default_querier l)) = default_literals.
Proof. reflexivity. Qed.

Lemma space_not_in_literals (lit : pystr) :
  lit ∈ default_literals → " "%char ∉ lit.
Proof.
  unfold default_literals. rewrite !elem_of_cons, elem_of_nil.
  intros [-> | [-> | [-> | [-> | [-> | []]]]]]; cbn;
    rewrite !not_elem_of_cons; repeat split; try done; apply not_elem_of_nil.
Qed.

Lemma nil_not_in_literals : [] ∉ default_literals.
Proof.
  unfold default_literals. rewrite !not_elem_of_cons.
  repeat split; try done. apply not_elem_of_nil.
Qed.

Lemma operand_free (l : loc) (s : pystr) :
  operand (default_querier l) s → free_of default_literals s.
Proof. by intros (_ & _ & H). Qed.

Lemma free_of_sublist (lits lits' : list pystr) (s : pystr) :
  lits' ⊆ lits → free_of lits s → free_of lits' s.
Proof. intros Hsub H lit Hl. by apply H, Hsub. Qed.

(** An operand is none of the tokens that [eval_next] treats apart. *)
Lemma operand_plain (l : loc) (s : pystr) :
  operand (default_querier l) s →
  s ≠ LEFT_PARENTHESIS (operationo_dict (default_querier l))
  ∧ s ≠ NOT (operationo_dict (default_querier l))
  ∧ (s ∉ INVALID_EVAL_OPERATION_SET)
  ∧ s ≠ AND (operationo_dict (default_querier l))
  ∧ s ≠ OR (operationo_dict (default_querier l)).
Proof.
  intros (_ & _ & Hfree).
  rewrite operationo_dict_values in Hfree.
  assert (∀ lit, lit ∈ default_literals → s ≠ lit) as Hne.
  { intros lit Hl. by apply contains_false_ne, Hfree. }
  rewrite elem_of_INVALID_EVAL_OPERATION_SET.
  repeat split; try (apply Hne; unfold default_literals; set_solver).
  intros [-> | [-> | ->]]; eapply Hne; try reflexivity;
    unfold default_literals; set_solver.
Qed.

End DefaultFacts.

Module DefaultTokens.
Import Str Re StrFacts ScanFacts TokenizeFacts DefaultFacts.

Section tokens.
Variable l : loc.
Local Abbreviation self := (default_querier l).

Lemma omap_cons {A B} (f : A → option B) (x : A) (xs : list A) :
  omap f (x :: xs)
  = match f x with Some y => y :: omap f xs | None => omap f xs end.
Proof. done. Qed.

Lemma findall_free_end (s : pystr) :
  free_of default_literals s → findall_scan default_literals s 0 = [].
Proof.
  intros H. rewrite <-(app_nil_r s).
  rewrite findall_scan_no_match by by apply no_match_free_end.
  apply findall_scan_end, nil_not_in_literals.
Qed.

Lemma no_match_operand_sep (lits : list pystr) (s w : pystr) :
  lits ⊆ default_literals → free_of default_literals s →
  no_match lits s (" "%char :: w) = true.
Proof.
  intros Hsub H. apply no_match_free_sep.
  - by eapply free_of_sublist.
  - intros lit Hl. by apply space_not_in_literals, Hsub.
Qed.

Lemma no_match_operand_end (lits : list pystr) (s : pystr) :
  lits ⊆ default_literals → free_of default_literals s → no_match lits s [] = true.
Proof.
  intros Hsub H. apply no_match_free_end. by eapply free_of_sublist.
Qed.

(** A query that is one operand. *)
Lemma tokenize_operand (X : pystr) :
  operand self X → _tokenize self X = Ok [X].
Proof.
  intros HX. pose proof (operand_free _ _ HX) as Hfree.
  unfold _tokenize, findall. rewrite pattern_literals.
  rewrite findall_free_end by done. cbn [tokenize_loop rbind].
  pose proof (keep_parsed_operand _ _ HX) as HkX.
  destruct HX as (Hne & _). destruct X as [|c X]; [done|].
  cbn [app]. by rewrite omap_cons, HkX.
Qed.

(** The query [!!!!X]. *)
Lemma tokenize_not_not (X : pystr) :
  operand self X →
  _tokenize self (str "!!!!" ++ X) = Ok [str "!!"; str "!!"; X].
Proof.
  intros HX. pose proof (operand_free _ _ HX) as Hfree.
  unfold _tokenize, findall. rewrite pattern_literals.
  change (str "!!!!" ++ X) with (str "!!" ++ str "!!" ++ X).
  rewrite (findall_scan_match default_literals (str "!!") (str "!!" ++ X))
    by done.
  rewrite (findall_scan_match default_literals (str "!!") X) by done.
  rewrite findall_free_end by done.
  cbn [tokenize_loop rbind].
  rewrite tokenize_step_here by done. cbn [rbind app].
  rewrite tokenize_step_here by done. cbn [rbind app].
  pose proof (keep_parsed_operand _ _ HX) as HkX.
  destruct HX as (Hne & _). destruct X as [|c X]; [done|].
  by rewrite !omap_cons, HkX.
Qed.

(** The query [A && B || C]. *)
Lemma tokenize_and_or (A B C : pystr) :
  operand self A → operand self B → operand self C →
  _tokenize self (A ++ str " && " ++ B ++ str " || " ++ C)
  = Ok [A; str "&&"; B; str "||"; C].
Proof.
  intros HA HB HC.
  pose proof (operand_free _ _ HA) as HfA.
  pose proof (operand_free _ _ HB) as HfB.
  pose proof (operand_free _ _ HC) as HfC.
  pose proof (keep_parsed_operand _ _ HA) as HkA.
  pose proof (keep_parsed_operand _ _ HB) as HkB.
  pose proof (keep_parsed_operand _ _ HC) as HkC.
  set (sp := [" "%char]).
  change (A ++ str " && " ++ B ++ str " || " ++ C)
    with (A ++ sp ++ str "&&" ++ sp ++ B ++ sp ++ str "||" ++ sp ++ C).
  unfold _tokenize, findall. rewrite pattern_literals.
  (* the operators that [re.findall] finds *)
  rewrite (findall_scan_no_match default_literals A)
    by by apply no_match_operand_sep.
  rewrite (findall_scan_no_match default_literals sp) by done.
  rewrite (findall_scan_match default_literals (str "&&")) by done.
  rewrite (findall_scan_no_match default_literals sp) by done.
  rewrite (findall_scan_no_match default_literals B)
    by by apply no_match_operand_sep.
  rewrite (findall_scan_no_match default_literals sp) by done.
  rewrite (findall_scan_match default_literals (str "||")) by done.
  rewrite (findall_scan_no_match default_literals sp) by done.
  rewrite findall_free_end by done.
  (* the loop over them *)
  cbn [tokenize_loop rbind].
  rewrite (app_assoc A sp).
  rewrite tokenize_step_text; [| by destruct A | done |]; last first.
  { rewrite no_match_app. apply andb_true_iff. split; [|done].
    apply no_match_operand_sep; [|done]. unfold default_literals.
    intros lit ->%list_elem_of_singleton. by repeat constructor. }
  cbn [rbind app].
  rewrite (app_assoc B sp), (app_assoc sp (B ++ sp)).
  rewrite tokenize_step_text; [| done | done |]; last first.
  { rewrite !no_match_app. repeat (apply andb_true_iff; split); try done.
    apply no_match_operand_sep; [|done]. unfold default_literals.
    intros lit ->%list_elem_of_singleton. by repeat constructor. }
  subst sp. cbn [rbind app].
  rewrite !omap_cons.
  rewrite keep_parsed_space_r, HkA by done.
  rewrite keep_parsed_space_l, keep_parsed_space_r, HkB by done.
  rewrite keep_parsed_space_l, HkC by done.
  reflexivity.
Qed.

End tokens.

End DefaultTokens.

(** * The specification against the code *)

Ltac eval_step :=
  first
    [ rewrite eval_or_unfold
    | rewrite eval_and_unfold
    | rewrite eval_next_not by done
    | rewrite eval_next_parenthesis by done
    | erewrite eval_next_operand by done
    | rewrite eval_next_exhausted by (simpl; lia)
    | rewrite and_loop_continue by done
    | erewrite and_loop_exit_token by done
    | rewrite and_loop_exit_end by done
    | rewrite or_loop_continue by done
    | erewrite or_loop_exit_token by done
    | rewrite or_loop_exit_end by done ];
  cbn [fbind Nat.add].

Section default_queries.
Import DefaultFacts DefaultTokens.
Variable l : loc.
Local Abbreviation self := (default_querier l).

Lemma evaluate_operand (X log : pystr) (ci : bool) :
  operand self X →
  _evaluate_tokens self [X] log ci 0 = Ok (operand_in_log log ci X).
Proof.
  intros (HLP & HNOT & HINV & HAND & HOR)%operand_plain.
  unfold _evaluate_tokens, depth. cbn [length Nat.sub Nat.mul Nat.add].
  repeat eval_step. done.
Qed.

Lemma evaluate_not_not (X log : pystr) (ci : bool) :
  operand self X →
  _evaluate_tokens self [str "!!"; str "!!"; X] log ci 0
  = Ok (negb (negb (operand_in_log log ci X))).
Proof.
  intros (HLP & HNOT & HINV & HAND & HOR)%operand_plain.
  unfold _evaluate_tokens, depth. cbn [length Nat.sub Nat.mul Nat.add].
  repeat eval_step. done.
Qed.

Lemma evaluate_and_or (A B C log : pystr) (ci : bool) :
  operand self A → operand self B → operand self C →
  _evaluate_tokens self [A; str "&&"; B; str "||"; C] log ci 0
  = Ok (operand_in_log log ci A && operand_in_log log ci B
        || operand_in_log log ci C).
Proof.
  intros (HLPa & HNOTa & HINVa & HANDa & HORa)%operand_plain.
  intros (HLPb & HNOTb & HINVb & HANDb & HORb)%operand_plain.
  intros (HLPc & HNOTc & HINVc & HANDc & HORc)%operand_plain.
  unfold _evaluate_tokens, depth. cbn [length Nat.sub Nat.mul Nat.add].
  repeat eval_step. done.
Qed.

End default_queries.

(** ** Running [query] *)

Module QueryFacts.

Lemma query_unfold (self : LogQuerier) (q : pystr) (limit : option Z)
    (ordering : pystr) (ci : bool) (st : state) :
  query self q limit ordering ci st
  = match query_tokens self q with
    | Raise e => (Raise e, st)
    | Ok [] => limit_logs limit ordering (logs self) st
    | Ok tokens =>
        (let* corpus := load (logs self) in
         let* matching := comprehension self tokens ci corpus in
         let* logs := alloc matching in
         limit_logs limit ordering logs) st
    end.
Proof.
  unfold query, limit_logs, bind, lift, ret.
  destruct (query_tokens self q) as [[|t ts]|e]; [done| |done].
  cbn [load]. unfold load.
  destruct (comprehension _ _ _ _ _) as [[m|e] st']; done.
Qed.

Lemma evaluated_0 (st : state) : evaluated 0 st = st.
Proof. destruct st. unfold evaluated. simpl. f_equal. lia. Qed.

Lemma evaluated_S (n : nat) (st : state) :
  evaluated n {| heap := heap st; evaluations := S (evaluations st) |}
  = evaluated (S n) st.
Proof. unfold evaluated. simpl. f_equal. lia. Qed.

(** The comprehension keeps the lines on which the evaluator returns
    true, when it raises on none. *)
Lemma comprehension_filter (self : LogQuerier) (tokens : list pystr)
    (ci : bool) (f : pystr → bool) (corpus : list pystr) (st : state) :
  (∀ log, log ∈ corpus → _evaluate_tokens self tokens log ci 0 = Ok (f log)) →
  comprehension self tokens ci corpus st
  = (Ok (List.filter f corpus), evaluated (length corpus) st).
Proof.
  revert st. induction corpus as [|log rest IH]; intros st H.
  { simpl. unfold ret. by rewrite evaluated_0. }
  cbn [comprehension]. unfold bind at 1. unfold count_evaluation.
  unfold bind at 1. unfold lift. rewrite H by left.
  unfold bind at 1. rewrite IH by (intros; apply H; by right).
  unfold ret. cbn [List.filter length]. rewrite evaluated_S.
  by destruct (f log).
Qed.

(** The comprehension never touches the heap. *)
Lemma comprehension_heap (self : LogQuerier) (tokens : list pystr)
    (ci : bool) (corpus : list pystr) (st : state) :
  heap (comprehension self tokens ci corpus st).2 = heap st.
Proof.
  revert st. induction corpus as [|log rest IH]; intros st; [done|].
  cbn [comprehension]. unfold bind at 1. unfold count_evaluation.
  unfold bind at 1. unfold lift.
  destruct (_evaluate_tokens _ _ _ _ _) as [keep|e]; [|done].
  unfold bind at 1.
  specialize (IH {| heap := heap st; evaluations := S (evaluations st) |}).
  destruct (comprehension _ _ _ _ _) as [[kept|e] st']; done.
Qed.

Lemma slice_from_neg {A} (limit : Z) (m : list A) :
  (0 < limit)%Z →
  slice_from (- limit) m = drop (length m - Z.to_nat limit) m.
Proof.
  intros H. unfold slice_from, slice_index.
  destruct (Z.ltb_spec (- limit) 0); [|lia]. f_equal. lia.
Qed.

Lemma slice_to_pos {A} (limit : Z) (m : list A) :
  (0 < limit)%Z → slice_to limit m = take (Z.to_nat limit) m.
Proof.
  intros H. unfold slice_to, slice_index.
  destruct (Z.ltb_spec limit 0); [lia|].
  destruct (Z.le_ge_cases limit (Z.of_nat (length m))).
  - f_equal. lia.
  - rewrite !take_ge; [done|lia|lia].
Qed.

Lemma limit_logs_none (ordering : pystr) (lg : loc) (st : state) :
  limit_logs None ordering lg st = (Ok lg, st).
Proof. done. Qed.

Lemma limit_logs_asc (z : Z) (lg : loc) (st : state) (m : list pystr) :
  z ≠ 0%Z → heap st !! lg = Some m →
  limit_logs (Some z) (str "asc") lg st
  = (Ok (fresh (dom (heap st))), allocated (slice_from (- z) m) st).
Proof.
  intros Hz Hm. unfold limit_logs, truthy.
  rewrite bool_decide_eq_false_2 by done.
  rewrite bool_decide_eq_true_2 by done.
  unfold bind, load, alloc. by rewrite Hm.
Qed.

Lemma limit_logs_desc (z : Z) (ordering : pystr) (lg : loc) (st : state)
    (m : list pystr) :
  z ≠ 0%Z → ordering ≠ str "asc" → heap st !! lg = Some m →
  limit_logs (Some z) ordering lg st
  = (Ok (fresh (dom (heap st))), allocated (reverse (slice_to z m)) st).
Proof.
  intros Hz Hord Hm. unfold limit_logs, truthy.
  rewrite !bool_decide_eq_false_2 by done.
  unfold bind, load, alloc, list_reverse, ret, allocated. rewrite Hm.
  cbn [heap evaluations default]. by rewrite alter_insert_eq.
Qed.

Lemma returned_allocated (v : list pystr) (st : state) :
  returned (Ok (fresh (dom (heap st))), allocated v st) = Ok v.
Proof. unfold returned, allocated. simpl. by rewrite lookup_insert_eq. Qed.

(** A new list object leaves the ones that exist as they are. *)
Lemma allocated_lookup (v w : list pystr) (st : state) (l : loc) :
  heap st !! l = Some v → heap (allocated w st) !! l = Some v.
Proof.
  intros H. unfold allocated. simpl. rewrite lookup_insert_ne; [done|].
  intros <-. apply (is_fresh (dom (heap st))), elem_of_dom. eauto.
Qed.

(** [limit_logs] leaves the list objects that exist as they are. *)
Lemma limit_logs_lookup (limit : option Z) (ordering : pystr) (lg : loc)
    (st : state) (l : loc) (v : list pystr) :
  heap st !! l = Some v →
  heap (limit_logs limit ordering lg st).2 !! l = Some v.
Proof.
  intros H. unfold limit_logs.
  destruct (truthy limit) as [z|]; [|done].
  case_bool_decide.
  - unfold bind, load, alloc. cbn [snd heap].
    by apply (allocated_lookup _ _ st).
  - unfold bind, load, alloc, list_reverse, ret. cbn [snd heap].
    rewrite alter_insert_eq. by apply (allocated_lookup _ _ st).
Qed.

End QueryFacts.

(** ** The facade: selection, limit and ordering *)

Module SelectFacts.
Import QueryFacts.

Lemma filter_none {A} (f : A → bool) (xs : list A) :
  (∀ x, f x = false) → List.filter f xs = [].
Proof. intros H. induction xs as [|x xs IH]; simpl; [done|]. by rewrite H. Qed.

Lemma filter_all {A} (f : A → bool) (xs : list A) :
  (∀ x, f x = true) → List.filter f xs = xs.
Proof.
  intros H. induction xs as [|x xs IH]; simpl; [done|]. by rewrite H, IH.
Qed.

(** With at least one matching line, the first half of [query] ends
    with a list object that holds the matching lines. *)
Lemma query_selects (self : LogQuerier) (q : pystr) (ci : bool)
    (corpus : list pystr) (st : state) :
  heap st !! logs self = Some corpus →
  matching_lines self q ci corpus ≠ [] →
  ∃ lg st1,
    (∀ limit ordering,
       query self q limit ordering ci st = limit_logs limit ordering lg st1)
    ∧ heap st1 !! lg = Some (matching_lines self q ci corpus).
Proof.
  intros Hcorpus Hm. unfold matching_lines in *.
  destruct (query_tokens self q) as [[|t ts]|e] eqn:Etok.
  - exists (logs self), st. split.
    + intros. by rewrite query_unfold, Etok.
    + rewrite filter_all; [done|]. intros. unfold line_matches.
      by rewrite Etok.
  - assert (∀ log, log ∈ corpus →
              _evaluate_tokens self (t :: ts) log ci 0
              = Ok (line_matches self q ci log)) as Heval.
    { destruct (List.filter _ corpus) as [|log0 m] eqn:Ef; [done|].
      assert (In log0 (List.filter (line_matches self q ci) corpus))
        as [_ H0]%filter_In by (rewrite Ef; by left).
      unfold line_matches in H0 |- *. rewrite Etok in H0 |- *.
      apply bool_decide_eq_true in H0.
      intros log _.
      destruct (_evaluate_tokens self (t :: ts) log ci 0) as [b|e] eqn:E.
      - by destruct b.
      - apply (_evaluate_tokens_raise _ _ _ log0 _ ci) in E. congruence. }
    eexists _, _. split.
    + intros. rewrite query_unfold, Etok.
      unfold bind at 1. unfold load at 1. rewrite Hcorpus. cbn [default].
      unfold bind at 1. rewrite (comprehension_filter _ _ _ _ _ _ Heval).
      unfold bind at 1. unfold alloc at 1. reflexivity.
    + cbn [heap]. apply lookup_insert_eq.
  - exfalso. apply Hm, filter_none. intros. unfold line_matches.
    by rewrite Etok.
Qed.

End SelectFacts.

(** C1: with at least one matching line and a positive limit, ordering
    'asc' returns the last [limit] matching lines in corpus order, ordering
    'desc' the first [limit] matching lines reversed, and no limit all the
    matching lines in corpus order. *)
Theorem C1_limit_and_ordering (self : LogQuerier) (q : pystr) (ci : bool)
    (corpus : list pystr) (st : state) (limit : Z) :
  heap st !! logs self = Some corpus →
  matching_lines self q ci corpus ≠ [] →
  (0 < limit)%Z →
  let m := matching_lines self q ci corpus in
  returned (query self q (Some limit) (str "asc") ci st)
  = Ok (drop (length m - Z.to_nat limit) m)
  ∧ returned (query self q (Some limit) (str "desc") ci st)
    = Ok (reverse (take (Z.to_nat limit) m))
  ∧ ∀ ordering, returned (query self q None ordering ci st) = Ok m.
Proof.
  intros Hcorpus Hm Hlimit m.
  destruct (SelectFacts.query_selects self q ci corpus st Hcorpus Hm)
    as (lg & st1 & Hq & Hlg).
  fold m in Hlg. repeat split.
  - rewrite Hq, (QueryFacts.limit_logs_asc _ _ _ m) by (done || lia).
    by rewrite QueryFacts.returned_allocated, QueryFacts.slice_from_neg.
  - rewrite Hq, (QueryFacts.limit_logs_desc _ _ _ _ m) by (done || lia).
    by rewrite QueryFacts.returned_allocated, QueryFacts.slice_to_pos.
  - intros ordering. rewrite Hq, QueryFacts.limit_logs_none.
    unfold returned. by rewrite Hlg.
Qed.

Lemma C1_limit_and_ordering_witness :
  let self := default_querier 1 in
  let q := str "error || warn" in
  let st := corpus_state scenario in
  let m := matching_lines self q false scenario in
  returned (query self q (Some 2%Z) (str "asc") false st)
  = Ok (drop (length m - Z.to_nat 2) m)
  ∧ returned (query self q (Some 2%Z) (str "desc") false st)
    = Ok (reverse (take (Z.to_nat 2) m))
  ∧ ∀ ordering, returned (query self q None ordering false st) = Ok m.
Proof.
  apply (C1_limit_and_ordering (default_querier 1) (str "error || warn")
           false scenario (corpus_state scenario) 2).
  - reflexivity.
  - vm_compute. discriminate.
  - reflexivity.
Defined.

(** C5: the empty query string returns the stored list object itself, so
    the full corpus in its order, and leaves the state as it is: no list
    object is made and [_evaluate_tokens] is not called. *)
Theorem C5_empty_query (self : LogQuerier) (ordering : pystr) (ci : bool)
    (st : state) :
  query self [] None ordering ci st = (Ok (logs self), st)
  ∧ returned (query self [] None ordering ci st)
    = Ok (default [] (heap st !! logs self))
  ∧ evaluations (query self [] None ordering ci st).2 = evaluations st.
Proof. done. Qed.

(** C8: [query] leaves the stored corpus as it is, whatever the query,
    the limit, the ordering and the case flag, and also when it raises;
    so does every list object that existed before the call. *)
Theorem C8_corpus_unchanged (self : LogQuerier) (q : pystr)
    (limit : option Z) (ordering : pystr) (ci : bool) (st : state)
    (corpus : list pystr) :
  heap st !! logs self = Some corpus →
  heap (query self q limit ordering ci st).2 !! logs self = Some corpus
  ∧ ∀ l v, heap st !! l = Some v →
           heap (query self q limit ordering ci st).2 !! l = Some v.
Proof.
  intros Hcorpus.
  assert (∀ l v, heap st !! l = Some v →
            heap (query self q limit ordering ci st).2 !! l = Some v) as H.
  { intros l v Hl. rewrite QueryFacts.query_unfold.
    destruct (query_tokens self q) as [[|t ts]|e]; [..|done].
    - by apply QueryFacts.limit_logs_lookup.
    - unfold bind at 1. unfold load at 1.
      unfold bind at 1.
      pose proof (QueryFacts.comprehension_heap self (t :: ts) ci
                    (default [] (heap st !! logs self)) st) as Hheap.
      destruct (comprehension _ _ _ _ _) as [[m|e] st1]; simpl in Hheap.
      + unfold bind at 1. unfold alloc at 1.
        apply QueryFacts.limit_logs_lookup.
        apply (QueryFacts.allocated_lookup _ _ st1). by rewrite Hheap.
      + simpl. by rewrite Hheap. }
  split; [by apply H | done].
Qed.

Lemma C8_corpus_unchanged_witness :
  let self := default_querier 1 in
  let st := corpus_state scenario in
  let st' := (query self (str "error || warn") (Some 2%Z) (str "desc")
                false st).2 in
  heap st' !! logs self = Some scenario
  ∧ ∀ l v, heap st !! l = Some v → heap st' !! l = Some v.
Proof.
  apply (C8_corpus_unchanged (default_querier 1) (str "error || warn")
           (Some 2%Z) (str "desc") false (corpus_state scenario) scenario).
  reflexivity.
Defined.

(** C9: a query string that is not empty but has no tokens is answered as
    the empty query string is: the stored list object, so the full corpus
    in its order, with no evaluation. *)
Theorem C9_no_tokens (self : LogQuerier) (q : pystr) (limit : option Z)
    (ordering : pystr) (ci : bool) (st : state) :
  q ≠ [] → _tokenize self q = Ok [] →
  query self q limit ordering ci st = query self [] limit ordering ci st
  ∧ query self q None ordering ci st = (Ok (logs self), st).
Proof.
  intros Hq Htok. rewrite !QueryFacts.query_unfold.
  destruct q as [|c q]; [done|]. cbn [query_tokens]. by rewrite Htok.
Qed.

Lemma C9_no_tokens_witness :
  let self := default_querier 1 in
  let q := str "   " in
  let st := corpus_state scenario in
  query self q (Some 2%Z) (str "desc") false st
  = query self [] (Some 2%Z) (str "desc") false st
  ∧ query self q None (str "desc") false st = (Ok (logs self), st).
Proof.
  apply (C9_no_tokens (default_querier 1) (str "   ") (Some 2%Z)
           (str "desc") false (corpus_state scenario)).
  - discriminate.
  - reflexivity.
Defined.

Example tokenize_quotes_only :
  _tokenize (default_querier 1) (QUOTE_STRING ++ QUOTE_STRING) = Ok [].
Proof. reflexivity. Qed.

Example tokenize_spaces_only :
  _tokenize (default_querier 1) (str "    ") = Ok [].
Proof. reflexivity. Qed.

Module OperandFacts.
Import Str StrFacts.

(** A test of [operand] that computes. *)
Lemma operand_intro (self : LogQuerier) (s : pystr) :
  s ≠ [] → parse_quoted_token self s = s →
  forallb (λ lit, negb (contains lit s)) (values (operationo_dict self))
  = true →
  operand self s.
Proof.
  intros Hne Hp Hf. repeat split; [done..|].
  intros lit Hl. rewrite forallb_forall in Hf.
  apply negb_true_iff, Hf. by apply list_elem_of_In.
Qed.

Lemma limit_logs_nil (limit : option Z) (ordering : pystr) (lg : loc)
    (st : state) :
  heap st !! lg = Some [] →
  returned (limit_logs limit ordering lg st) = Ok [].
Proof.
  intros Hlg. destruct (truthy limit) as [z|] eqn:Ez.
  - destruct limit as [z'|]; [|done]. unfold truthy in Ez.
    case_bool_decide; [done|]. simplify_eq.
    destruct (decide (ordering = str "asc")) as [->|Hord].
    + rewrite (QueryFacts.limit_logs_asc _ _ _ []) by done.
      rewrite QueryFacts.returned_allocated.
      unfold slice_from. by rewrite drop_nil.
    + rewrite (QueryFacts.limit_logs_desc _ _ _ _ []) by done.
      rewrite QueryFacts.returned_allocated.
      unfold slice_to. by rewrite take_nil.
  - unfold limit_logs. rewrite Ez. unfold ret, returned. by rewrite Hlg.
Qed.

End OperandFacts.

(** C3: a term expected at or beyond the end of the tokens is false, at
    the same position, with no exception; so the query [a &&] is false on
    every line ([a] AND false), and [query] returns the empty list. *)
Theorem C3_exhausted_tokens (self : LogQuerier) (tokens : list pystr)
    (log : pystr) (ci : bool) (fuel pos : nat) (l : loc) (limit : option Z)
    (ordering : pystr) (corpus : list pystr) (st : state) :
  length tokens ≤ pos →
  heap st !! l = Some corpus →
  eval_next self tokens log ci (S fuel) pos = Some (Ok (false, pos))
  ∧ evaluate_query (default_querier l) (str "a &&") log ci
    = Ok (operand_in_log log ci (str "a") && false)
  ∧ evaluate_query (default_querier l) (str "a &&") log ci = Ok false
  ∧ returned (query (default_querier l) (str "a &&") limit ordering ci st)
    = Ok [].
Proof.
  intros Hpos Hcorpus.
  assert (∀ line, _evaluate_tokens (default_querier l) [str "a"; str "&&"]
                    line ci 0
                  = Ok (operand_in_log line ci (str "a") && false)) as Heval.
  { intros line.
    assert (operand (default_querier l) (str "a")) as Ha
      by by apply OperandFacts.operand_intro.
    apply DefaultFacts.operand_plain in Ha
      as (HLP & HNOT & HINV & HAND & HOR).
    unfold _evaluate_tokens, depth. cbn [length Nat.sub Nat.mul Nat.add].
    repeat eval_step. done. }
  assert (_tokenize (default_querier l) (str "a &&")
          = Ok [str "a"; str "&&"]) as Htok by reflexivity.
  split; [by apply eval_next_exhausted|].
  split; [unfold evaluate_query; rewrite Htok; apply Heval|].
  split.
  { unfold evaluate_query. rewrite Htok. cbn [rbind].
    by rewrite Heval, andb_false_r. }
  rewrite QueryFacts.query_unfold.
  change (query_tokens (default_querier l) (str "a &&"))
    with (_tokenize (default_querier l) (str "a &&")).
  rewrite Htok.
  unfold bind at 1. unfold load at 1.
  change (logs (default_querier l)) with l. rewrite Hcorpus. cbn [default].
  unfold bind at 1.
  rewrite (QueryFacts.comprehension_filter _ _ _ (λ _, false)); last first.
  { intros line _. by rewrite Heval, andb_false_r. }
  rewrite SelectFacts.filter_none by done.
  unfold bind at 1. unfold alloc at 1.
  apply OperandFacts.limit_logs_nil. cbn [heap]. apply lookup_insert_eq.
Qed.

Lemma C3_exhausted_tokens_witness :
  eval_next (default_querier 1) [str "a"; str "&&"] (str "a line") false
    5 2 = Some (Ok (false, 2))
  ∧ evaluate_query (default_querier 1) (str "a &&") (str "a line") false
    = Ok (operand_in_log (str "a line") false (str "a") && false)
  ∧ evaluate_query (default_querier 1) (str "a &&") (str "a line") false
    = Ok false
  ∧ returned (query (default_querier 1) (str "a &&") (Some 2%Z) (str "asc")
                false (corpus_state scenario))
    = Ok [].
Proof.
  apply (C3_exhausted_tokens (default_querier 1) [str "a"; str "&&"]
           (str "a line") false 4 2 1%positive (Some 2%Z) (str "asc")
           scenario (corpus_state scenario)).
  - simpl. repeat constructor.
  - reflexivity.
Defined.

(** C6: on operands [A], [B], [C], the query [A && B || C] is
    (A in line and B in line) or (C in line): AND binds tighter than OR.
    This is not A and (B or C): on the operands a, b, c and the line c
    the query is true. *)
Theorem C6_and_before_or (l : loc) (A B C log : pystr) (ci : bool) :
  operand (default_querier l) A →
  operand (default_querier l) B →
  operand (default_querier l) C →
  evaluate_query (default_querier l)
    (A ++ str " && " ++ B ++ str " || " ++ C) log ci
  = Ok (operand_in_log log ci A && operand_in_log log ci B
        || operand_in_log log ci C)
  ∧ evaluate_query (default_querier l) (str "a && b || c") (str "c") ci
    ≠ Ok (operand_in_log (str "c") ci (str "a")
          && (operand_in_log (str "c") ci (str "b")
              || operand_in_log (str "c") ci (str "c"))).
Proof.
  intros HA HB HC. split.
  - unfold evaluate_query.
    rewrite DefaultTokens.tokenize_and_or by done. cbn [rbind].
    by apply evaluate_and_or.
  - by destruct ci.
Qed.

Lemma C6_and_before_or_witness :
  evaluate_query (default_querier 1)
    (str "disk" ++ str " && " ++ str "full" ++ str " || " ++ str "warn")
    (str "warn: disk slow") false
  = Ok (operand_in_log (str "warn: disk slow") false (str "disk")
        && operand_in_log (str "warn: disk slow") false (str "full")
        || operand_in_log (str "warn: disk slow") false (str "warn"))
  ∧ evaluate_query (default_querier 1) (str "a && b || c") (str "c") false
    ≠ Ok (operand_in_log (str "c") false (str "a")
          && (operand_in_log (str "c") false (str "b")
              || operand_in_log (str "c") false (str "c"))).
Proof.
  apply (C6_and_before_or 1%positive (str "disk") (str "full") (str "warn")
           (str "warn: disk slow") false);
    apply OperandFacts.operand_intro; (discriminate || reflexivity).
Defined.

(** C7: on an operand [X], the query [!!!!X] gives what the query [X]
    gives, the containment test of [X]: double negation is the identity. *)
Theorem C7_double_negation (l : loc) (X log : pystr) (ci : bool) :
  operand (default_querier l) X →
  evaluate_query (default_querier l) (str "!!!!" ++ X) log ci
  = evaluate_query (default_querier l) X log ci
  ∧ evaluate_query (default_querier l) X log ci
    = Ok (operand_in_log log ci X).
Proof.
  intros HX. unfold evaluate_query.
  rewrite DefaultTokens.tokenize_not_not, DefaultTokens.tokenize_operand
    by done.
  cbn [rbind]. rewrite evaluate_not_not, evaluate_operand by done.
  by rewrite negb_involutive.
Qed.

Lemma C7_double_negation_witness :
  evaluate_query (default_querier 1) (str "!!!!" ++ str "error")
    (str "error: disk full") true
  = evaluate_query (default_querier 1) (str "error")
      (str "error: disk full") true
  ∧ evaluate_query (default_querier 1) (str "error")
      (str "error: disk full") true
    = Ok (operand_in_log (str "error: disk full") true (str "error")).
Proof.
  apply (C7_double_negation 1%positive (str "error")
           (str "error: disk full") true).
  apply OperandFacts.operand_intro; (discriminate || reflexivity).
Defined.

(** ** Operator dictionaries other than the default *)

(** With the default dictionary, AND, OR and the right parenthesis raise
    where a term is expected. *)
Lemma default_invalid_token_raises (l : loc) (tokens : list pystr)
    (log : pystr) (ci : bool) (fuel pos : nat) (token : pystr) :
  tokens !! pos = Some token →
  token ∈ [AND (operationo_dict (default_querier l));
           OR (operationo_dict (default_querier l));
           RIGHT_PARENTHESIS (operationo_dict (default_querier l))] →
  eval_next (default_querier l) tokens log ci (S fuel) pos
  = Some (Raise (invalid_operation_token token)).
Proof.
  intros Hp Hin. apply eval_next_invalid; [done|..].
  - revert Hin. rewrite !elem_of_cons, elem_of_nil.
    by intros [-> | [-> | [-> | []]]].
  - revert Hin. rewrite !elem_of_cons, elem_of_nil.
    by intros [-> | [-> | [-> | []]]].
  - apply elem_of_INVALID_EVAL_OPERATION_SET.
    revert Hin. rewrite !elem_of_cons, elem_of_nil.
    intros [-> | [-> | [-> | []]]]; auto.
Qed.

(** With the default dictionary, the query [&& a] raises on every line. *)
Lemma default_leading_and_raises (l : loc) (log : pystr) (ci : bool) :
  evaluate_query (default_querier l) (str "&& a") log ci
  = Raise (invalid_operation_token (str "&&")).
Proof.
  unfold evaluate_query.
  change (_tokenize (default_querier l) (str "&& a"))
    with (Ok (A:=list pystr) [str "&&"; str "a"]).
  cbn [rbind]. unfold _evaluate_tokens, depth.
  cbn [length Nat.sub Nat.mul Nat.add].
  rewrite eval_or_unfold, eval_and_unfold.
  erewrite default_invalid_token_raises; [done | done | repeat constructor].
Qed.

(** C2: the configured AND literal is not always rejected where a term
    is expected.  With the dictionary [WORD_OPERATION_DICT] the query
    [and a] has the tokens [and], [a]; [eval_next] at the AND literal
    [and] does not raise, it tests [and] as an operand, and the query
    evaluates to that test. *)
Theorem C2_configured_literal_not_rejected (log : pystr) (ci : bool)
    (fuel : nat) :
  let self := __init__ 1 WORD_OPERATION_DICT QUOTE_STRING in
  AND (operationo_dict self) = str "and"
  ∧ _tokenize self (str "and a") = Ok [str "and"; str "a"]
  ∧ eval_next self [str "and"; str "a"] log ci (S fuel) 0
    = Some (Ok (operand_in_log log ci (str "and"), 1))
  ∧ evaluate_query self (str "and a") log ci
    = Ok (operand_in_log log ci (str "and")).
Proof.
  intros self.
  assert (str "and" ∉ INVALID_EVAL_OPERATION_SET) as Hinv.
  { rewrite elem_of_INVALID_EVAL_OPERATION_SET. by intros [|[|]]. }
  assert (_tokenize self (str "and a") = Ok [str "and"; str "a"]) as Htok
    by reflexivity.
  split; [done|]. split; [done|]. split.
  - by erewrite eval_next_operand.
  - unfold evaluate_query. rewrite Htok. cbn [rbind].
    unfold _evaluate_tokens, depth. cbn [length Nat.sub Nat.mul Nat.add].
    repeat eval_step. done.
Qed.

(** C10, as stated, fails: with [TILDE_OPERATION_DICT] the AND literal is
    none of the three fixed tokens, yet where a term is expected it is not
    tested as an operand: it is the NOT literal too, and [eval_next] takes
    it for NOT. *)
Lemma C10_counterexample :
  let self := __init__ 1 TILDE_OPERATION_DICT QUOTE_STRING in
  let lit := AND (operationo_dict self) in
  let tokens := [lit; str "x"] in
  (lit ∉ INVALID_EVAL_OPERATION_SET)
  ∧ tokens !! 0 = Some lit
  ∧ eval_next self tokens (str "~ x") false 2 0 = Some (Ok (false, 2))
  ∧ eval_next self tokens (str "~ x") false 2 0
    ≠ Some (Ok (operand_in_log (str "~ x") false lit, 0 + 1)).
Proof.
  intros self lit tokens. split; [|done].
  rewrite elem_of_INVALID_EVAL_OPERATION_SET. by intros [|[|]].
Qed.

(** C10, amended: the tokens that raise are the fixed three, whatever the
    dictionary of the querier; a configured AND, OR or right parenthesis
    literal that is none of them, and that is neither the configured left
    parenthesis nor the configured NOT, is tested as an operand where a
    term is expected. *)
Theorem C10_fixed_invalid_tokens (self : LogQuerier) (tokens : list pystr)
    (log : pystr) (ci : bool) (fuel pos : nat) (lit : pystr) :
  lit ∈ [AND (operationo_dict self); OR (operationo_dict self);
         RIGHT_PARENTHESIS (operationo_dict self)] →
  lit ∉ INVALID_EVAL_OPERATION_SET →
  lit ≠ LEFT_PARENTHESIS (operationo_dict self) →
  lit ≠ NOT (operationo_dict self) →
  tokens !! pos = Some lit →
  eval_next self tokens log ci (S fuel) pos
  = Some (Ok (operand_in_log log ci lit, pos + 1))
  ∧ ∀ token, token ∈ INVALID_EVAL_OPERATION_SET
             ↔ token = str "&&" ∨ token = str "||" ∨ token = str "))".
Proof.
  intros _ Hinv HLP HNOT Hpos. split.
  - by apply eval_next_operand.
  - apply elem_of_INVALID_EVAL_OPERATION_SET.
Qed.

Lemma C10_fixed_invalid_tokens_witness :
  let self := __init__ 1 WORD_OPERATION_DICT QUOTE_STRING in
  eval_next self [str "and"; str "a"] (str "sand") false 3 0
  = Some (Ok (operand_in_log (str "sand") false (str "and"), 0 + 1))
  ∧ ∀ token, token ∈ INVALID_EVAL_OPERATION_SET
             ↔ token = str "&&" ∨ token = str "||" ∨ token = str "))".
Proof.
  apply (C10_fixed_invalid_tokens
           (__init__ 1 WORD_OPERATION_DICT QUOTE_STRING)
           [str "and"; str "a"] (str "sand") false 2 0 (str "and")).
  - apply list_elem_of_here.
  - intros H. apply elem_of_INVALID_EVAL_OPERATION_SET in H.
    destruct H as [H|[H|H]]; discriminate H.
  - discriminate.
  - discriminate.
  - reflexivity.
Defined.

(** ** A query without operators *)

Module PatternFacts.

(** The literals that the pattern matches are the values of the stored
    dictionary, in the same order. *)
Lemma init_pattern_literals (lg : loc) (raw : OperationDict)
    (quote : pystr) :
  map Re.literal (pattern (__init__ lg raw quote))
  = values (operationo_dict (__init__ lg raw quote)).
Proof.
  cbn [pattern operationo_dict __init__]. unfold values. cbn [keys].
  rewrite map_map. apply map_ext. by intros [].
Qed.

(** An escaped literal is empty only when its pattern is. *)
Lemma literal_nil (p : pystr) :
  Re.escaped p = true → Re.literal p = [] → p = [].
Proof.
  destruct p as [|c p]; [done|]. unfold Re.literal, backslash.
  cbn [Re.escaped Str.replace Str.replace_scan Str.startswith].
  case_bool_decide as Hc; [subst c|].
  - destruct p as [|d p]; [done|].
    intros [[_ Hd%negb_true_iff]%andb_true_iff _]%andb_true_iff.
    rewrite bool_decide_eq_true_2 by done.
    cbn [andb app length Nat.sub Str.replace_scan Str.startswith].
    apply bool_decide_eq_false in Hd.
    by rewrite bool_decide_eq_false_2 by congruence.
  - intros _. by rewrite bool_decide_eq_false_2 by congruence.
Qed.

Lemma values_stripped (lg : loc) (raw : OperationDict) (quote : pystr) :
  values (operationo_dict (__init__ lg raw quote))
  = map Re.literal (values raw).
Proof. symmetry. apply init_pattern_literals. Qed.

End PatternFacts.

Module PlainQueryFacts.
Import Str Re StrFacts ScanFacts TokenizeFacts.

Lemma parse_quoted_token_nil (self : LogQuerier) :
  parse_quoted_token self [] = [].
Proof. unfold parse_quoted_token. cbn. by destruct (quote_string self). Qed.

Lemma operand_in_log_nil (log : pystr) (ci : bool) :
  operand_in_log log ci [] = true.
Proof. unfold operand_in_log. destruct ci; apply contains_nil. Qed.

(** The tokens of a query in which no operator occurs: the parsed query,
    when it is not empty. *)
Lemma tokenize_free (lg : loc) (raw : OperationDict) (quote q : pystr) :
  let self := __init__ lg raw quote in
  free_of (values (operationo_dict self)) q →
  query_tokens self q
  = Ok match parse_quoted_token self q with
       | [] => []
       | t => [t]
       end.
Proof.
  intros self Hfree. destruct q as [|c q].
  { cbn [query_tokens]. by rewrite parse_quoted_token_nil. }
  cbn [query_tokens]. unfold _tokenize, findall.
  unfold self at 1. rewrite PatternFacts.init_pattern_literals. fold self.
  rewrite findall_scan_free; [|
    intros Hin; specialize (Hfree [] Hin); by rewrite contains_nil in Hfree
    | done].
  cbn [tokenize_loop rbind app]. rewrite DefaultTokens.omap_cons.
  unfold keep_parsed. by destruct (parse_quoted_token self (c :: q)).
Qed.

(** The evaluation of a single operand token. *)
Lemma evaluate_single (self : LogQuerier) (t log : pystr) (ci : bool) :
  t ≠ LEFT_PARENTHESIS (operationo_dict self) →
  t ≠ NOT (operationo_dict self) →
  t ∉ INVALID_EVAL_OPERATION_SET →
  _evaluate_tokens self [t] log ci 0 = Ok (operand_in_log log ci t).
Proof.
  intros HLP HNOT HINV.
  unfold _evaluate_tokens, depth. cbn [length Nat.sub Nat.mul Nat.add].
  repeat eval_step. done.
Qed.

End PlainQueryFacts.

(** C4, as stated, fails: in the query [!""!] no operator occurs, and
    without the quote marker it is the text [!!]; no line of the scenario
    contains [!!], but [query] returns them all, as the token [!!] is
    taken for NOT. *)
Lemma C4_counterexample :
  let self := default_querier 1 in
  let q := ["!"; "034"; "034"; "!"]%char in
  (∀ lit, lit ∈ values (operationo_dict self) → Str.contains lit q = false)
  ∧ parse_quoted_token self q = str "!!"
  ∧ returned (query self q None (str "asc") false (corpus_state scenario))
    = Ok scenario
  ∧ List.filter
      (λ log, operand_in_log log false (parse_quoted_token self q))
      scenario = []
  ∧ returned (query self q None (str "asc") false (corpus_state scenario))
    ≠ Ok (List.filter
            (λ log, operand_in_log log false (parse_quoted_token self q))
            scenario).
Proof.
  intros self q. split; [|done].
  intros lit Hl. apply list_elem_of_In in Hl.
  assert (forallb (λ lit, negb (Str.contains lit q))
            (values (operationo_dict self)) = true) as Hf by reflexivity.
  rewrite forallb_forall in Hf. by apply negb_true_iff, Hf.
Qed.

(** C4, amended: for a querier made from a dictionary of escaped
    literals, whatever the insertion order of its keys, and a query in
    which no configured operator literal occurs, and whose text, trimmed
    and without the quote marker, is not the configured left parenthesis
    or NOT literal nor one of the three fixed tokens, [query] returns the
    lines of the corpus, in order, that contain that text (lowercased on
    both sides under the case flag). *)
Theorem C4_query_without_operators (lg : loc) (raw : OperationDict)
    (quote q ordering : pystr) (ci : bool) (st : state)
    (corpus : list pystr) :
  let self := __init__ lg raw quote in
  let t := parse_quoted_token self q in
  escaped_dict raw →
  heap st !! lg = Some corpus →
  free_of (values (operationo_dict self)) q →
  t ≠ LEFT_PARENTHESIS (operationo_dict self) →
  t ≠ NOT (operationo_dict self) →
  t ∉ INVALID_EVAL_OPERATION_SET →
  returned (query self q None ordering ci st)
  = Ok (List.filter (λ log, operand_in_log log ci t) corpus).
Proof.
  intros self t _ Hcorpus Hfree HLP HNOT HINV. subst self t.
  rewrite QueryFacts.query_unfold.
  rewrite (PlainQueryFacts.tokenize_free lg raw quote q Hfree).
  set (self := __init__ lg raw quote) in *.
  destruct (parse_quoted_token self q) as [|a t'] eqn:Et.
  - rewrite QueryFacts.limit_logs_none. unfold returned.
    change (logs self) with lg. rewrite Hcorpus. cbn [default].
    rewrite SelectFacts.filter_all; [done|].
    intros. apply PlainQueryFacts.operand_in_log_nil.
  - unfold bind at 1. unfold load at 1.
    change (logs self) with lg. rewrite Hcorpus. cbn [default].
    unfold bind at 1.
    rewrite (QueryFacts.comprehension_filter _ _ _
               (λ log, operand_in_log log ci (a :: t'))); last first.
    { intros log _. by apply PlainQueryFacts.evaluate_single. }
    unfold bind at 1. unfold alloc at 1.
    rewrite QueryFacts.limit_logs_none. cbn [heap].
    unfold returned. cbn [heap]. by rewrite lookup_insert_eq.
Qed.

Lemma C4_query_without_operators_witness :
  returned (query (__init__ 1 OPERATION_DICT QUOTE_STRING) (str " disk ")
              None (str "asc") true (corpus_state scenario))
  = Ok (List.filter
          (λ log, operand_in_log log true
                    (parse_quoted_token
                       (__init__ 1 OPERATION_DICT QUOTE_STRING)
                       (str " disk ")))
          scenario).
Proof.
  apply (C4_query_without_operators 1%positive OPERATION_DICT QUOTE_STRING
           (str " disk ") (str "asc") true (corpus_state scenario) scenario).
  - split; [apply Permutation_refl|]. by repeat constructor.
  - reflexivity.
  - intros lit Hl. apply list_elem_of_In in Hl.
    assert (forallb (λ lit, negb (Str.contains lit (str " disk ")))
              (values (operationo_dict
                         (__init__ 1 OPERATION_DICT QUOTE_STRING))) = true)
      as Hf by reflexivity.
    rewrite forallb_forall in Hf. by apply negb_true_iff, Hf.
  - discriminate.
  - discriminate.
  - intros H. apply elem_of_INVALID_EVAL_OPERATION_SET in H.
    destruct H as [H|[H|H]]; discriminate H.
Defined.

(** * Further properties of the querier *)

(** X1: the evaluator terminates on every token list.  From any position
    the call depth [depth tokens pos] is enough for [eval_or] to come
    back, and any greater depth gives the same result, the one
    [_evaluate_tokens] returns. *)
Theorem X1_evaluator_terminates (self : LogQuerier) (tokens : list pystr)
    (log : pystr) (ci : bool) (pos extra : nat) :
  ∃ r,
    eval_or self tokens log ci (depth tokens pos) pos = Some r
    ∧ eval_or self tokens log ci (depth tokens pos + extra) pos = Some r
    ∧ _evaluate_tokens self tokens log ci pos
      = rbind r (λ '(result, _), Ok result).
Proof.
  destruct (_evaluate_tokens_eval_or self tokens log ci pos)
    as (r & Hr & Heval).
  exists r. repeat split; [done| |done].
  pose proof (evaluator_depth_mono self tokens log ci (depth tokens pos))
    as (_ & _ & _ & Hor & _).
  apply (Hor _ _ Hr). lia.
Qed.

(** X2: whether the evaluator raises depends on the tokens only: it
    raises an exception on one line, under one case flag, exactly when it
    raises that exception on any other line under any case flag. *)
Theorem X2_raise_independent_of_line (self : LogQuerier)
    (tokens : list pystr) (log1 log2 : pystr) (ci1 ci2 : bool) (pos : nat)
    (e : exn) :
  _evaluate_tokens self tokens log1 ci1 pos = Raise e
  ↔ _evaluate_tokens self tokens log2 ci2 pos = Raise e.
Proof. split; apply _evaluate_tokens_raise. Qed.

Module LimitFacts.

Lemma slice_from_pos {A} (k : Z) (m : list A) :
  (0 < k)%Z → slice_from k m = drop (Z.to_nat k) m.
Proof.
  intros H. unfold slice_from, slice_index.
  destruct (Z.ltb_spec k 0); [lia|].
  destruct (Z.le_ge_cases k (Z.of_nat (length m))).
  - f_equal. lia.
  - rewrite !drop_ge; [done|lia|lia].
Qed.

Lemma slice_to_neg {A} (k : Z) (m : list A) :
  (0 < k)%Z → slice_to (- k) m = take (length m - Z.to_nat k) m.
Proof.
  intros H. unfold slice_to, slice_index.
  destruct (Z.ltb_spec (- k) 0); [|lia]. f_equal. lia.
Qed.

Lemma evaluated_1 (st : state) :
  {| heap := heap st; evaluations := S (evaluations st) |} = evaluated 1 st.
Proof. unfold evaluated. f_equal. lia. Qed.

Lemma limit_logs_evaluations (limit : option Z) (ordering : pystr)
    (lg : loc) (st : state) :
  evaluations (limit_logs limit ordering lg st).2 = evaluations st.
Proof.
  unfold limit_logs. destruct (truthy limit); [|done].
  case_bool_decide; reflexivity.
Qed.

End LimitFacts.

(** X3: when the evaluator raises on some line, [query] on a corpus that
    is not empty raises that exception as soon as the first line is
    evaluated: one evaluation is made, no list object is made, the heap is
    as before. *)
Theorem X3_query_raises_at_first_line (self : LogQuerier) (q : pystr)
    (limit : option Z) (ordering : pystr) (ci : bool) (st : state)
    (tokens : list pystr) (log0 : pystr) (rest : list pystr) (log : pystr)
    (e : exn) :
  query_tokens self q = Ok tokens → tokens ≠ [] →
  heap st !! logs self = Some (log0 :: rest) →
  _evaluate_tokens self tokens log ci 0 = Raise e →
  query self q limit ordering ci st = (Raise e, evaluated 1 st).
Proof.
  intros Htok Hne Hcorpus Hraise.
  apply (_evaluate_tokens_raise _ _ _ log0 _ ci) in Hraise.
  rewrite QueryFacts.query_unfold, Htok.
  destruct tokens as [|t ts]; [done|].
  unfold bind at 1. unfold load at 1. rewrite Hcorpus. cbn [default from_option id].
  unfold bind at 1. cbn [comprehension].
  unfold bind at 1. unfold count_evaluation at 1.
  unfold bind at 1. unfold lift at 1. rewrite Hraise.
  by rewrite LimitFacts.evaluated_1.
Qed.

Lemma X3_query_raises_at_first_line_witness :
  query (default_querier 1) (str "&& a") (Some 2%Z) (str "asc") false
    (corpus_state scenario)
  = (Raise (invalid_operation_token (str "&&")),
     evaluated 1 (corpus_state scenario)).
Proof.
  apply (X3_query_raises_at_first_line (default_querier 1) (str "&& a")
           (Some 2%Z) (str "asc") false (corpus_state scenario)
           [str "&&"; str "a"] (str "error: disk full")
           [str "info: ok"; str "warn: disk slow";
            str "error: network down"]
           (str "info: ok") (invalid_operation_token (str "&&"))).
  - reflexivity.
  - discriminate.
  - reflexivity.
  - reflexivity.
Defined.

(** X4: on an empty corpus [query] returns the empty list for every
    query that has tokens, also one on which the evaluator would raise:
    no line is evaluated. *)
Theorem X4_empty_corpus (self : LogQuerier) (q : pystr) (limit : option Z)
    (ordering : pystr) (ci : bool) (st : state) (tokens : list pystr) :
  query_tokens self q = Ok tokens →
  heap st !! logs self = Some [] →
  returned (query self q limit ordering ci st) = Ok []
  ∧ evaluations (query self q limit ordering ci st).2 = evaluations st.
Proof.
  intros Htok Hcorpus.
  assert (∃ lg st1,
            query self q limit ordering ci st
            = limit_logs limit ordering lg st1
            ∧ heap st1 !! lg = Some []
            ∧ evaluations st1 = evaluations st) as (lg & st1 & -> & Hlg & Hev).
  { rewrite QueryFacts.query_unfold, Htok. destruct tokens as [|t ts].
    - by exists (logs self), st.
    - eexists _, _. split; [|split].
      + unfold bind at 1. unfold load at 1. rewrite Hcorpus.
        cbn [default from_option id].
        unfold bind at 1. cbn [comprehension]. unfold ret at 1.
        unfold bind at 1. unfold alloc at 1. reflexivity.
      + cbn [heap]. apply lookup_insert_eq.
      + done. }
  split; [by apply OperandFacts.limit_logs_nil|].
  by rewrite LimitFacts.limit_logs_evaluations.
Qed.

Lemma X4_empty_corpus_witness :
  returned (query (default_querier 1) (str "&& a") (Some 2%Z) (str "desc")
              false (corpus_state []))
  = Ok []
  ∧ evaluations (query (default_querier 1) (str "&& a") (Some 2%Z)
                   (str "desc") false (corpus_state [])).2
    = evaluations (corpus_state []).
Proof.
  apply (X4_empty_corpus (default_querier 1) (str "&& a") (Some 2%Z)
           (str "desc") false (corpus_state []) [str "&&"; str "a"]).
  - reflexivity.
  - reflexivity.
Defined.

(** X5: the limit 0 is no limit: [query] with [limit=0] runs as with
    [limit=None] and returns every matching line. *)
Theorem X5_limit_zero_is_no_limit (self : LogQuerier) (q : pystr)
    (ordering : pystr) (ci : bool) (st : state) :
  query self q (Some 0%Z) ordering ci st = query self q None ordering ci st.
Proof. by rewrite !QueryFacts.query_unfold. Qed.

(** X6: every ordering other than ['asc'] is taken for ['desc']. *)
Theorem X6_ordering_other_than_asc (self : LogQuerier) (q : pystr)
    (limit : option Z) (ordering : pystr) (ci : bool) (st : state) :
  ordering ≠ str "asc" →
  query self q limit ordering ci st = query self q limit (str "desc") ci st.
Proof.
  intros Hord. rewrite !QueryFacts.query_unfold. unfold limit_logs.
  rewrite (bool_decide_eq_false_2 (ordering = str "asc")) by done.
  by rewrite (bool_decide_eq_false_2 (str "desc" = str "asc")).
Qed.

Lemma X6_ordering_other_than_asc_witness :
  query (default_querier 1) (str "error") (Some 1%Z) (str "ASC") false
    (corpus_state scenario)
  = query (default_querier 1) (str "error") (Some 1%Z) (str "desc") false
      (corpus_state scenario).
Proof.
  apply (X6_ordering_other_than_asc (default_querier 1) (str "error")
           (Some 1%Z) (str "ASC") false (corpus_state scenario)).
  discriminate.
Defined.

(** X7: a negative limit [-k] does not bound the result: ordering 'asc'
    returns the matching lines without the first [k], ordering 'desc' the
    matching lines without the last [k], reversed. *)
Theorem X7_negative_limit (self : LogQuerier) (q : pystr) (ci : bool)
    (corpus : list pystr) (st : state) (k : Z) :
  heap st !! logs self = Some corpus →
  matching_lines self q ci corpus ≠ [] →
  (0 < k)%Z →
  let m := matching_lines self q ci corpus in
  returned (query self q (Some (- k)%Z) (str "asc") ci st)
  = Ok (drop (Z.to_nat k) m)
  ∧ returned (query self q (Some (- k)%Z) (str "desc") ci st)
    = Ok (reverse (take (length m - Z.to_nat k) m)).
Proof.
  intros Hcorpus Hm Hk m.
  destruct (SelectFacts.query_selects self q ci corpus st Hcorpus Hm)
    as (lg & st1 & Hq & Hlg).
  fold m in Hlg. split.
  - rewrite Hq, (QueryFacts.limit_logs_asc _ _ _ m) by (done || lia).
    rewrite QueryFacts.returned_allocated, Z.opp_involutive.
    by rewrite LimitFacts.slice_from_pos.
  - rewrite Hq, (QueryFacts.limit_logs_desc _ _ _ _ m) by (done || lia).
    by rewrite QueryFacts.returned_allocated, LimitFacts.slice_to_neg.
Qed.

Lemma X7_negative_limit_witness :
  let self := default_querier 1 in
  let q := str "error || warn" in
  let st := corpus_state scenario in
  let m := matching_lines self q false scenario in
  returned (query self q (Some (- 1)%Z) (str "asc") false st)
  = Ok (drop (Z.to_nat 1) m)
  ∧ returned (query self q (Some (- 1)%Z) (str "desc") false st)
    = Ok (reverse (take (length m - Z.to_nat 1) m)).
Proof.
  apply (X7_negative_limit (default_querier 1) (str "error || warn") false
           scenario (corpus_state scenario) 1).
  - reflexivity.
  - vm_compute. discriminate.
  - reflexivity.
Defined.

(** X8: when the query has tokens and the evaluator raises on no line,
    [query] without a limit returns a new list object, not the stored
    corpus and no list object that existed before, so that changing the
    returned list cannot change the corpus; every line of the corpus is
    evaluated exactly once. *)
Theorem X8_result_is_a_new_list (self : LogQuerier) (q : pystr)
    (ordering : pystr) (ci : bool) (st : state) (tokens corpus : list pystr)
    (f : pystr → bool) :
  query_tokens self q = Ok tokens → tokens ≠ [] →
  heap st !! logs self = Some corpus →
  (∀ log, log ∈ corpus → _evaluate_tokens self tokens log ci 0 = Ok (f log)) →
  ∃ l st',
    query self q None ordering ci st = (Ok l, st')
    ∧ (l ∉ dom (heap st)) ∧ l ≠ logs self
    ∧ heap st' !! l = Some (List.filter f corpus)
    ∧ evaluations st' = evaluations st + length corpus.
Proof.
  intros Htok Hne Hcorpus Heval. eexists _, _.
  rewrite QueryFacts.query_unfold, Htok.
  destruct tokens as [|t ts]; [done|].
  unfold bind at 1. unfold load at 1. rewrite Hcorpus. cbn [default from_option id].
  unfold bind at 1. rewrite (QueryFacts.comprehension_filter _ _ _ _ _ _ Heval).
  unfold bind at 1. unfold alloc at 1. rewrite QueryFacts.limit_logs_none.
  cbn [heap evaluations evaluated].
  split; [done|]. split; [apply is_fresh|]. split.
  - intros Heq. apply (is_fresh (dom (heap st))). rewrite Heq.
    apply elem_of_dom. eauto.
  - split; [apply lookup_insert_eq|done].
Qed.

Lemma X8_result_is_a_new_list_witness :
  ∃ l st',
    query (default_querier 1) (str "error") None (str "asc") false
      (corpus_state scenario) = (Ok l, st')
    ∧ (l ∉ dom (heap (corpus_state scenario)))
    ∧ l ≠ logs (default_querier 1)
    ∧ heap st' !! l
      = Some (List.filter (λ log, Str.contains (str "error") log) scenario)
    ∧ evaluations st'
      = evaluations (corpus_state scenario) + length scenario.
Proof.
  apply (X8_result_is_a_new_list (default_querier 1) (str "error")
           (str "asc") false (corpus_state scenario) [str "error"] scenario
           (λ log, Str.contains (str "error") log)).
  - reflexivity.
  - discriminate.
  - reflexivity.
  - intros log _. apply PlainQueryFacts.evaluate_single.
    + discriminate.
    + discriminate.
    + intros H. apply elem_of_INVALID_EVAL_OPERATION_SET in H.
      destruct H as [H|[H|H]]; discriminate H.
Defined.

(** ** The tokenizer on every query *)

Module TokenizerFacts.
Import Str Re StrFacts ScanFacts TokenizeFacts.

Lemma startswith_length (l s : pystr) :
  startswith l s = true → length l ≤ length s.
Proof.
  revert s. induction l as [|a l IH]; intros [|b s]; simpl; try done; try lia.
  intros [_ H]%andb_true_iff. apply IH in H. lia.
Qed.

Lemma startswith_nil_inv (l : pystr) : startswith l [] = true → l = [].
Proof. by destruct l. Qed.

Lemma first_match_elem (lits : list pystr) (s l : pystr) :
  first_match lits s = Some l → l ∈ lits ∧ startswith l s = true.
Proof.
  unfold first_match. intros [H1 H2]%find_some.
  split; [by apply list_elem_of_In|done].
Qed.

Lemma first_match_is_Some (lits : list pystr) (s l : pystr) :
  l ∈ lits → startswith l s = true → is_Some (first_match lits s).
Proof.
  intros Hl Hs. destruct (first_match lits s) eqn:E; [eauto|].
  rewrite first_match_None in E. specialize (E l Hl). congruence.
Qed.

(** With an empty literal among the alternatives, [re.findall] reports an
    empty match. *)
Lemma findall_scan_empty_match (lits : list pystr) (s : pystr) (k : nat) :
  [] ∈ lits → k ≤ length s → [] ∈ findall_scan lits s k.
Proof.
  intros Hnil. revert k. induction s as [|c s IH]; intros k Hk.
  - destruct k; [|simpl in Hk; lia]. simpl.
    destruct (first_match_is_Some lits [] [] Hnil eq_refl) as [l Hl].
    rewrite Hl. apply first_match_elem in Hl as [_ ->%startswith_nil_inv].
    apply list_elem_of_here.
  - destruct k as [|k]; [|apply IH; simpl in Hk; lia].
    cbn [findall_scan].
    destruct (first_match lits (c :: s)) as [[|a l]|] eqn:E.
    + apply list_elem_of_here.
    + apply list_elem_of_further, IH.
      apply first_match_elem in E as [_ E%startswith_length].
      simpl in E |- *. lia.
    + apply IH. lia.
Qed.

Lemma tokenize_step_nonempty (st : list pystr * pystr) (c : ascii)
    (op : pystr) :
  ∃ st', tokenize_step st (c :: op) = Ok st'.
Proof. destruct st as [tokens cur]. unfold tokenize_step, split. eauto. Qed.

(** The loop stops with [ValueError] at an empty operation. *)
Lemma tokenize_loop_empty_operation (ops : list pystr)
    (st : list pystr * pystr) :
  [] ∈ ops →
  tokenize_loop st ops = Raise (ValueError (str "empty separator")).
Proof.
  revert st. induction ops as [|op ops IH]; intros st Hin.
  { by apply elem_of_nil in Hin. }
  cbn [tokenize_loop]. destruct op as [|c op].
  - by destruct st.
  - destruct (tokenize_step_nonempty st c op) as [st' ->]. cbn [rbind].
    apply IH. by apply elem_of_cons in Hin as [|].
Qed.

(** The first operator found by [re.findall] splits the text: nothing
    matches before it, and the scan goes on after it. *)
Lemma findall_scan_cons (lits : list pystr) (s op : pystr)
    (ops : list pystr) :
  [] ∉ lits → findall_scan lits s 0 = op :: ops →
  ∃ u w, s = u ++ op ++ w ∧ op ∈ lits ∧ op ≠ []
         ∧ no_match lits u (op ++ w) = true
         ∧ findall_scan lits w 0 = ops.
Proof.
  intros Hnil. induction s as [|c s IH].
  { simpl. destruct (first_match lits []) as [l|] eqn:E; [|done].
    apply first_match_elem in E as [Hl ->%startswith_nil_inv]. done. }
  cbn [findall_scan].
  destruct (first_match lits (c :: s)) as [l|] eqn:E.
  - pose proof (first_match_elem _ _ _ E) as [Hl Hs].
    destruct l as [|a l]; [done|]. intros [= <- <-].
    exists [], (drop (length (a :: l)) (c :: s)).
    pose proof (startswith_drop _ _ Hs) as Hd.
    repeat split; [done..|].
    cbn [length drop]. rewrite Nat.sub_0_r.
    cbn [drop length app] in Hd. injection Hd as _ Hd.
    transitivity (findall_scan lits (l ++ drop (length l) s) (length l));
      [symmetry; apply findall_scan_skip | by rewrite <-Hd].
  - intros H. destruct (IH H) as (u & w & -> & Hop & Hne & Hu & Hw).
    exists (c :: u), w. repeat split; [done..| |done].
    cbn [no_match]. cbn [app] in E |- *. by rewrite E.
Qed.

(** The loop over the operators that [re.findall] found in the current
    text: it does not raise, and the tokens it adds, with the text that
    remains, make up the current text. *)
Lemma tokenize_loop_partition (lits : list pystr) (ops tokens : list pystr)
    (cur : pystr) :
  [] ∉ lits → findall_scan lits cur 0 = ops →
  ∃ pieces rest,
    tokenize_loop (tokens, cur) ops = Ok (tokens ++ pieces, rest)
    ∧ concat pieces ++ rest = cur ∧ [] ∉ pieces.
Proof.
  intros Hnil. revert tokens cur.
  induction ops as [|op ops IH]; intros tokens cur Hops.
  { exists [], cur. rewrite app_nil_r. repeat split; [done..|].
    apply not_elem_of_nil. }
  destruct (findall_scan_cons _ _ _ _ Hnil Hops)
    as (u & w & -> & Hop & Hne & Hu & Hw).
  cbn [tokenize_loop].
  rewrite tokenize_step_first; [|done|]; last first.
  { eapply no_match_sublist; [|done].
    intros x ->%list_elem_of_singleton. done. }
  cbn [rbind].
  destruct (IH (tokens ++ match u with [] => [] | _ => [u] end ++ [op])
              w Hw) as (pieces & rest & Hloop & Hcat & Hpieces).
  exists (match u with [] => [] | _ => [u] end ++ [op] ++ pieces), rest.
  repeat split.
  - rewrite Hloop. by rewrite <-!app_assoc.
  - rewrite <-Hcat. destruct u; cbn; by rewrite <-?app_assoc.
  - destruct u; cbn; rewrite ?not_elem_of_cons; naive_solver.
Qed.

Lemma omap_keep_parsed_nonempty (self : LogQuerier) (raw : list pystr) :
  [] ∉ omap (keep_parsed self) raw.
Proof.
  induction raw as [|x raw IH]; [apply not_elem_of_nil|].
  rewrite DefaultTokens.omap_cons. unfold keep_parsed at 1.
  destruct (parse_quoted_token self x); [done|].
  apply not_elem_of_cons. by split.
Qed.

End TokenizerFacts.

(** X9: when an entry of the raw dictionary is the empty string, the
    other entries being escaped literals in any order, [_tokenize] raises
    [ValueError] on every query, and so does [query] on every query
    string that is not empty, before any line is evaluated; the empty
    query string is still answered with the stored corpus. *)
Theorem X9_empty_operator_literal (lg : loc) (raw : OperationDict)
    (quote q : pystr) (limit : option Z) (ordering : pystr) (ci : bool)
    (st : state) :
  let self := __init__ lg raw quote in
  escaped_dict raw →
  [] ∈ values raw →
  _tokenize self q = Raise (ValueError (str "empty separator"))
  ∧ (q ≠ [] →
     query self q limit ordering ci st
     = (Raise (ValueError (str "empty separator")), st))
  ∧ query self [] None ordering ci st = (Ok lg, st).
Proof.
  intros self _ Hnil.
  assert ([] ∈ values (operationo_dict self)) as Hempty.
  { unfold self. rewrite PatternFacts.values_stripped.
    change ([] : pystr) with (Re.literal []). by apply list_elem_of_fmap_2. }
  assert (_tokenize self q = Raise (ValueError (str "empty separator")))
    as Htok.
  { unfold _tokenize, Re.findall.
    unfold self at 1. rewrite PatternFacts.init_pattern_literals. fold self.
    rewrite TokenizerFacts.tokenize_loop_empty_operation; [done|].
    apply TokenizerFacts.findall_scan_empty_match; [done|lia]. }
  split; [done|]. split; [|done].
  intros Hq. rewrite QueryFacts.query_unfold.
  destruct q as [|c q]; [done|]. cbn [query_tokens]. by rewrite Htok.
Qed.

Lemma X9_empty_operator_literal_witness :
  let raw := {| AND := []; OR := str "\|\|"; NOT := str "\!\!";
                LEFT_PARENTHESIS := str "\(\(";
                RIGHT_PARENTHESIS := str "\)\)";
                keys := declared_keys |} in
  let self := __init__ 1 raw QUOTE_STRING in
  _tokenize self (str "a") = Raise (ValueError (str "empty separator"))
  ∧ (str "a" ≠ [] →
     query self (str "a") None (str "asc") false (corpus_state scenario)
     = (Raise (ValueError (str "empty separator")), corpus_state scenario))
  ∧ query self [] None (str "asc") false (corpus_state scenario)
    = (Ok 1%positive, corpus_state scenario).
Proof.
  apply (X9_empty_operator_literal 1%positive
           {| AND := []; OR := str "\|\|"; NOT := str "\!\!";
              LEFT_PARENTHESIS := str "\(\(";
              RIGHT_PARENTHESIS := str "\)\)";
              keys := declared_keys |}
           QUOTE_STRING (str "a") None (str "asc") false
           (corpus_state scenario)).
  - split; [apply Permutation_refl|]. by repeat constructor.
  - apply list_elem_of_here.
Defined.

(** X10: for a raw dictionary of escaped literals, none of them empty,
    in any insertion order, [_tokenize] raises on no query.  Its tokens
    are the parsed pieces of a partition of the query: the pieces, none
    empty, concatenate to the query, each piece whose parsed form is not
    empty gives one token, in order, and no token is empty. *)
Theorem X10_tokens_partition_the_query (lg : loc) (raw : OperationDict)
    (quote q : pystr) :
  let self := __init__ lg raw quote in
  escaped_dict raw →
  [] ∉ values raw →
  ∃ pieces,
    _tokenize self q = Ok (omap (keep_parsed self) pieces)
    ∧ concat pieces = q ∧ ([] ∉ pieces)
    ∧ [] ∉ omap (keep_parsed self) pieces.
Proof.
  intros self [_ Hescaped] Hraw.
  assert ([] ∉ values (operationo_dict self)) as Hnil.
  { unfold self. rewrite PatternFacts.values_stripped.
    intros (p & Hp & Hin)%list_elem_of_fmap.
    rewrite Forall_forall in Hescaped.
    apply Hraw. by rewrite <-(PatternFacts.literal_nil p) at 1 by auto. }
  unfold _tokenize, Re.findall.
  unfold self at 1. rewrite PatternFacts.init_pattern_literals. fold self.
  destruct (TokenizerFacts.tokenize_loop_partition
              (values (operationo_dict self))
              (Re.findall_scan (values (operationo_dict self)) q 0)
              [] q Hnil eq_refl)
    as (pieces & rest & Hloop & Hcat & Hpieces).
  rewrite Hloop. cbn [rbind app].
  exists (pieces ++ match rest with [] => [] | _ => [rest] end).
  repeat split.
  - by destruct rest; rewrite ?app_nil_r.
  - rewrite concat_app. destruct rest; cbn; by rewrite ?app_nil_r in *.
  - destruct rest; rewrite ?app_nil_r; [done|].
    rewrite not_elem_of_app, not_elem_of_cons. repeat split; [done..|].
    apply not_elem_of_nil.
  - apply TokenizerFacts.omap_keep_parsed_nonempty.
Qed.

Lemma X10_tokens_partition_the_query_witness :
  let self := __init__ 1 OR_FIRST_OPERATION_DICT QUOTE_STRING in
  ∃ pieces,
    _tokenize self (str "a && ((b & !!c)) ")
    = Ok (omap (keep_parsed self) pieces)
    ∧ concat pieces = str "a && ((b & !!c)) " ∧ ([] ∉ pieces)
    ∧ [] ∉ omap (keep_parsed self) pieces.
Proof.
  apply (X10_tokens_partition_the_query 1%positive OR_FIRST_OPERATION_DICT
           QUOTE_STRING (str "a && ((b & !!c)) ")).
  - split; [apply Permutation_swap|]. by repeat constructor.
  - intros H. apply list_elem_of_In in H. simpl in H.
    repeat (destruct H as [H|H]; [discriminate H|]). exact H.
Defined.

(** ** Queries written with single spaces *)

Module SpacedFacts.
Import Str Re StrFacts ScanFacts TokenizeFacts DefaultFacts DefaultTokens.

Section spaced.
Variable l : loc.
Local Abbreviation self := (default_querier l).

Lemma literal_cases (P : pystr → Prop) :
  P (str "&&") → P (str "||") → P (str "!!") → P (str "((") → P (str "))") →
  ∀ y, y ∈ default_literals → P y.
Proof.
  intros H1 H2 H3 H4 H5 y. unfold default_literals.
  rewrite !elem_of_cons, elem_of_nil.
  intros [-> | [-> | [-> | [-> | [-> | []]]]]]; done.
Qed.

Lemma first_match_literal (y w : pystr) :
  y ∈ default_literals → first_match default_literals (y ++ w) = Some y.
Proof. revert y. by apply literal_cases. Qed.

Lemma literal_nonempty (y : pystr) : y ∈ default_literals → y ≠ [].
Proof. revert y. by apply literal_cases. Qed.

Lemma keep_parsed_literal (y : pystr) :
  y ∈ default_literals → keep_parsed self y = Some y.
Proof. revert y. by apply literal_cases. Qed.

Lemma no_match_space_literal (y w : pystr) :
  y ∈ default_literals → no_match default_literals space (y ++ w) = true.
Proof. revert y. by apply literal_cases. Qed.

Lemma operand_not_literal (x : pystr) :
  operand self x → bool_decide (x ∈ default_literals) = false.
Proof.
  intros Hx. apply bool_decide_eq_false_2. intros Hin.
  pose proof (operand_free _ _ Hx _ Hin) as H.
  by rewrite contains_refl in H.
Qed.

Lemma join_cons (x : pystr) (rest : list pystr) :
  join space (x :: rest)
  = x ++ match rest with [] => [] | _ => space ++ join space rest end.
Proof. destruct rest; simpl; by rewrite ?app_nil_r. Qed.

Lemma blank_rest (rest : list pystr) :
  ∃ pre, blank pre
         ∧ match rest with [] => [] | _ => space ++ join space rest end
           = pre ++ join space rest.
Proof.
  destruct rest; [exists []|exists space]; (split; [|done]);
    [by left|by right].
Qed.

Lemma no_match_blank (pre w : pystr) :
  blank pre → no_match default_literals pre w = true.
Proof. by intros [-> | ->]. Qed.

Lemma keep_parsed_blank (pre : pystr) :
  blank pre →
  omap (keep_parsed self) match pre with [] => [] | _ => [pre] end = [].
Proof. by intros [-> | ->]. Qed.

Lemma keep_parsed_blank_operand (pre x : pystr) :
  blank pre → operand self x → keep_parsed self (pre ++ x) = Some x.
Proof.
  intros [-> | ->] Hx; cbn [app]; rewrite ?keep_parsed_space_l by done;
    by apply keep_parsed_operand.
Qed.

Lemma no_match_blank_operand (pre x w : pystr) (c : ascii) :
  blank pre → operand self x → (∀ lit, lit ∈ default_literals → c ∉ lit) →
  no_match default_literals (pre ++ x) (c :: w) = true.
Proof.
  intros Hpre Hx Hc. rewrite no_match_app.
  rewrite no_match_blank by done. cbn [andb].
  apply no_match_free_sep; [|done]. by eapply operand_free.
Qed.

(** The operators that [re.findall] finds. *)
Lemma findall_spaced (items : list pystr) (pre : pystr) :
  blank pre → well_spaced self items →
  findall_scan default_literals (pre ++ join space items) 0
  = operators_of items.
Proof.
  revert pre. induction items as [|x rest IH]; intros pre Hpre Hwf.
  { cbn [join operators_of List.filter]. rewrite app_nil_r.
    rewrite <-(app_nil_r pre), findall_scan_no_match
      by by apply no_match_blank.
    apply findall_scan_end, nil_not_in_literals. }
  destruct Hwf as [Hx Hwf]. rewrite join_cons.
  rewrite findall_scan_no_match by by apply no_match_blank.
  assert (findall_scan default_literals
            match rest with [] => [] | _ => space ++ join space rest end 0
          = operators_of rest) as Hrest.
  { destruct rest; [by apply (IH []); [left|]|by apply (IH space); [right|]]. }
  unfold operators_of. cbn [List.filter]. fold (operators_of rest).
  destruct Hx as [Hx|[Hx Hnext]].
  - rewrite bool_decide_eq_true_2 by done.
    rewrite findall_scan_match;
      [|by apply literal_nonempty|by apply first_match_literal].
    by f_equal.
  - rewrite operand_not_literal by done.
    destruct rest as [|y rest'].
    + rewrite app_nil_r. apply findall_scan_free;
        [apply nil_not_in_literals|by eapply operand_free].
    + rewrite findall_scan_no_match; [done|].
      apply no_match_free_sep; [by eapply operand_free|].
      apply space_not_in_literals.
Qed.

Lemma operators_of_cons_literal (y : pystr) (rest : list pystr) :
  y ∈ default_literals → operators_of (y :: rest) = y :: operators_of rest.
Proof.
  intros Hy. unfold operators_of. cbn [List.filter].
  by rewrite bool_decide_eq_true_2.
Qed.

Lemma operators_of_cons_operand (x : pystr) (rest : list pystr) :
  operand self x → operators_of (x :: rest) = operators_of rest.
Proof.
  intros Hx. unfold operators_of. cbn [List.filter].
  by rewrite operand_not_literal.
Qed.

Lemma no_match_one (y u w : pystr) :
  y ∈ default_literals → no_match default_literals u w = true →
  no_match [y] u w = true.
Proof.
  intros Hy. apply no_match_sublist.
  by intros x ->%list_elem_of_singleton.
Qed.

(** The loop over the operators, and the final parse of the tokens. *)
Lemma loop_spaced (n : nat) (items : list pystr) (pre : pystr)
    (acc : list pystr) :
  length items ≤ n → blank pre → well_spaced self items →
  ∃ toks cur,
    tokenize_loop (acc, pre ++ join space items) (operators_of items)
    = Ok (toks, cur)
    ∧ omap (keep_parsed self)
        (toks ++ match cur with [] => [] | _ :: _ => [cur] end)
      = omap (keep_parsed self) acc ++ items.
Proof.
  revert items pre acc.
  induction n as [|n IH]; intros items pre acc Hn Hpre Hwf.
  { destruct items; [|simpl in Hn; lia].
    exists acc, pre. cbn [join operators_of List.filter tokenize_loop].
    rewrite app_nil_r. split; [done|].
    by rewrite omap_app, keep_parsed_blank, app_nil_r. }
  destruct items as [|x rest].
  { exists acc, pre. cbn [join operators_of List.filter tokenize_loop].
    rewrite app_nil_r. split; [done|].
    by rewrite omap_app, keep_parsed_blank, app_nil_r. }
  destruct Hwf as [Hx Hwf]. rewrite join_cons.
  destruct Hx as [Hx|[Hx Hnext]].
  - (* an operator *)
    rewrite operators_of_cons_literal by done. cbn [tokenize_loop].
    rewrite tokenize_step_first;
      [|by apply literal_nonempty
       |by apply no_match_one; [|apply no_match_blank]].
    cbn [rbind].
    destruct (blank_rest rest) as (pre' & Hpre' & ->).
    destruct (IH rest pre'
                (acc ++ match pre with [] => [] | _ => [pre] end ++ [x])
                ltac:(simpl in Hn; lia) Hpre' Hwf)
      as (toks & cur & -> & Hparse).
    exists toks, cur. split; [done|]. rewrite Hparse.
    rewrite !omap_app, keep_parsed_blank by done.
    cbn [app]. rewrite omap_cons, keep_parsed_literal by done.
    by rewrite <-app_assoc.
  - rewrite operators_of_cons_operand by done.
    destruct Hx as (Hne & Hx'). pose proof (conj Hne Hx') as Hx.
    destruct rest as [|y rest'].
    + (* the last operand *)
      exists acc, (pre ++ x). cbn [operators_of List.filter tokenize_loop].
      rewrite app_nil_r. split; [done|].
      rewrite omap_app.
      assert (match pre ++ x with [] => [] | _ :: _ => [pre ++ x] end
              = [pre ++ x]) as ->.
      { destruct x; [done|]. by destruct Hpre as [-> | ->]. }
      by rewrite omap_cons, keep_parsed_blank_operand.
    + (* an operand, then an operator *)
      destruct Hwf as [_ Hwf].
      rewrite operators_of_cons_literal by done. cbn [tokenize_loop].
      rewrite join_cons.
      replace (pre ++ x ++ space ++ y
               ++ match rest' with
                  | [] => []
                  | _ :: _ => space ++ join space rest'
                  end)
        with ((pre ++ x ++ space) ++ y
              ++ match rest' with
                 | [] => []
                 | _ :: _ => space ++ join space rest'
                 end)
        by by rewrite <-!app_assoc.
      rewrite tokenize_step_text; [| |by apply literal_nonempty|].
      * cbn [rbind].
        destruct (blank_rest rest') as (pre' & Hpre' & ->).
        destruct (IH rest' pre' (acc ++ [pre ++ x ++ space; y])
                    ltac:(simpl in Hn; lia) Hpre' Hwf)
          as (toks & cur & -> & Hparse).
        exists toks, cur. split; [done|]. rewrite Hparse.
        rewrite omap_app, !omap_cons.
        rewrite (app_assoc pre x space), keep_parsed_space_r by done.
        rewrite keep_parsed_blank_operand, keep_parsed_literal by done.
        by rewrite <-app_assoc.
      * destruct x; [done|]. by destruct Hpre as [-> | ->].
      * apply no_match_one; [done|].
        rewrite (app_assoc pre x space), no_match_app.
        apply andb_true_iff. split.
        -- apply no_match_blank_operand; [done..|].
           apply space_not_in_literals.
        -- by apply no_match_space_literal.
Qed.

(** The tokens of a query written with single spaces are its items. *)
Lemma tokenize_spaced (items : list pystr) :
  well_spaced self items → _tokenize self (join space items) = Ok items.
Proof.
  intros Hwf. unfold _tokenize, findall. rewrite pattern_literals.
  pose proof (findall_spaced items [] ltac:(by left) Hwf) as Hfind.
  cbn [app] in Hfind. rewrite Hfind.
  destruct (loop_spaced (length items) items [] [] ltac:(done)
              ltac:(by left) Hwf) as (toks & cur & Hloop & Hparse).
  cbn [app] in Hloop. rewrite Hloop. cbn [rbind].
  destruct cur; rewrite ?app_nil_r in Hparse; by rewrite Hparse.
Qed.

End spaced.

End SpacedFacts.

(** ** Disjunctions of conjunctions *)

Module DnfFacts.

Section dnf.
Variables (self : LogQuerier) (log : pystr) (ci : bool).
Local Abbreviation d := (operationo_dict self).
Local Abbreviation f := (operand_in_log log ci).

Lemma lookup_after (front back : list pystr) :
  (front ++ back) !! length front = head back.
Proof.
  rewrite lookup_app_r by done. rewrite Nat.sub_diag. by destruct back.
Qed.

Lemma and_loop_group (T : list pystr) (g front back : list pystr) (b : bool) :
  T = front ++ and_tail self g ++ back →
  Forall (plain self) g → head back ≠ Some (AND d) →
  ∃ n0, ∀ n, n0 ≤ n →
    and_loop self T log ci n b (length front)
    = Some (Ok (b && forallb f g, length front + length (and_tail self g))).
Proof.
  revert front b. induction g as [|y g IH]; intros front b HT Hg Hback.
  - exists 1. intros [|n] Hn; [lia|]. cbn [and_tail map concat app] in *.
    rewrite and_loop_exit.
    + cbn [forallb length]. by rewrite andb_true_r, Nat.add_0_r.
    + by rewrite HT, lookup_after.
  - apply Forall_cons in Hg as [Hy Hg].
    destruct Hy as (HLP & HNOT & HINV & HAND & HOR).
    destruct (IH (front ++ [AND d; y]) (b && f y)) as [n0 IHn]; [|done..|].
    { rewrite HT. cbn [and_tail map concat app]. by rewrite <-app_assoc. }
    exists (S (S n0)). intros [|[|n]] Hn; [lia..|].
    rewrite and_loop_continue; last first.
    { rewrite HT. by apply list_lookup_middle. }
    erewrite eval_next_operand; [|rewrite HT|done..]; last first.
    { cbn [and_tail map concat app]. rewrite lookup_app_r by lia.
      by replace (length front + 1 - length front) with 1 by lia. }
    cbn [fbind]. specialize (IHn (S n) ltac:(lia)).
    rewrite length_app in IHn. cbn [length] in IHn.
    replace (length front + 1 + 1) with (length front + 2) by lia.
    rewrite IHn. cbn [forallb and_tail map concat app length].
    rewrite andb_assoc. do 3 f_equal. unfold and_tail. lia.
Qed.

Lemma eval_and_group (T : list pystr) (g front back : list pystr) :
  T = front ++ and_tokens self g ++ back →
  g ≠ [] → Forall (plain self) g → head back ≠ Some (AND d) →
  ∃ n0, ∀ n, n0 ≤ n →
    eval_and self T log ci n (length front)
    = Some (Ok (forallb f g, length front + length (and_tokens self g))).
Proof.
  intros HT Hne Hg Hback. destruct g as [|x g]; [done|].
  apply Forall_cons in Hg as [Hx Hg].
  destruct Hx as (HLP & HNOT & HINV & HAND & HOR).
  destruct (and_loop_group T g (front ++ [x]) back (f x)) as [n0 Hn0];
    [|done..|].
  { rewrite HT. cbn [and_tokens app]. by rewrite <-app_assoc. }
  exists (S (S n0)). intros [|[|n]] Hn; [lia..|].
  rewrite eval_and_unfold.
  erewrite eval_next_operand; [|rewrite HT|done..]; last first.
  { by apply list_lookup_middle. }
  cbn [fbind]. specialize (Hn0 (S n) ltac:(lia)).
  rewrite length_app in Hn0. cbn [length] in Hn0. rewrite Hn0.
  cbn [forallb and_tokens length]. do 3 f_equal. lia.
Qed.

Lemma head_or_tail (gs : list (list pystr)) (back : list pystr) :
  AND d ≠ OR d → head back ≠ Some (AND d) →
  head (or_tail self gs ++ back) ≠ Some (AND d).
Proof.
  intros Hne Hback. destruct gs as [|g gs]; [done|].
  cbn. congruence.
Qed.

Lemma or_loop_groups (T : list pystr) (gs : list (list pystr))
    (front back : list pystr) (b : bool) :
  T = front ++ or_tail self gs ++ back →
  AND d ≠ OR d → plain_groups self gs →
  head back ≠ Some (AND d) → head back ≠ Some (OR d) →
  ∃ n0, ∀ n, n0 ≤ n →
    or_loop self T log ci n b (length front)
    = Some (Ok (b || dnf_value log ci gs,
                length front + length (or_tail self gs))).
Proof.
  intros HT Hne Hgs Hand Hor. revert front b HT.
  induction gs as [|g gs IH]; intros front b HT.
  - exists 1. intros [|n] Hn; [lia|]. cbn [or_tail map concat app] in *.
    rewrite or_loop_exit.
    + cbn [dnf_value existsb length]. by rewrite orb_false_r, Nat.add_0_r.
    + by rewrite HT, lookup_after.
  - apply Forall_cons in Hgs as [[Hg Hplain] Hgs].
    destruct (eval_and_group T g (front ++ [OR d])
                (or_tail self gs ++ back)) as [n1 Hn1];
      [|done|done|by apply head_or_tail|].
    { rewrite HT. cbn [or_tail map concat app]. by rewrite <-!app_assoc. }
    destruct (IH Hgs (front ++ [OR d] ++ and_tokens self g)
                (b || forallb f g)) as [n2 Hn2].
    { rewrite HT. cbn [or_tail map concat app]. by rewrite <-!app_assoc. }
    exists (S (n1 + n2)). intros [|n] Hn; [lia|].
    rewrite or_loop_continue; last first.
    { rewrite HT. by apply list_lookup_middle. }
    specialize (Hn1 n ltac:(lia)). rewrite length_app in Hn1.
    cbn [length] in Hn1. rewrite Hn1. cbn [fbind].
    specialize (Hn2 n ltac:(lia)). rewrite !length_app in Hn2.
    cbn [length] in Hn2.
    replace (length front + 1 + length (and_tokens self g))
      with (length front + (1 + length (and_tokens self g))) by lia.
    rewrite Hn2. cbn [dnf_value existsb or_tail map concat].
    rewrite orb_assoc. do 3 f_equal.
    rewrite length_app. cbn [length]. unfold or_tail. lia.
Qed.

(** [eval_or] on the tokens of a disjunction of conjunctions, after
    [front] and before [back]. *)
Lemma eval_or_dnf (T : list pystr) (gs : list (list pystr))
    (front back : list pystr) :
  T = front ++ dnf_tokens self gs ++ back →
  gs ≠ [] → AND d ≠ OR d → plain_groups self gs →
  head back ≠ Some (AND d) → head back ≠ Some (OR d) →
  ∃ n0, ∀ n, n0 ≤ n →
    eval_or self T log ci n (length front)
    = Some (Ok (dnf_value log ci gs,
                length front + length (dnf_tokens self gs))).
Proof.
  intros HT Hgne Hne Hgs Hand Hor. destruct gs as [|g gs]; [done|].
  apply Forall_cons in Hgs as [[Hg Hplain] Hgs].
  destruct (eval_and_group T g front (or_tail self gs ++ back))
    as [n1 Hn1]; [|done|done|by apply head_or_tail|].
  { rewrite HT. cbn [dnf_tokens]. by rewrite <-app_assoc. }
  destruct (or_loop_groups T gs (front ++ and_tokens self g) back
              (forallb f g)) as [n2 Hn2]; [|done..|].
  { rewrite HT. cbn [dnf_tokens]. by rewrite <-!app_assoc. }
  exists (S (n1 + n2)). intros [|n] Hn; [lia|].
  rewrite eval_or_unfold, Hn1 by lia. cbn [fbind].
  specialize (Hn2 n ltac:(lia)). rewrite length_app in Hn2. rewrite Hn2.
  cbn [dnf_value existsb dnf_tokens]. do 3 f_equal.
  rewrite length_app. lia.
Qed.

End dnf.

End DnfFacts.

Module DnfQueryFacts.
Import DefaultFacts.

Section dnf_query.
Variable l : loc.
Local Abbreviation self := (default_querier l).

Lemma well_spaced_and_tail (g rest : list pystr) :
  Forall (operand self) g → well_spaced self rest → next_is_operator rest →
  well_spaced self (and_tail self g ++ rest)
  ∧ next_is_operator (and_tail self g ++ rest).
Proof.
  intros Hg Hrest Hnext. induction g as [|y g IH]; [done|].
  apply Forall_cons in Hg as [Hy Hg]. destruct (IH Hg) as [IH1 IH2].
  split; [|by repeat constructor].
  cbn [and_tail map concat app well_spaced].
  split; [left; by repeat constructor|].
  split; [|done]. right. split; [done|].
  fold (and_tail self g). by destruct (and_tail self g ++ rest).
Qed.

Lemma well_spaced_and_tokens (g rest : list pystr) :
  Forall (operand self) g → well_spaced self rest → next_is_operator rest →
  well_spaced self (and_tokens self g ++ rest).
Proof.
  intros Hg Hrest Hnext. destruct g as [|x g]; [done|].
  apply Forall_cons in Hg as [Hx Hg].
  destruct (well_spaced_and_tail g rest Hg Hrest Hnext) as [H1 H2].
  cbn [and_tokens app well_spaced]. split; [|done]. right. split; [done|].
  by destruct (and_tail self g ++ rest).
Qed.

Lemma well_spaced_or_tail (gs : list (list pystr)) :
  operand_groups self gs →
  well_spaced self (or_tail self gs) ∧ next_is_operator (or_tail self gs).
Proof.
  intros Hgs. induction gs as [|g gs IH]; [done|].
  apply Forall_cons in Hgs as [[Hne Hg] Hgs]. destruct (IH Hgs) as [IH1 IH2].
  split; [|by repeat constructor].
  cbn [or_tail map concat well_spaced].
  split; [left; by repeat constructor|].
  by apply well_spaced_and_tokens.
Qed.

Lemma well_spaced_dnf_tokens (gs : list (list pystr)) :
  operand_groups self gs → well_spaced self (dnf_tokens self gs).
Proof.
  intros Hgs. destruct gs as [|g gs]; [done|].
  apply Forall_cons in Hgs as [[Hne Hg] Hgs].
  destruct (well_spaced_or_tail gs Hgs).
  by apply well_spaced_and_tokens.
Qed.

Lemma operand_groups_plain (gs : list (list pystr)) :
  operand_groups self gs → plain_groups self gs.
Proof.
  intros Hgs. eapply Forall_impl; [exact Hgs|].
  intros g [Hne Hg]. split; [done|].
  eapply Forall_impl; [exact Hg|]. intros x Hx. by apply operand_plain.
Qed.

End dnf_query.

End DnfQueryFacts.

(** X11: for the default querier, a query written as operator literals
    and operands with one space between them, no two operands next to
    each other, has exactly these items as its tokens. *)
Theorem X11_spaced_query_tokens (l : loc) (items : list pystr) :
  well_spaced (default_querier l) items →
  _tokenize (default_querier l) (Str.join space items) = Ok items.
Proof. apply SpacedFacts.tokenize_spaced. Qed.

Lemma X11_spaced_query_tokens_witness :
  _tokenize (default_querier 1)
    (Str.join space [str "a"; str "&&"; str "(("; str "b"; str "||";
                     str "!!"; str "c"; str "))"])
  = Ok [str "a"; str "&&"; str "(("; str "b"; str "||"; str "!!"; str "c";
        str "))"].
Proof.
  apply (X11_spaced_query_tokens 1%positive
           [str "a"; str "&&"; str "(("; str "b"; str "||"; str "!!";
            str "c"; str "))"]).
  cbn [well_spaced].
  repeat split;
    first [ left; by repeat constructor
          | right; split;
            [apply OperandFacts.operand_intro; (discriminate || reflexivity)
            |by repeat constructor] ].
Defined.

(** X12: the tokens of a disjunction of conjunctions of operands evaluate
    to the disjunction of the conjunctions of the containment tests, for
    every number of conjunctions and of operands: AND binds tighter than
    OR and both are evaluated from the left.  Tokens that follow, when the
    first of them is not AND or OR, are never looked at. *)
Theorem X12_disjunction_of_conjunctions (self : LogQuerier)
    (gs : list (list pystr)) (back : list pystr) (log : pystr) (ci : bool) :
  gs ≠ [] →
  AND (operationo_dict self) ≠ OR (operationo_dict self) →
  plain_groups self gs →
  head back ≠ Some (AND (operationo_dict self)) →
  head back ≠ Some (OR (operationo_dict self)) →
  _evaluate_tokens self (dnf_tokens self gs ++ back) log ci 0
  = Ok (dnf_value log ci gs).
Proof.
  intros Hne Hd Hgs Hand Hor.
  destruct (DnfFacts.eval_or_dnf self log ci (dnf_tokens self gs ++ back)
              gs [] back eq_refl Hne Hd Hgs Hand Hor) as [n0 Hn0].
  by rewrite (_evaluate_tokens_any_depth _ _ _ _ n0 0 _ (Hn0 n0 ltac:(done))).
Qed.

Lemma X12_disjunction_of_conjunctions_witness :
  _evaluate_tokens (default_querier 1)
    (dnf_tokens (default_querier 1)
       [[str "error"; str "disk"]; [str "warn"]]
     ++ [str "))"; str "x"])
    (str "warn: disk slow") false 0
  = Ok (dnf_value (str "warn: disk slow") false
          [[str "error"; str "disk"]; [str "warn"]]).
Proof.
  apply (X12_disjunction_of_conjunctions (default_querier 1)
           [[str "error"; str "disk"]; [str "warn"]] [str "))"; str "x"]
           (str "warn: disk slow") false).
  - discriminate.
  - discriminate.
  - apply DnfQueryFacts.operand_groups_plain.
    repeat constructor; try discriminate;
      apply OperandFacts.operand_intro; (discriminate || reflexivity).
  - discriminate.
  - discriminate.
Defined.

(** X13: for the default querier, the query that writes a disjunction of
    conjunctions of operands with [&&], [||] and single spaces evaluates,
    on every line, to the disjunction of the conjunctions of the
    containment tests. *)
Theorem X13_query_in_normal_form (l : loc) (gs : list (list pystr))
    (log : pystr) (ci : bool) :
  gs ≠ [] → operand_groups (default_querier l) gs →
  evaluate_query (default_querier l)
    (Str.join space (dnf_tokens (default_querier l) gs)) log ci
  = Ok (dnf_value log ci gs).
Proof.
  intros Hne Hgs. unfold evaluate_query.
  rewrite SpacedFacts.tokenize_spaced
    by by apply DnfQueryFacts.well_spaced_dnf_tokens.
  cbn [rbind].
  destruct (DnfFacts.eval_or_dnf (default_querier l) log ci
              (dnf_tokens (default_querier l) gs) gs [] []) as [n0 Hn0];
    [by rewrite app_nil_r|done|done
    |by apply DnfQueryFacts.operand_groups_plain|done|done|].
  by rewrite (_evaluate_tokens_any_depth _ _ _ _ n0 0 _ (Hn0 n0 ltac:(done))).
Qed.

Lemma X13_query_in_normal_form_witness :
  evaluate_query (default_querier 1)
    (Str.join space
       (dnf_tokens (default_querier 1)
          [[str "error"; str "disk"]; [str "warn"]; [str "info"]]))
    (str "warn: disk slow") true
  = Ok (dnf_value (str "warn: disk slow") true
          [[str "error"; str "disk"]; [str "warn"]; [str "info"]]).
Proof.
  apply (X13_query_in_normal_form 1%positive
           [[str "error"; str "disk"]; [str "warn"]; [str "info"]]
           (str "warn: disk slow") true).
  - discriminate.
  - repeat constructor; try discriminate;
      apply OperandFacts.operand_intro; (discriminate || reflexivity).
Defined.

(** X14: a disjunction of conjunctions in parentheses has the value it
    has without them, and a missing right parenthesis is not an error:
    the tokens evaluate to the same value with and without the closing
    token. *)
Theorem X14_parentheses_closed_or_not (self : LogQuerier)
    (gs : list (list pystr)) (log : pystr) (ci : bool) :
  gs ≠ [] →
  AND (operationo_dict self) ≠ OR (operationo_dict self) →
  RIGHT_PARENTHESIS (operationo_dict self) ≠ AND (operationo_dict self) →
  RIGHT_PARENTHESIS (operationo_dict self) ≠ OR (operationo_dict self) →
  plain_groups self gs →
  _evaluate_tokens self
    (LEFT_PARENTHESIS (operationo_dict self) :: dnf_tokens self gs
     ++ [RIGHT_PARENTHESIS (operationo_dict self)]) log ci 0
  = Ok (dnf_value log ci gs)
  ∧ _evaluate_tokens self
      (LEFT_PARENTHESIS (operationo_dict self) :: dnf_tokens self gs)
      log ci 0
    = Ok (dnf_value log ci gs).
Proof.
  intros Hne Hd HRa HRo Hgs.
  assert (∀ back,
            head back ≠ Some (AND (operationo_dict self)) →
            head back ≠ Some (OR (operationo_dict self)) →
            length back ≤ 1 →
            _evaluate_tokens self
              (LEFT_PARENTHESIS (operationo_dict self) :: dnf_tokens self gs
               ++ back) log ci 0
            = Ok (dnf_value log ci gs)) as H.
  { intros back Hand Hor Hlen.
    set (T := LEFT_PARENTHESIS (operationo_dict self) :: dnf_tokens self gs
              ++ back).
    destruct (DnfFacts.eval_or_dnf self log ci T gs
                [LEFT_PARENTHESIS (operationo_dict self)] back
                eq_refl Hne Hd Hgs Hand Hor) as [n0 Hn0].
    specialize (Hn0 n0 ltac:(done)). cbn [length] in Hn0.
    assert (∀ p, 1 + length (dnf_tokens self gs) + 1 ≤ p → T !! p = None)
      as Hend.
    { intros p Hp. apply lookup_ge_None. unfold T.
      cbn [length]. rewrite length_app. lia. }
    rewrite (_evaluate_tokens_any_depth _ _ _ _ (S (S (S n0))) 0
               (Ok (dnf_value log ci gs,
                    1 + length (dnf_tokens self gs) + 1))); [done|].
    rewrite eval_or_unfold, eval_and_unfold.
    rewrite eval_next_parenthesis by done.
    cbn [Nat.add] in Hn0 |- *. rewrite Hn0. cbn [fbind].
    rewrite and_loop_exit_end by (apply Hend; lia). cbn [fbind].
    by rewrite or_loop_exit_end by (apply Hend; lia). }
  split.
  - apply H; [cbn; congruence..|done].
  - specialize (H [] ltac:(done) ltac:(done) ltac:(simpl; lia)).
    by rewrite app_nil_r in H.
Qed.

Lemma X14_parentheses_closed_or_not_witness :
  let self := default_querier 1 in
  let gs := [[str "error"; str "disk"]; [str "warn"]] in
  _evaluate_tokens self
    (LEFT_PARENTHESIS (operationo_dict self) :: dnf_tokens self gs
     ++ [RIGHT_PARENTHESIS (operationo_dict self)])
    (str "warn: disk slow") false 0
  = Ok (dnf_value (str "warn: disk slow") false gs)
  ∧ _evaluate_tokens self
      (LEFT_PARENTHESIS (operationo_dict self) :: dnf_tokens self gs)
      (str "warn: disk slow") false 0
    = Ok (dnf_value (str "warn: disk slow") false gs).
Proof.
  apply (X14_parentheses_closed_or_not (default_querier 1)
           [[str "error"; str "disk"]; [str "warn"]]
           (str "warn: disk slow") false).
  - discriminate.
  - discriminate.
  - discriminate.
  - discriminate.
  - apply DnfQueryFacts.operand_groups_plain.
    repeat constructor; try discriminate;
      apply OperandFacts.operand_intro; (discriminate || reflexivity).
Defined.

Module GroupingFacts.
Import DefaultFacts.

Section grouping.
Variable l : loc.
Local Abbreviation self := (default_querier l).

Lemma evaluate_and_group (A B C log : pystr) (ci : bool) :
  operand self A → operand self B → operand self C →
  _evaluate_tokens self
    [A; str "&&"; str "(("; B; str "||"; C; str "))"] log ci 0
  = Ok (operand_in_log log ci A
        && (operand_in_log log ci B || operand_in_log log ci C)).
Proof.
  intros (HLPa & HNOTa & HINVa & HANDa & HORa)%operand_plain.
  intros (HLPb & HNOTb & HINVb & HANDb & HORb)%operand_plain.
  intros (HLPc & HNOTc & HINVc & HANDc & HORc)%operand_plain.
  unfold _evaluate_tokens, depth. cbn [length Nat.sub Nat.mul Nat.add].
  repeat eval_step. done.
Qed.

Lemma evaluate_not_and (A B log : pystr) (ci : bool) :
  operand self A → operand self B →
  _evaluate_tokens self [str "!!"; A; str "&&"; B] log ci 0
  = Ok (negb (operand_in_log log ci A) && operand_in_log log ci B).
Proof.
  intros (HLPa & HNOTa & HINVa & HANDa & HORa)%operand_plain.
  intros (HLPb & HNOTb & HINVb & HANDb & HORb)%operand_plain.
  unfold _evaluate_tokens, depth. cbn [length Nat.sub Nat.mul Nat.add].
  repeat eval_step. done.
Qed.

Lemma evaluate_not_group (A B log : pystr) (ci : bool) :
  operand self A → operand self B →
  _evaluate_tokens self
    [str "!!"; str "(("; A; str "&&"; B; str "))"] log ci 0
  = Ok (negb (operand_in_log log ci A && operand_in_log log ci B)).
Proof.
  intros (HLPa & HNOTa & HINVa & HANDa & HORa)%operand_plain.
  intros (HLPb & HNOTb & HINVb & HANDb & HORb)%operand_plain.
  unfold _evaluate_tokens, depth. cbn [length Nat.sub Nat.mul Nat.add].
  repeat eval_step. done.
Qed.

Lemma well_spaced_operand (x : pystr) (rest : list pystr) :
  operand self x → next_is_operator rest → well_spaced self rest →
  well_spaced self (x :: rest).
Proof. intros Hx Hnext Hrest. split; [|done]. right. by destruct rest. Qed.

Lemma well_spaced_literal (y : pystr) (rest : list pystr) :
  y ∈ default_literals → well_spaced self rest →
  well_spaced self (y :: rest).
Proof. intros Hy Hrest. split; [by left|done]. Qed.

End grouping.

End GroupingFacts.

Ltac well_spaced_items :=
  repeat first
    [ exact I
    | apply GroupingFacts.well_spaced_literal; [by repeat constructor|]
    | apply GroupingFacts.well_spaced_operand;
      [done|by repeat constructor|] ].

(** X15: for the default querier, parentheses override the precedence:
    on operands the query [A && (( B || C ))] evaluates to
    A in line and (B in line or C in line). *)
Theorem X15_grouping_overrides_precedence (l : loc) (A B C log : pystr)
    (ci : bool) :
  operand (default_querier l) A →
  operand (default_querier l) B →
  operand (default_querier l) C →
  evaluate_query (default_querier l)
    (Str.join space [A; str "&&"; str "(("; B; str "||"; C; str "))"])
    log ci
  = Ok (operand_in_log log ci A
        && (operand_in_log log ci B || operand_in_log log ci C)).
Proof.
  intros HA HB HC. unfold evaluate_query.
  rewrite SpacedFacts.tokenize_spaced by well_spaced_items.
  cbn [rbind]. by apply GroupingFacts.evaluate_and_group.
Qed.

Lemma X15_grouping_overrides_precedence_witness :
  evaluate_query (default_querier 1)
    (Str.join space [str "disk"; str "&&"; str "(("; str "full"; str "||";
                     str "slow"; str "))"])
    (str "warn: disk slow") false
  = Ok (operand_in_log (str "warn: disk slow") false (str "disk")
        && (operand_in_log (str "warn: disk slow") false (str "full")
            || operand_in_log (str "warn: disk slow") false (str "slow"))).
Proof.
  apply (X15_grouping_overrides_precedence 1%positive (str "disk")
           (str "full") (str "slow") (str "warn: disk slow") false);
    apply OperandFacts.operand_intro; (discriminate || reflexivity).
Defined.

(** X16: for the default querier, NOT applies to the one term that
    follows it: on operands the query [!! A && B] evaluates to
    (not A in line) and B in line, and the query [!! (( A && B ))] to
    not (A in line and B in line). *)
Theorem X16_not_takes_one_term (l : loc) (A B log : pystr) (ci : bool) :
  operand (default_querier l) A →
  operand (default_querier l) B →
  evaluate_query (default_querier l)
    (Str.join space [str "!!"; A; str "&&"; B]) log ci
  = Ok (negb (operand_in_log log ci A) && operand_in_log log ci B)
  ∧ evaluate_query (default_querier l)
      (Str.join space [str "!!"; str "(("; A; str "&&"; B; str "))"]) log ci
    = Ok (negb (operand_in_log log ci A && operand_in_log log ci B)).
Proof.
  intros HA HB. unfold evaluate_query. split.
  - rewrite SpacedFacts.tokenize_spaced by well_spaced_items.
    cbn [rbind]. by apply GroupingFacts.evaluate_not_and.
  - rewrite SpacedFacts.tokenize_spaced by well_spaced_items.
    cbn [rbind]. by apply GroupingFacts.evaluate_not_group.
Qed.

Lemma X16_not_takes_one_term_witness :
  evaluate_query (default_querier 1)
    (Str.join space [str "!!"; str "error"; str "&&"; str "disk"])
    (str "warn: disk slow") false
  = Ok (negb (operand_in_log (str "warn: disk slow") false (str "error"))
        && operand_in_log (str "warn: disk slow") false (str "disk"))
  ∧ evaluate_query (default_querier 1)
      (Str.join space [str "!!"; str "(("; str "error"; str "&&";
                       str "disk"; str "))"])
      (str "warn: disk slow") false
    = Ok (negb (operand_in_log (str "warn: disk slow") false (str "error")
                && operand_in_log (str "warn: disk slow") false
                     (str "disk"))).
Proof.
  apply (X16_not_takes_one_term 1%positive (str "error") (str "disk")
           (str "warn: disk slow") false);
    apply OperandFacts.operand_intro; (discriminate || reflexivity).
Defined.

Module CaseFacts.
Import Str.

Lemma startswith_map (g : ascii → ascii) (p s : pystr) :
  startswith p s = true → startswith (map g p) (map g s) = true.
Proof.
  revert s. induction p as [|a p IH]; intros [|b s]; simpl; try done.
  intros [Hab Hp]%andb_true_iff. apply bool_decide_eq_true in Hab as ->.
  rewrite bool_decide_eq_true_2 by done. by apply IH.
Qed.

Lemma contains_map (g : ascii → ascii) (p s : pystr) :
  contains p s = true → contains (map g p) (map g s) = true.
Proof.
  induction s as [|b s IH]; simpl.
  - rewrite !orb_false_r. apply (startswith_map g p []).
  - intros [H|H]%orb_true_iff; apply orb_true_iff.
    + left. by apply (startswith_map g p (b :: s)).
    + right. by apply IH.
Qed.

(** A line that contains the operand contains it when case is ignored. *)
Lemma operand_in_log_case (log token : pystr) :
  operand_in_log log false token = true →
  operand_in_log log true token = true.
Proof. unfold operand_in_log, lower. apply contains_map. Qed.

Lemma filter_sublist {A} (P Q : A → bool) (xs : list A) :
  (∀ x, P x = true → Q x = true) →
  sublist (List.filter P xs) (List.filter Q xs).
Proof.
  intros H. induction xs as [|x xs IH]; simpl; [constructor|].
  destruct (P x) eqn:HP.
  - rewrite (H x HP). by constructor.
  - destruct (Q x); [by constructor|done].
Qed.

(** The result of a query in which no operator occurs. *)
Lemma query_plain (lg : loc) (raw : OperationDict)
    (quote q ordering : pystr) (ci : bool) (st : state)
    (corpus : list pystr) :
  heap st !! lg = Some corpus →
  free_of (values (operationo_dict (__init__ lg raw quote))) q →
  plain_token (__init__ lg raw quote)
    (parse_quoted_token (__init__ lg raw quote) q) →
  returned (query (__init__ lg raw quote) q None ordering ci st)
  = Ok (List.filter
          (λ log, operand_in_log log ci
                    (parse_quoted_token (__init__ lg raw quote) q))
          corpus).
Proof.
  intros Hcorpus Hfree (HLP & HNOT & HINV).
  rewrite QueryFacts.query_unfold.
  rewrite (PlainQueryFacts.tokenize_free lg raw quote q Hfree).
  set (self := __init__ lg raw quote) in *.
  destruct (parse_quoted_token self q) as [|a t'] eqn:Et.
  - rewrite QueryFacts.limit_logs_none. unfold returned.
    change (logs self) with lg. rewrite Hcorpus. cbn [default].
    rewrite SelectFacts.filter_all; [done|].
    intros. apply PlainQueryFacts.operand_in_log_nil.
  - unfold bind at 1. unfold load at 1.
    change (logs self) with lg. rewrite Hcorpus. cbn [default].
    unfold bind at 1.
    rewrite (QueryFacts.comprehension_filter _ _ _
               (λ log, operand_in_log log ci (a :: t'))); last first.
    { intros log _. by apply PlainQueryFacts.evaluate_single. }
    unfold bind at 1. unfold alloc at 1.
    rewrite QueryFacts.limit_logs_none. cbn [heap].
    unfold returned. cbn [heap]. by rewrite lookup_insert_eq.
Qed.

End CaseFacts.

(** X17: on texts of the code points 0 to 255, where [str.lower] works
    character by character, for a querier made from a dictionary of
    escaped literals and a query in which no operator occurs (and whose
    text is not taken for an operator), the lines returned when case
    matters are among the lines returned when case is ignored, in the
    same order. *)
Theorem X17_case_flag_returns_more (lg : loc) (raw : OperationDict)
    (quote q ordering : pystr) (st : state) (corpus : list pystr) :
  let self := __init__ lg raw quote in
  escaped_dict raw →
  heap st !! lg = Some corpus →
  free_of (values (operationo_dict self)) q →
  plain_token self (parse_quoted_token self q) →
  ∃ exact ignoring,
    returned (query self q None ordering false st) = Ok exact
    ∧ returned (query self q None ordering true st) = Ok ignoring
    ∧ sublist exact ignoring.
Proof.
  intros self _ Hcorpus Hfree Hplain. eexists _, _.
  split; [by apply CaseFacts.query_plain|].
  split; [by apply CaseFacts.query_plain|].
  apply CaseFacts.filter_sublist. intros log.
  apply CaseFacts.operand_in_log_case.
Qed.

Lemma X17_case_flag_returns_more_witness :
  let self := __init__ 1 OPERATION_DICT QUOTE_STRING in
  ∃ exact ignoring,
    returned (query self (str "ERROR") None (str "asc") false
                (corpus_state scenario)) = Ok exact
    ∧ returned (query self (str "ERROR") None (str "asc") true
                  (corpus_state scenario)) = Ok ignoring
    ∧ sublist exact ignoring.
Proof.
  apply (X17_case_flag_returns_more 1%positive OPERATION_DICT QUOTE_STRING
           (str "ERROR") (str "asc") (corpus_state scenario) scenario).
  - split; [apply Permutation_refl|]. by repeat constructor.
  - reflexivity.
  - intros lit Hl. apply list_elem_of_In in Hl.
    assert (forallb (λ lit, negb (Str.contains lit (str "ERROR")))
              (values (operationo_dict
                         (__init__ 1 OPERATION_DICT QUOTE_STRING))) = true)
      as Hf by reflexivity.
    rewrite forallb_forall in Hf. by apply negb_true_iff, Hf.
  - split; [discriminate|]. split; [discriminate|].
    intros H. apply elem_of_INVALID_EVAL_OPERATION_SET in H.
    destruct H as [H|[H|H]]; discriminate H.
Defined.

(** * The retry decorator *)

Section retry_facts.
Context {E R D : Type}.
Variable uniform : nat → D → D → D.
Variable exponential : nat → D → Z → D → option D → bool → D.
Variable sleeps : D → bool.
Variable cfg : retry_config E R D.
Variable func : nat → E + R.

Local Abbreviation loop := (wrapper_loop uniform exponential sleeps cfg func).
Local Abbreviation run := (wrapper uniform exponential sleeps cfg func).
Local Abbreviation retried_all :=
  (all_retried uniform exponential cfg func).
Local Abbreviation slept := (Forall (λ d, sleeps d = true)).

Lemma loop_stop (fuel attempts : nat) (trace : list (retry_event D)) :
  ¬ (Z.of_nat attempts < max_attempts cfg)%Z →
  loop fuel attempts trace = Some (ReturnedNone, trace).
Proof. intros H. destruct fuel; simpl; by rewrite bool_decide_eq_false_2. Qed.

Lemma loop_return (fuel attempts : nat) (trace : list (retry_event D))
    (result : R) :
  (Z.of_nat attempts < max_attempts cfg)%Z →
  func attempts = inr result →
  asks_retry cfg result = false →
  loop (S fuel) attempts trace
  = Some (Returned result, trace ++ [Called (attempts + 1)]).
Proof.
  intros Hlt Hfunc Hask. cbn [wrapper_loop].
  rewrite bool_decide_eq_true_2 by done. cbv zeta.
  by rewrite Nat.add_sub, Hfunc, Hask.
Qed.

Lemma loop_except (fuel attempts : nat) (trace : list (retry_event D))
    (e : retry_exn E) :
  (Z.of_nat attempts < max_attempts cfg)%Z →
  caught cfg func (attempts + 1) = Some e →
  loop (S fuel) attempts trace
  = if gives_up cfg e
    then Some (Raised e, trace ++ [Called (attempts + 1)])
    else if bool_decide (Z.of_nat (attempts + 1) < max_attempts cfg)%Z
    then match final_delay uniform exponential cfg (attempts + 1) with
         | inl error => Some (Raised error, trace ++ [Called (attempts + 1)])
         | inr d =>
             if sleeps d
             then loop fuel (attempts + 1)
                    ((trace ++ [Called (attempts + 1)]) ++ [Slept d])
             else Some (Raised SleepError,
                        (trace ++ [Called (attempts + 1)]) ++ [Slept d])
         end
    else Some (Raised e, trace ++ [Called (attempts + 1)]).
Proof.
  intros Hlt Hcaught. cbn [wrapper_loop].
  rewrite bool_decide_eq_true_2 by done. cbv zeta.
  unfold caught in Hcaught.
  destruct (func (attempts + 1 - 1)) as [e'|result].
  - by injection Hcaught as ->.
  - destruct (asks_retry cfg result); [|done]. by injection Hcaught as <-.
Qed.

(** The attempts that are retried, each followed by a sleep that
    returns: the loop goes through them. *)
Lemma loop_retried (delays : list D) (first fuel : nat)
    (trace : list (retry_event D)) :
  retried_all first delays →
  slept delays →
  loop (length delays + fuel) first trace
  = loop fuel (first + length delays) (trace ++ rounds first delays).
Proof.
  revert first trace. induction delays as [|d delays IH]; intros first trace.
  { intros _ _. cbn [length rounds Nat.add].
    by rewrite Nat.add_0_r, app_nil_r. }
  intros [(e & He & Hgive & Hlt & Hdelay) Hrest] [Hd Hslept]%Forall_cons.
  cbn [length Nat.add]. rewrite (loop_except _ _ _ e) by (done || lia).
  rewrite Hgive, bool_decide_eq_true_2, Hdelay, Hd by done.
  rewrite IH by done. cbn [rounds length].
  rewrite <-!app_assoc. f_equal. lia.
Qed.

Lemma fuel_split (n : nat) :
  (Z.of_nat n < max_attempts cfg)%Z →
  Z.to_nat (max_attempts cfg)
  = n + S (Z.to_nat (max_attempts cfg) - n - 1).
Proof. lia. Qed.

(** The exception of [time.sleep] comes from [time.sleep] only. *)
Lemma caught_not_sleep (attempt : nat) (e : retry_exn E) :
  caught cfg func attempt = Some e → e ≠ SleepError.
Proof.
  unfold caught. destruct (func (attempt - 1)) as [e'|result].
  - by intros [= <-].
  - destruct (asks_retry cfg result); [|done]. by intros [= <-].
Qed.

Lemma final_delay_not_sleep (attempt : nat) (error : retry_exn E) :
  final_delay uniform exponential cfg attempt = inl error →
  error ≠ SleepError.
Proof.
  unfold final_delay. repeat case_bool_decide; try done.
  - destruct (custom_delay_callback cfg); [done|]. by intros [= <-].
  - by intros [= <-].
Qed.

(** With a mode that gives no delay, no attempt is retried. *)
Lemma not_retried (delays : list D) :
  (∀ attempt d, final_delay uniform exponential cfg attempt ≠ inr d) →
  retried_all 0 delays → delays = [].
Proof.
  intros Hnone. destruct delays as [|d delays]; [done|].
  intros [(e & _ & _ & _ & Hdelay) _]. by apply Hnone in Hdelay.
Qed.

(** X18: with [max_attempts] zero or negative the decorated function is
    never called: the wrapper returns [None] at once, without a sleep. *)
Theorem X18_no_attempt_allowed :
  (max_attempts cfg ≤ 0)%Z →
  wrapper uniform exponential sleeps cfg func = Some (ReturnedNone, []).
Proof. intros H. apply loop_stop. lia. Qed.

(** X19: when the first attempts fail and are retried, each after a
    sleep that [time.sleep] accepts, and the next call, still within
    [max_attempts], returns a result that does not ask for a retry, the
    wrapper returns that result; the function was called once per
    attempt, with one sleep between two attempts and none after the
    last. *)
Theorem X19_returns_first_accepted_result (delays : list D) (result : R) :
  retried_all 0 delays →
  slept delays →
  (Z.of_nat (length delays) < max_attempts cfg)%Z →
  func (length delays) = inr result →
  asks_retry cfg result = false →
  run = Some (Returned result,
              rounds 0 delays ++ [Called (length delays + 1)]).
Proof.
  intros Hretried Hslept Hlt Hfunc Hask. unfold wrapper.
  rewrite (fuel_split (length delays)) by done.
  rewrite loop_retried by done. cbn [Nat.add app].
  by rewrite (loop_return _ _ _ result).
Qed.

(** X20: an exception for which [should_retry_on_exception] returns
    false is raised at once, without a sleep, whatever the number of
    attempts left (the attempts before it were retried, each after a
    sleep that [time.sleep] accepts).  The exception may be the
    [ValueError] of the result check: a result that asks for a retry is
    then not retried. *)
Theorem X20_gives_up_on_refused_exception (delays : list D)
    (e : retry_exn E) :
  retried_all 0 delays →
  slept delays →
  (Z.of_nat (length delays) < max_attempts cfg)%Z →
  caught cfg func (length delays + 1) = Some e →
  gives_up cfg e = true →
  run = Some (Raised e, rounds 0 delays ++ [Called (length delays + 1)]).
Proof.
  intros Hretried Hslept Hlt Hcaught Hgive. unfold wrapper.
  rewrite (fuel_split (length delays)) by done.
  rewrite loop_retried by done. cbn [Nat.add app].
  by rewrite (loop_except _ _ _ e), Hgive.
Qed.

(** X21: when the attempt number [max_attempts] is reached (the attempts
    before it were retried, each after a sleep that [time.sleep]
    accepts) and fails, its exception is raised without a sleep; when
    the failure is a result that asks for a retry, what is raised is the
    [ValueError] of the result check, and the result is not returned. *)
Theorem X21_last_attempt_raises (delays : list D) (e : retry_exn E) :
  retried_all 0 delays →
  slept delays →
  Z.of_nat (length delays + 1) = max_attempts cfg →
  caught cfg func (length delays + 1) = Some e →
  run = Some (Raised e, rounds 0 delays ++ [Called (length delays + 1)]).
Proof.
  intros Hretried Hslept Hlast Hcaught. unfold wrapper.
  rewrite (fuel_split (length delays)) by lia.
  rewrite loop_retried by done. cbn [Nat.add app].
  rewrite (loop_except _ _ _ e) by (done || lia).
  rewrite (bool_decide_eq_false_2 (_ < _)%Z) by lia.
  by destruct (gives_up cfg e).
Qed.

(** X22: when an attempt has failed, its exception is not refused and
    another attempt is allowed, a mode other than ['normal'],
    ['exponential'] and ['custom'] raises the [ValueError] of the invalid
    mode, and the mode ['custom'] without a callback raises its
    [ValueError], in place of the retry and without a sleep. *)
Theorem X22_delay_mode_checked_on_failure (delays : list D)
    (e : retry_exn E) :
  retried_all 0 delays →
  (Z.of_nat (length delays + 1) < max_attempts cfg)%Z →
  caught cfg func (length delays + 1) = Some e →
  gives_up cfg e = false →
  (delay_mode cfg ≠ str "normal" → delay_mode cfg ≠ str "exponential" →
   delay_mode cfg ≠ str "custom" →
   run = Some (Raised (InvalidDelayMode (delay_mode cfg)),
               rounds 0 delays ++ [Called (length delays + 1)]))
  ∧ (delay_mode cfg = str "custom" → custom_delay_callback cfg = None →
     run = Some (Raised CustomDelayWithoutCallback,
                 rounds 0 delays ++ [Called (length delays + 1)])).
Proof.
  intros Hretried Hlt Hcaught Hgive.
  assert ((∀ attempt d,
             final_delay uniform exponential cfg attempt ≠ inr d) →
          run
          = match final_delay uniform exponential cfg (length delays + 1)
            with
            | inl error =>
                Some (Raised error,
                      rounds 0 delays ++ [Called (length delays + 1)])
            | inr d => None
            end) as Hrun.
  { intros Hnone. rewrite (not_retried delays Hnone Hretried) in *.
    unfold wrapper. rewrite (fuel_split 0) by lia.
    cbn [Nat.add length rounds app] in *.
    rewrite (loop_except _ _ _ e) by (done || lia).
    rewrite Hgive, bool_decide_eq_true_2 by done.
    cbn [Nat.add app].
    destruct (final_delay uniform exponential cfg 1) as [error|d] eqn:Hd;
      [done|]. by apply Hnone in Hd. }
  split.
  - intros H1 H2 H3. rewrite Hrun.
    + unfold final_delay. by rewrite !bool_decide_eq_false_2.
    + intros attempt d. unfold final_delay.
      by rewrite !bool_decide_eq_false_2.
  - intros Hmode Hcallback. rewrite Hrun.
    + unfold final_delay. by rewrite Hmode, Hcallback.
    + intros attempt d. unfold final_delay. by rewrite Hmode, Hcallback.
Qed.

(** Every run of the loop: it stops at once, or it goes through attempts
    that are retried and ends at the next attempt, by its outcome or by
    the sleep that follows it. *)
Lemma loop_shape (fuel first : nat) (trace0 : list (retry_event D)) :
  Z.to_nat (max_attempts cfg) - first ≤ fuel →
  ∃ out trace,
    loop fuel first trace0 = Some (out, trace)
    ∧ ((¬ (Z.of_nat first < max_attempts cfg)%Z
        ∧ out = ReturnedNone ∧ trace = trace0)
       ∨ ∃ delays,
           retried_all first delays
           ∧ slept delays
           ∧ (Z.of_nat (first + length delays + 1) ≤ max_attempts cfg)%Z
           ∧ ((trace = trace0 ++ rounds first delays
                       ++ [Called (first + length delays + 1)]
               ∧ out ≠ ReturnedNone ∧ out ≠ Raised SleepError)
              ∨ ∃ d,
                  retried uniform exponential cfg func
                    (first + length delays + 1) d
                  ∧ sleeps d = false
                  ∧ out = Raised SleepError
                  ∧ trace = trace0 ++ rounds first delays
                            ++ [Called (first + length delays + 1);
                                Slept d])).
Proof.
  revert first trace0. induction fuel as [|fuel IH]; intros first trace0 Hfuel.
  { eexists _, _. split; [apply loop_stop; lia|]. left.
    repeat split; [lia|done..]. }
  destruct (decide (Z.of_nat first < max_attempts cfg)%Z) as [Hlt|Hge];
    last first.
  { eexists _, _. split; [by apply loop_stop|]. by left. }
  assert (∀ out : retry_outcome E R,
            out ≠ ReturnedNone → out ≠ Raised SleepError →
            ∃ delays,
              retried_all first delays
              ∧ slept delays
              ∧ (Z.of_nat (first + length delays + 1) ≤ max_attempts cfg)%Z
              ∧ ((trace0 ++ [Called (first + 1)]
                  = trace0 ++ rounds first delays
                    ++ [Called (first + length delays + 1)]
                  ∧ out ≠ ReturnedNone ∧ out ≠ Raised SleepError)
                 ∨ ∃ d,
                     retried uniform exponential cfg func
                       (first + length delays + 1) d
                     ∧ sleeps d = false
                     ∧ out = Raised SleepError
                     ∧ trace0 ++ [Called (first + 1)]
                       = trace0 ++ rounds first delays
                         ++ [Called (first + length delays + 1);
                             Slept d])) as Hnow.
  { intros out Hout Hout'. exists []. cbn [rounds length app all_retried].
    rewrite Nat.add_0_r. split; [done|]. split; [constructor|].
    split; [lia|]. by left. }
  assert (∀ e : retry_exn E, e ≠ SleepError →
            Raised e ≠ (ReturnedNone : retry_outcome E R)
            ∧ Raised e ≠ (Raised SleepError : retry_outcome E R))
    as Hraised.
  { intros e He. split; [done|]. by intros [= ->]. }
  destruct (caught cfg func (first + 1)) as [e|] eqn:Hcaught.
  - pose proof (caught_not_sleep _ _ Hcaught) as He.
    rewrite (loop_except _ _ _ e) by done.
    destruct (gives_up cfg e) eqn:Hgive.
    { eexists _, _. split; [done|]. right. by apply Hnow; apply Hraised. }
    case_bool_decide as Hnext; last first.
    { eexists _, _. split; [done|]. right. by apply Hnow; apply Hraised. }
    destruct (final_delay uniform exponential cfg (first + 1))
      as [error|d] eqn:Hdelay.
    { pose proof (final_delay_not_sleep _ _ Hdelay) as Herror.
      eexists _, _. split; [done|]. right.
      by apply Hnow; apply Hraised. }
    assert (retried uniform exponential cfg func (first + 1) d) as Hretried
      by (by exists e).
    destruct (sleeps d) eqn:Hsleeps; last first.
    { eexists _, _. split; [done|]. right. exists [].
      cbn [rounds length app all_retried]. rewrite Nat.add_0_r.
      split; [done|]. split; [constructor|]. split; [lia|].
      right. exists d. repeat split; try done.
      by rewrite <-app_assoc. }
    destruct (IH (first + 1)
                ((trace0 ++ [Called (first + 1)]) ++ [Slept d])
                ltac:(lia))
      as (out & trace & -> & [(Hstop & _)|(delays & Hall & Hslept & Hle
                                           & Hend)]);
      [done|].
    eexists _, _. split; [done|]. right. exists (d :: delays).
    cbn [all_retried rounds length].
    replace (first + S (length delays) + 1)
      with (first + 1 + length delays + 1) by lia.
    split; [done|]. split; [by constructor|]. split; [done|].
    destruct Hend as [(-> & Hout & Hout')|(d' & Hd' & Hs' & -> & ->)].
    + left. split; [|done]. by rewrite <-!app_assoc.
    + right. exists d'. repeat split; try done.
      by rewrite <-!app_assoc.
  - unfold caught in Hcaught. rewrite Nat.add_sub in Hcaught.
    destruct (func first) as [e|result] eqn:Hfunc; [done|].
    destruct (asks_retry cfg result) eqn:Hask; [done|].
    rewrite (loop_return _ _ _ result) by done.
    eexists _, _. split; [done|]. right. by apply Hnow.
Qed.

(** X23: with [max_attempts] at least 1, every run of the wrapper goes
    through attempts that are retried, each after a sleep, and ends at
    the next attempt: by its result or its exception, with no sleep after
    the call, or by the exception of a [time.sleep] that refuses its
    delay.  The run never ends by the implicit [None], and the function
    is called at most [max_attempts] times. *)
Theorem X23_every_run_ends_at_an_attempt :
  (0 < max_attempts cfg)%Z →
  ∃ out delays,
    retried_all 0 delays
    ∧ slept delays
    ∧ (Z.of_nat (length delays + 1) ≤ max_attempts cfg)%Z
    ∧ ((run = Some (out, rounds 0 delays ++ [Called (length delays + 1)])
        ∧ out ≠ ReturnedNone ∧ out ≠ Raised SleepError)
       ∨ ∃ d,
           retried uniform exponential cfg func (length delays + 1) d
           ∧ sleeps d = false
           ∧ out = Raised SleepError
           ∧ run = Some (out, rounds 0 delays
                              ++ [Called (length delays + 1); Slept d])).
Proof.
  intros Hmax. unfold wrapper.
  destruct (loop_shape (Z.to_nat (max_attempts cfg)) 0 [] ltac:(lia))
    as (out & trace & -> & [(Hstop & _)|(delays & Hall & Hslept & Hle
                                         & Hend)]);
    [lia|].
  exists out, delays. cbn [Nat.add app] in *.
  split; [done|]. split; [done|]. split; [done|].
  destruct Hend as [(-> & Hout & Hout')|(d & Hd & Hs & -> & ->)].
  - by left.
  - right. by exists d.
Qed.

End retry_facts.

Lemma X18_no_attempt_allowed_witness :
  wrapper lower_end integer_backoff not_negative
    (sample_config None 0 (str "normal") 2 None) flaky
  = Some (ReturnedNone, []).
Proof. apply X18_no_attempt_allowed. simpl. lia. Defined.

Lemma flaky_retried (on_exception : option (retry_exn nat → bool))
    (mode : pystr) (factor : Z) (cap : option Z) (d : Z) :
  (∀ e, gives_up (sample_config on_exception 3 mode factor cap) e = false) →
  (∀ n, final_delay lower_end integer_backoff
          (sample_config on_exception 3 mode factor cap) n = inr d) →
  all_retried lower_end integer_backoff
    (sample_config on_exception 3 mode factor cap) flaky 0 [d; d].
Proof.
  intros Hgive Hdelay. cbn [all_retried Nat.add].
  split; [|split; [|done]].
  - exists (FuncError 7). repeat split; try done; simpl; lia.
  - exists (FuncError 8). repeat split; try done; simpl; lia.
Qed.

Lemma X19_returns_first_accepted_result_witness :
  wrapper lower_end integer_backoff not_negative
    (sample_config None 3 (str "normal") 2 None) flaky
  = Some (Returned 5,
          [Called 1; Slept 1%Z; Called 2; Slept 1%Z; Called 3]).
Proof.
  apply (X19_returns_first_accepted_result lower_end integer_backoff
           not_negative (sample_config None 3 (str "normal") 2 None) flaky
           [1%Z; 1%Z] 5).
  - by apply flaky_retried.
  - by repeat constructor.
  - simpl. lia.
  - reflexivity.
  - reflexivity.
Defined.

Lemma X20_gives_up_on_refused_exception_witness :
  wrapper lower_end integer_backoff not_negative
    (sample_config (Some only_seven) 3 (str "normal") 2 None) flaky
  = Some (Raised (FuncError 8), [Called 1; Slept 1%Z; Called 2]).
Proof.
  apply (X20_gives_up_on_refused_exception lower_end integer_backoff
           not_negative
           (sample_config (Some only_seven) 3 (str "normal") 2 None) flaky
           [1%Z] (FuncError 8)).
  - split; [|done]. exists (FuncError 7).
    repeat split; try done; simpl; lia.
  - by repeat constructor.
  - simpl. lia.
  - reflexivity.
  - reflexivity.
Defined.

Lemma X21_last_attempt_raises_witness :
  wrapper lower_end integer_backoff not_negative
    (sample_config None 2 (str "normal") 2 None) flaky
  = Some (Raised (FuncError 8), [Called 1; Slept 1%Z; Called 2]).
Proof.
  apply (X21_last_attempt_raises lower_end integer_backoff not_negative
           (sample_config None 2 (str "normal") 2 None) flaky
           [1%Z] (FuncError 8)).
  - split; [|done]. exists (FuncError 7).
    repeat split; try done; simpl; lia.
  - by repeat constructor.
  - reflexivity.
  - reflexivity.
Defined.

Lemma X22_delay_mode_checked_on_failure_witness :
  wrapper lower_end integer_backoff not_negative
    (sample_config None 3 (str "linear") 2 None) flaky
  = Some (Raised (InvalidDelayMode (str "linear")), [Called 1])
  ∧ wrapper lower_end integer_backoff not_negative
      (sample_config None 3 (str "custom") 2 None) flaky
    = Some (Raised CustomDelayWithoutCallback, [Called 1]).
Proof.
  split.
  - apply (X22_delay_mode_checked_on_failure lower_end integer_backoff
             not_negative
             (sample_config None 3 (str "linear") 2 None) flaky
             [] (FuncError 7)).
    + exact I.
    + simpl. lia.
    + reflexivity.
    + reflexivity.
    + discriminate.
    + discriminate.
    + discriminate.
  - apply (X22_delay_mode_checked_on_failure lower_end integer_backoff
             not_negative
             (sample_config None 3 (str "custom") 2 None) flaky
             [] (FuncError 7)).
    + exact I.
    + simpl. lia.
    + reflexivity.
    + reflexivity.
    + reflexivity.
    + reflexivity.
Defined.

Lemma X23_every_run_ends_at_an_attempt_witness :
  ∃ out delays,
    all_retried lower_end integer_backoff
      (with_callback (sample_config None 3 (str "custom") 2 None)
         (λ n, 3 - 2 * n)%Z)
      flaky 0 delays
    ∧ Forall (λ d, not_negative d = true) delays
    ∧ (Z.of_nat (length delays + 1) ≤ 3)%Z
    ∧ ((wrapper lower_end integer_backoff not_negative
          (with_callback (sample_config None 3 (str "custom") 2 None)
             (λ n, 3 - 2 * n)%Z)
          flaky
        = Some (out, rounds 0 delays ++ [Called (length delays + 1)])
        ∧ out ≠ ReturnedNone ∧ out ≠ Raised SleepError)
       ∨ ∃ d,
           retried lower_end integer_backoff
             (with_callback (sample_config None 3 (str "custom") 2 None)
                (λ n, 3 - 2 * n)%Z)
             flaky (length delays + 1) d
           ∧ not_negative d = false
           ∧ out = Raised SleepError
           ∧ wrapper lower_end integer_backoff not_negative
               (with_callback (sample_config None 3 (str "custom") 2 None)
                  (λ n, 3 - 2 * n)%Z)
               flaky
             = Some (out, rounds 0 delays
                          ++ [Called (length delays + 1); Slept d])).
Proof.
  apply (X23_every_run_ends_at_an_attempt lower_end integer_backoff
           not_negative
           (with_callback (sample_config None 3 (str "custom") 2 None)
              (λ n, 3 - 2 * n)%Z)
           flaky).
  simpl. lia.
Defined.

(** A delay that [time.sleep] refuses: the callback gives 1 second after
    the first attempt and -1 after the second, and the run ends there. *)
Example refused_sleep_ex :
  wrapper lower_end integer_backoff not_negative
    (with_callback (sample_config None 3 (str "custom") 2 None)
       (λ n, 3 - 2 * n)%Z)
    flaky
  = Some (Raised SleepError,
          [Called 1; Slept 1%Z; Called 2; Slept (-1)%Z]).
Proof. reflexivity. Qed.

(** * The delays between the attempts *)

Module BackoffFacts.

Lemma backoff_value (base_delay attempt backoff_factor : Z)
    (max_delay : option Z) (jitter : bool) :
  (1 ≤ attempt)%Z →
  ∃ b, calculate_exponential_backoff base_delay attempt backoff_factor
         max_delay jitter = Some b
       ∧ longest b
         = capped max_delay (base_delay * backoff_factor ^ (attempt - 1)).
Proof.
  intros Hattempt. unfold calculate_exponential_backoff.
  rewrite bool_decide_eq_false_2 by lia. cbv zeta.
  eexists. split; [done|]. by destruct jitter, max_delay.
Qed.

Lemma power_grows (base_delay backoff_factor attempt later : Z) :
  (0 ≤ base_delay)%Z → (1 ≤ backoff_factor)%Z → (1 ≤ attempt ≤ later)%Z →
  (base_delay * backoff_factor ^ (attempt - 1)
   ≤ base_delay * backoff_factor ^ (later - 1))%Z.
Proof.
  intros Hbase Hfactor Hle. apply Z.mul_le_mono_nonneg_l; [done|].
  apply Z.pow_le_mono_r; lia.
Qed.

End BackoffFacts.

(** X24: for a base delay that is not negative and a factor of at least
    1, the backoff never shrinks from an attempt to a later one, and with
    [max_delay] it never goes above it; attempts count from 1. *)
Theorem X24_backoff_grows_up_to_the_cap
    (base_delay attempt later backoff_factor : Z) (max_delay : option Z)
    (jitter : bool) :
  (0 ≤ base_delay)%Z → (1 ≤ backoff_factor)%Z → (1 ≤ attempt ≤ later)%Z →
  ∃ b b',
    calculate_exponential_backoff base_delay attempt backoff_factor
      max_delay jitter = Some b
    ∧ calculate_exponential_backoff base_delay later backoff_factor
        max_delay jitter = Some b'
    ∧ (longest b ≤ longest b')%Z
    ∧ ∀ m, max_delay = Some m → (longest b' ≤ m)%Z.
Proof.
  intros Hbase Hfactor Hle.
  destruct (BackoffFacts.backoff_value base_delay attempt backoff_factor
              max_delay jitter) as (b & Hb & Hlong); [lia|].
  destruct (BackoffFacts.backoff_value base_delay later backoff_factor
              max_delay jitter) as (b' & Hb' & Hlong'); [lia|].
  exists b, b'. split; [done|]. split; [done|]. rewrite Hlong, Hlong'.
  pose proof (BackoffFacts.power_grows base_delay backoff_factor attempt
                later Hbase Hfactor Hle) as Hgrow.
  split.
  - destruct max_delay; simpl; lia.
  - intros m ->. simpl. lia.
Qed.

Lemma X24_backoff_grows_up_to_the_cap_witness :
  ∃ b b',
    calculate_exponential_backoff 1 3 2 (Some 10%Z) true = Some b
    ∧ calculate_exponential_backoff 1 6 2 (Some 10%Z) true = Some b'
    ∧ (longest b ≤ longest b')%Z
    ∧ ∀ m, Some 10%Z = Some m → (longest b' ≤ m)%Z.
Proof.
  apply (X24_backoff_grows_up_to_the_cap 1 3 6 2 (Some 10%Z) true); lia.
Defined.

(** X25: once the backoff has reached [max_delay] it stays there: at
    every later attempt the function returns the same delay, with jitter
    a draw from the same range (base delay not negative, factor at
    least 1). *)
Theorem X25_backoff_stays_at_the_cap
    (base_delay attempt later backoff_factor max_delay : Z) (jitter : bool)
    (b : backoff) :
  (0 ≤ base_delay)%Z → (1 ≤ backoff_factor)%Z → (1 ≤ attempt ≤ later)%Z →
  calculate_exponential_backoff base_delay attempt backoff_factor
    (Some max_delay) jitter = Some b →
  longest b = max_delay →
  calculate_exponential_backoff base_delay later backoff_factor
    (Some max_delay) jitter = Some b.
Proof.
  intros Hbase Hfactor Hle Hb Hlong.
  pose proof (BackoffFacts.power_grows base_delay backoff_factor attempt
                later Hbase Hfactor Hle) as Hgrow.
  unfold calculate_exponential_backoff in *.
  rewrite bool_decide_eq_false_2 in Hb by lia.
  rewrite bool_decide_eq_false_2 by lia. cbv zeta in *.
  injection Hb as <-. f_equal.
  assert (Z.min (base_delay * backoff_factor ^ (later - 1)) max_delay
          = Z.min (base_delay * backoff_factor ^ (attempt - 1)) max_delay)
    as ->; [|done].
  destruct jitter; simpl in Hlong; lia.
Qed.

Lemma X25_backoff_stays_at_the_cap_witness :
  calculate_exponential_backoff 1 9 2 (Some 10%Z) false
  = Some (Seconds 10).
Proof.
  apply (X25_backoff_stays_at_the_cap 1 5 9 2 10 false (Seconds 10));
    try lia; reflexivity.
Defined.

Section retry_delays.
Context {E R D : Type}.
Variable uniform : nat → D → D → D.
Variable exponential : nat → D → Z → D → option D → bool → D.
Variable sleeps : D → bool.
Variable cfg : retry_config E R D.
Variable func : nat → E + R.

(** The sleep after the attempt number [first + k + 1]. *)
Lemma retried_lookup (delays : list D) (first k : nat) (d : D) :
  all_retried uniform exponential cfg func first delays →
  delays !! k = Some d →
  (Z.of_nat (first + k + 1) < max_attempts cfg)%Z
  ∧ final_delay uniform exponential cfg (first + k + 1) = inr d.
Proof.
  revert first k. induction delays as [|d' delays IH]; intros first k;
    [done|].
  intros [(e & _ & _ & Hlt & Hdelay) Hrest] Hk. destruct k as [|k].
  - injection Hk as ->. by rewrite Nat.add_0_r.
  - replace (first + S k + 1) with (first + 1 + k + 1) by lia.
    by apply IH.
Qed.

Lemma rounds_slept (delays : list D) (first : nat) (d : D) :
  Slept d ∈ rounds first delays → d ∈ delays.
Proof.
  revert first. induction delays as [|d' delays IH]; intros first;
    cbn [rounds]; [by intros ?%elem_of_nil|].
  intros [?|[Hd|Hin]%elem_of_cons]%elem_of_cons; [done| |].
  - injection Hd as ->. apply list_elem_of_here.
  - apply list_elem_of_further. by apply (IH (first + 1)).
Qed.

(** X26: in the mode ['normal'] without [random_delay_range], every
    sleep of a run lasts [delay]: the backoff parameters and the
    callback play no part. *)
Theorem X26_normal_mode_sleeps_delay
    (out : retry_outcome E R) (trace : list (retry_event D)) (d : D) :
  delay_mode cfg = str "normal" →
  random_delay_range cfg = None →
  wrapper uniform exponential sleeps cfg func = Some (out, trace) →
  Slept d ∈ trace →
  d = delay cfg.
Proof.
  intros Hmode Hrange Hrun Hslept. unfold wrapper in Hrun.
  assert (∀ attempt d', final_delay uniform exponential cfg attempt = inr d'
                        → d' = delay cfg) as Hnormal.
  { intros attempt d' Hdelay. unfold final_delay in Hdelay.
    rewrite Hrange, Hmode in Hdelay.
    rewrite bool_decide_eq_true_2 in Hdelay by done. by injection Hdelay. }
  destruct (loop_shape uniform exponential sleeps cfg func
              (Z.to_nat (max_attempts cfg)) 0 [] ltac:(lia))
    as (out' & trace' & Hrun'
        & [(_ & _ & ->)|(delays & Hall & _ & _ & Hend)]);
    rewrite Hrun' in Hrun; injection Hrun as _ <-.
  { by apply elem_of_nil in Hslept. }
  assert (Slept d ∈ rounds 0 delays → d = delay cfg) as Hrounds.
  { intros [k Hk]%rounds_slept%list_elem_of_lookup.
    destruct (retried_lookup _ _ _ _ Hall Hk) as [_ Hdelay].
    by apply Hnormal in Hdelay. }
  destruct Hend as [(-> & _)|(d' & (e & _ & _ & _ & Hdelay) & _ & _ & ->)];
    cbn [app] in Hslept; apply elem_of_app in Hslept as [Hslept|Hslept];
    try by apply Hrounds.
  - by apply list_elem_of_singleton in Hslept.
  - apply elem_of_cons in Hslept as [?|Hslept]; [done|].
    apply list_elem_of_singleton in Hslept. injection Hslept as ->.
    by apply Hnormal in Hdelay.
Qed.

(** X27: in the mode ['custom'] the sleep after the failed attempt
    number [n] (from 1) lasts [custom_delay_callback(n)]. *)
Theorem X27_custom_mode_sleeps_callback (delays : list D) (k : nat)
    (d : D) :
  delay_mode cfg = str "custom" →
  all_retried uniform exponential cfg func 0 delays →
  delays !! k = Some d →
  ∃ callback,
    custom_delay_callback cfg = Some callback
    ∧ d = callback (Z.of_nat k + 1)%Z.
Proof.
  intros Hmode Hall Hk.
  destruct (retried_lookup _ _ _ _ Hall Hk) as [_ Hdelay].
  unfold final_delay in Hdelay. rewrite Hmode in Hdelay.
  rewrite bool_decide_eq_false_2, bool_decide_eq_false_2,
    bool_decide_eq_true_2 in Hdelay by done.
  destruct (custom_delay_callback cfg) as [callback|]; [|done].
  exists callback. split; [done|]. injection Hdelay as <-. f_equal. lia.
Qed.

End retry_delays.


Lemma X26_normal_mode_sleeps_delay_witness :
  1%Z = delay (sample_config None 3 (str "normal") 2 None).
Proof.
  apply (X26_normal_mode_sleeps_delay lower_end integer_backoff
           not_negative
           (sample_config None 3 (str "normal") 2 None) flaky
           (Returned 5)
           [Called 1; Slept 1%Z; Called 2; Slept 1%Z; Called 3] 1%Z).
  - reflexivity.
  - reflexivity.
  - reflexivity.
  - apply list_elem_of_further, list_elem_of_here.
Defined.

Lemma X27_custom_mode_sleeps_callback_witness :
  ∃ callback,
    custom_delay_callback
      (with_callback (sample_config None 3 (str "custom") 2 None)
         (λ n, 10 * n)%Z)
    = Some callback
    ∧ 20%Z = callback (Z.of_nat 1 + 1)%Z.
Proof.
  apply (X27_custom_mode_sleeps_callback lower_end integer_backoff
           (with_callback (sample_config None 3 (str "custom") 2 None)
              (λ n, 10 * n)%Z)
           flaky [10%Z; 20%Z] 1 20%Z).
  - reflexivity.
  - cbn [all_retried Nat.add]. split; [|split; [|done]].
    + exists (FuncError 7). repeat split; try done; simpl; lia.
    + exists (FuncError 8). repeat split; try done; simpl; lia.
  - reflexivity.
Defined.

Section retry_backoff.
Context {E R : Type}.
Variable uniform : nat → Z → Z → Z.
Variable exponential : nat → Z → Z → Z → option Z → bool → Z.
Variable cfg : retry_config E R Z.
Variable func : nat → E + R.

(** X28: the decorator with integer delays in the mode ['exponential'],
    without [random_delay_range] and without jitter, the backoff being the
    integer function: the sleep after the failed attempt number [k + 1]
    lasts [delay * backoff_factor ** k], capped by [max_backoff_delay]. *)
Theorem X28_exponential_mode_sleeps (delays : list Z) (k : nat) (d : Z) :
  (∀ n base_delay attempt factor max_delay seconds,
     calculate_exponential_backoff base_delay attempt factor max_delay false
     = Some (Seconds seconds) →
     exponential n base_delay attempt factor max_delay false = seconds) →
  delay_mode cfg = str "exponential" →
  random_delay_range cfg = None →
  jitter cfg = false →
  all_retried uniform exponential cfg func 0 delays →
  delays !! k = Some d →
  d = capped (max_backoff_delay cfg)
        (delay cfg * backoff_factor cfg ^ Z.of_nat k)%Z.
Proof.
  intros Hbackoff Hmode Hrange Hjitter Hall Hk.
  destruct (retried_lookup _ _ _ _ _ _ _ _ Hall Hk) as [_ Hdelay].
  unfold final_delay in Hdelay. rewrite Hmode, Hrange, Hjitter in Hdelay.
  rewrite bool_decide_eq_false_2, bool_decide_eq_true_2 in Hdelay by done.
  injection Hdelay as <-. apply Hbackoff.
  unfold calculate_exponential_backoff.
  rewrite bool_decide_eq_false_2 by lia. cbv zeta.
  replace (Z.of_nat (k + 1) - 1)%Z with (Z.of_nat k) by lia.
  by destruct (max_backoff_delay cfg).
Qed.

End retry_backoff.

Lemma X28_exponential_mode_sleeps_witness :
  2%Z = capped (max_backoff_delay
                  (sample_config None 3 (str "exponential") 3 (Some 2%Z)))
          (delay (sample_config None 3 (str "exponential") 3 (Some 2%Z))
           * backoff_factor
               (sample_config None 3 (str "exponential") 3 (Some 2%Z))
             ^ Z.of_nat 1)%Z.
Proof.
  apply (X28_exponential_mode_sleeps lower_end integer_backoff
           (sample_config None 3 (str "exponential") 3 (Some 2%Z)) flaky
           [1%Z; 2%Z] 1 2%Z).
  - intros n base_delay attempt factor max_delay seconds H.
    unfold integer_backoff. by rewrite H.
  - reflexivity.
  - reflexivity.
  - reflexivity.
  - cbn [all_retried Nat.add]. split; [|split; [|done]].
    + exists (FuncError 7). repeat split; try done; simpl; lia.
    + exists (FuncError 8). repeat split; try done; simpl; lia.
  - reflexivity.
Defined.

(** * The version of the package *)

Module VersionFacts.
Import Str.

Lemma split_char_first (c : ascii) (u w : pystr) :
  c ∉ u →
  split_scan [c] (u ++ c :: w) 0 = u :: split_scan [c] w 0.
Proof.
  induction u as [|a u IH]; intros Hc.
  - cbn [app split_scan startswith]. by rewrite bool_decide_eq_true_2.
  - apply not_elem_of_cons in Hc as [Hca Hcu].
    cbn [app split_scan startswith].
    rewrite bool_decide_eq_false_2 by done. cbn [andb].
    by rewrite IH.
Qed.

Lemma split_char_free (c : ascii) (s : pystr) :
  c ∉ s → split_scan [c] s 0 = [s].
Proof.
  induction s as [|a s IH]; intros Hc; [done|].
  apply not_elem_of_cons in Hc as [Hca Hcs].
  cbn [split_scan startswith].
  rewrite bool_decide_eq_false_2 by done. cbn [andb].
  by rewrite IH.
Qed.

Lemma lstrip_whitespace (w s : pystr) :
  whitespace w → lstrip (w ++ s) = lstrip s.
Proof.
  induction 1 as [|c w Hc _ IH]; [done|]. cbn [app lstrip]. by rewrite Hc.
Qed.

Lemma rstrip_whitespace (s w : pystr) :
  whitespace w → rstrip (s ++ w) = rstrip s.
Proof.
  intros Hw. revert s. induction Hw as [|c w Hc _ IH]; intros s.
  - by rewrite app_nil_r.
  - change (c :: w) with ([c] ++ w). rewrite app_assoc, IH.
    by apply StrFacts.rstrip_snoc_space.
Qed.

Lemma not_whitespace (c : ascii) (w : pystr) :
  isspace c = false → whitespace w → c ∉ w.
Proof.
  intros Hc Hw Hin. unfold whitespace in Hw. rewrite Forall_forall in Hw.
  apply Hw in Hin. congruence.
Qed.

Lemma lstrip_nonspace (c : ascii) (s : pystr) :
  isspace c = false → lstrip (c :: s) = c :: s.
Proof. intros Hc. cbn [lstrip]. by rewrite Hc. Qed.

Lemma rstrip_app_nonspace (s : pystr) (c : ascii) (rest : pystr) :
  isspace c = false →
  rstrip ((s ++ [c]) ++ rest) = (s ++ [c]) ++ rstrip rest.
Proof.
  intros Hc. induction s as [|a s IH].
  - cbn [app rstrip]. rewrite Hc. by destruct (rstrip rest).
  - cbn [app rstrip]. cbn [app] in IH. rewrite IH. by destruct s.
Qed.

Lemma rstrip_snoc (s : pystr) (c : ascii) :
  isspace c = false → rstrip (s ++ [c]) = s ++ [c].
Proof.
  intros Hc. induction s as [|a s IH]; cbn [app rstrip].
  - by rewrite Hc.
  - rewrite IH. by destruct s.
Qed.

Lemma rstrip_chars_snoc (chars s : pystr) (c : ascii) :
  c ∉ chars → rstrip_chars chars (s ++ [c]) = s ++ [c].
Proof.
  intros Hc. induction s as [|a s IH]; cbn [app rstrip_chars].
  - by rewrite bool_decide_eq_false_2.
  - rewrite IH. by destruct s.
Qed.

Lemma rstrip_chars_snoc_in (chars s : pystr) (c : ascii) :
  c ∈ chars → rstrip_chars chars (s ++ [c]) = rstrip_chars chars s.
Proof.
  intros Hc. induction s as [|a s IH]; cbn [app rstrip_chars].
  - by rewrite bool_decide_eq_true_2.
  - by rewrite IH.
Qed.

Lemma rstrip_chars_last (c : ascii) (v : pystr) :
  last v ≠ Some c → rstrip_chars [c] v = v.
Proof.
  destruct v as [|a v _] using rev_ind; [done|].
  rewrite last_snoc. intros Hne. apply rstrip_chars_snoc.
  intros ->%list_elem_of_singleton. done.
Qed.

Lemma strip_chars_id (c : ascii) (v : pystr) :
  ends_free_of c v → strip_chars [c] v = v.
Proof.
  intros [Hhead Hlast]. unfold strip_chars.
  assert (lstrip_chars [c] v = v) as ->; [|by apply rstrip_chars_last].
  destruct v as [|a v]; [done|]. cbn [lstrip_chars].
  rewrite bool_decide_eq_false_2; [done|].
  intros ->%list_elem_of_singleton. done.
Qed.

(** [(q + v + q).strip(q)] *)
Lemma strip_chars_quoted (q : ascii) (v : pystr) :
  ends_free_of q v → strip_chars [q] (q :: v ++ [q]) = v.
Proof.
  intros [Hhead Hlast]. unfold strip_chars. cbn [lstrip_chars].
  rewrite bool_decide_eq_true_2 by apply list_elem_of_here.
  destruct v as [|a v].
  - cbn [app lstrip_chars].
    by rewrite bool_decide_eq_true_2 by apply list_elem_of_here.
  - cbn [app lstrip_chars]. rewrite bool_decide_eq_false_2; last first.
    { intros ->%list_elem_of_singleton. done. }
    change (a :: v ++ [q]) with ((a :: v) ++ [q]).
    rewrite rstrip_chars_snoc_in by apply list_elem_of_here.
    by apply rstrip_chars_last.
Qed.

Lemma ends_free_of_quoted (c q : ascii) (v : pystr) :
  c ≠ q → ends_free_of c (q :: v ++ [q]).
Proof.
  intros Hne. split; [simpl; congruence|].
  change (q :: v ++ [q]) with ((q :: v) ++ [q]). rewrite last_snoc.
  congruence.
Qed.

(** The lines before the first version line are passed. *)
Lemma version_scan_app (before lines : list pystr) :
  Forall (λ line, version_line line = false) before →
  version_scan (before ++ lines) = version_scan lines.
Proof.
  induction 1 as [|line before Hline _ IH]; [done|].
  cbn [app version_scan]. by rewrite Hline.
Qed.

End VersionFacts.

(** X29: when the first line that starts with [__version__] reads
    [__version__ = q v q], with [q] a double or a single quote and
    whitespace allowed around each part, and the text [v] holds no [=]
    and neither starts nor ends with a quote, [get_version_info] returns
    [v], whatever the lines after it. *)
Theorem X29_version_round_trip (before after : list pystr)
    (indent gap gap' ending v : pystr) (q : ascii) :
  Forall (λ line, version_line line = false) before →
  whitespace indent → whitespace gap → whitespace gap' →
  whitespace ending →
  q = double_quote ∨ q = single_quote →
  "="%char ∉ v →
  ends_free_of double_quote v → ends_free_of single_quote v →
  get_version_info
    (Some (before
           ++ (indent ++ str "__version__" ++ gap ++ str "=" ++ gap'
               ++ [q] ++ v ++ [q] ++ ending)
           :: after))
  = Some v.
Proof.
  intros Hbefore Hindent Hgap Hgap' Hending Hq Hv Hdouble Hsingle.
  assert (Str.isspace q = false) as Hspace by (by destruct Hq as [->| ->]).
  assert (q ≠ "="%char) as Hequal by (by destruct Hq as [->| ->]).
  cbn [get_version_info]. rewrite VersionFacts.version_scan_app by done.
  cbn [version_scan].
  assert (version_line
            (indent ++ str "__version__" ++ gap ++ str "=" ++ gap'
             ++ [q] ++ v ++ [q] ++ ending) = true) as ->.
  { unfold version_line, Str.strip.
    rewrite VersionFacts.lstrip_whitespace by done.
    change (str "__version__" ++ ?rest)
      with ("_"%char :: (str "_version__" ++ rest)).
    rewrite VersionFacts.lstrip_nonspace by done.
    change ("_"%char :: (str "_version__" ++ ?rest))
      with ((str "__version_" ++ ["_"%char]) ++ rest).
    rewrite VersionFacts.rstrip_app_nonspace by done.
    apply StrFacts.startswith_app. }
  change (Str.split (str "=") ?line)
    with (Ok (Str.split_scan ["="%char] line 0)).
  assert (indent ++ str "__version__" ++ gap ++ str "=" ++ gap'
          ++ [q] ++ v ++ [q] ++ ending
          = (indent ++ str "__version__" ++ gap)
            ++ "="%char :: (gap' ++ (q :: v ++ [q]) ++ ending)) as ->.
  { rewrite <-!app_assoc. simpl. by rewrite <-!app_assoc. }
  rewrite VersionFacts.split_char_first; last first.
  { rewrite !not_elem_of_app. split; [|split].
    - by apply VersionFacts.not_whitespace.
    - intros Hin. apply list_elem_of_In in Hin. simpl in Hin.
      by repeat destruct Hin as [Hin|Hin].
    - by apply VersionFacts.not_whitespace. }
  rewrite VersionFacts.split_char_free; last first.
  { rewrite !not_elem_of_app, !not_elem_of_cons, !not_elem_of_app.
    split; [by apply VersionFacts.not_whitespace|].
    split; [|by apply VersionFacts.not_whitespace].
    split; [done|]. split; [done|].
    by intros ?%list_elem_of_singleton. }
  f_equal. unfold Str.strip.
  rewrite VersionFacts.lstrip_whitespace by done.
  cbn [app]. rewrite VersionFacts.lstrip_nonspace by done.
  change (q :: (v ++ [q]) ++ ending) with ((q :: v ++ [q]) ++ ending).
  rewrite VersionFacts.rstrip_whitespace by done.
  change (q :: v ++ [q]) with ((q :: v) ++ [q]).
  rewrite VersionFacts.rstrip_snoc by done. cbn [app].
  destruct Hq as [->| ->].
  - rewrite VersionFacts.strip_chars_quoted by done.
    by apply VersionFacts.strip_chars_id.
  - rewrite (VersionFacts.strip_chars_id double_quote
               (single_quote :: v ++ [single_quote]))
      by (by apply VersionFacts.ends_free_of_quoted).
    by apply VersionFacts.strip_chars_quoted.
Qed.

Lemma X29_version_round_trip_witness :
  get_version_info
    (Some [str "__title__ = 'python_utils'"; str "__version__ = '0.0.3'"])
  = Some (str "0.0.3").
Proof.
  apply (X29_version_round_trip [str "__title__ = 'python_utils'"] []
           [] (str " ") (str " ") [] (str "0.0.3") single_quote).
  - by repeat constructor.
  - constructor.
  - by repeat constructor.
  - by repeat constructor.
  - constructor.
  - by right.
  - intros Hin. apply list_elem_of_In in Hin. simpl in Hin.
    by repeat destruct Hin as [Hin|Hin].
  - by split.
  - by split.
Defined.

(** X30: a line that starts with [__version__] and holds no [=] ends the
    search: [get_version_info] returns [None] (the [IndexError] is
    caught), also when a later line gives the version. *)
Theorem X30_version_line_without_equal_sign (before after : list pystr)
    (line : pystr) :
  Forall (λ line, version_line line = false) before →
  version_line line = true →
  "="%char ∉ line →
  get_version_info (Some (before ++ line :: after)) = None.
Proof.
  intros Hbefore Hline Hequal. cbn [get_version_info].
  rewrite VersionFacts.version_scan_app by done.
  cbn [version_scan]. rewrite Hline.
  change (Str.split (str "=") line)
    with (Ok (Str.split_scan ["="%char] line 0)).
  by rewrite VersionFacts.split_char_free.
Qed.

Lemma X30_version_line_without_equal_sign_witness :
  get_version_info
    (Some [str "__version__: str"; str "__version__ = '0.0.3'"])
  = None.
Proof.
  apply (X30_version_line_without_equal_sign []
           [str "__version__ = '0.0.3'"] (str "__version__: str")).
  - constructor.
  - reflexivity.
  - intros Hin. apply list_elem_of_In in Hin. simpl in Hin.
    by repeat destruct Hin as [Hin|Hin].
Defined.
